(** * Thiran: the permission gate, the provider adapters and the agent loop

    A shallow embedding of the TypeScript sources
    - [src/types.ts]                 (the records [ToolCall], [Message], ...),
    - [src/security/permissions.ts]  (module [Permissions]),
    - [src/providers/openai.ts], [src/providers/anthropic.ts],
      [src/providers/ollama.ts]      (modules [OpenAI], [Anthropic], [Ollama]),
    - [src/core/agent.ts]            (module [Agent]),
    - [src/ui/App.tsx]               (module [App]),
    - [src/tools/base.ts], [src/tools/index.ts] and the sources of the
      tool [edit_file] and of the wrapper of the MCP tools
      ([src/unnamed/part_003], [src/unnamed/part_011])
                                     (modules [BaseTool], [EditFile], [MCP]),
    followed by the properties of these components (modules
    [PermissionsFacts], [ProviderFacts], [OllamaFacts], [AgentFacts] and
    [AppFacts], then [StringFacts], [PermissionsLaws], [AgentLaws],
    [ProviderLaws], [OllamaLaws], [EditFileFacts], [AppLaws] and
    [MCPFacts]).

    JavaScript strings are modelled as [string], holding the UTF-8 encoding
    of the text; a [Set<string>] is a [gset string]; a promise that rejects
    or a function that throws returns an explicit error value. *)

From Stdlib Require Import String Ascii ZArith Lia Bool.
From stdpp Require Import base option list gmap strings pretty.

Set Warnings "-register-all".

Open Scope string_scope.
Open Scope list_scope.
Open Scope nat_scope.

(** ** JavaScript string primitives *)

Module JsString.

(** [s.startsWith(search)] *)
Definition startsWith (s search : string) : bool := String.prefix search s.

(** A string is truthy unless it is empty. *)
Definition truthy (s : string) : bool :=
  match s with
  | EmptyString => false
  | String _ _ => true
  end.

Definition byte (a : ascii) : N := N_of_ascii a.

(** One-byte white space of the [\s] class and of [trim]:
    TAB, LF, VT, FF, CR and SPACE. *)
Definition is_ws1 (a : ascii) : bool :=
  let n := byte a in ((9 <=? n) && (n <=? 13) || (n =? 32))%N.

(** U+00A0, encoded C2 A0. *)
Definition is_ws2 (a b : ascii) : bool :=
  ((byte a =? 194) && (byte b =? 160))%N.

(** U+1680, U+2000..U+200A, U+2028, U+2029, U+202F, U+205F, U+3000 and
    U+FEFF in their three-byte encodings. *)
Definition is_ws3 (a b c : ascii) : bool :=
  let x := byte a in let y := byte b in let z := byte c in
  ((x =? 225) && (y =? 154) && (z =? 128)
   || (x =? 226) && (y =? 128)
      && ((128 <=? z) && (z <=? 138) || (z =? 168) || (z =? 169) || (z =? 175))
   || (x =? 226) && (y =? 129) && (z =? 159)
   || (x =? 227) && (y =? 128) && (z =? 128)
   || (x =? 239) && (y =? 187) && (z =? 191))%N.

(** Number of bytes of the white-space character [s] starts with,
    [0] when it starts with none. *)
Definition ws_len (s : string) : nat :=
  match s with
  | String a r =>
      if is_ws1 a then 1
      else match r with
           | String b r' =>
               if is_ws2 a b then 2
               else match r' with
                    | String c _ => if is_ws3 a b c then 3 else 0
                    | EmptyString => 0
                    end
           | EmptyString => 0
           end
  | EmptyString => 0
  end.

(** The greedy [\s*] at the head of [s]: what is left after it. *)
Fixpoint skip_ws (s : string) : string :=
  match s with
  | EmptyString => EmptyString
  | String _ r =>
      match ws_len s with
      | 0 => s
      | 1 => skip_ws r
      | 2 => match r with
             | String _ r2 => skip_ws r2
             | EmptyString => s
             end
      | _ => match r with
             | String _ (String _ r3) => skip_ws r3
             | _ => s
             end
      end
  end.

Definition all_ws (s : string) : bool :=
  match skip_ws s with
  | EmptyString => true
  | String _ _ => false
  end.

Fixpoint trimEnd (s : string) : string :=
  match s with
  | EmptyString => EmptyString
  | String a r => if all_ws s then EmptyString else String a (trimEnd r)
  end.

(** [s.trim()] *)
Definition trim (s : string) : string := trimEnd (skip_ws s).

(** [s.split(/\s+/)[0]]: the text before the first white space (empty when
    [s] starts with white space). *)
Fixpoint first_word (s : string) : string :=
  match s with
  | EmptyString => EmptyString
  | String a r =>
      match ws_len s with
      | 0 => String a (first_word r)
      | _ => EmptyString
      end
  end.

(** [s.split('\n')[0]] *)
Fixpoint first_line (s : string) : string :=
  match s with
  | EmptyString => EmptyString
  | String a r => if (byte a =? 10)%N then EmptyString else String a (first_line r)
  end.

(** The line feed, ['\n']. *)
Definition lf : string := String (ascii_of_N 10) EmptyString.

(** [l.join('')] *)
Definition join (l : list string) : string := foldr String.append EmptyString l.

(** [s.slice(n)] *)
Fixpoint string_drop (n : nat) (s : string) : string :=
  match n, s with
  | S n', String _ r => string_drop n' r
  | _, _ => s
  end.

(** [s.replace(/pattern/g, replacement)] for a [pattern] without special
    characters, not empty, and a [replacement] without [$]: the occurrences of
    the pattern are found from the left and do not overlap; [skip] characters
    of the last one are still ahead. *)
Fixpoint replace_from (pattern replacement : string) (skip : nat) (s : string) : string :=
  match skip with
  | S k =>
      match s with
      | String _ r => replace_from pattern replacement k r
      | EmptyString => EmptyString
      end
  | 0 =>
      if String.prefix pattern s
      then replacement +:+
           match s with
           | String _ r => replace_from pattern replacement (String.length pattern - 1) r
           | EmptyString => EmptyString
           end
      else match s with
           | String a r => String a (replace_from pattern replacement 0 r)
           | EmptyString => EmptyString
           end
  end.

Definition replace_all (pattern replacement s : string) : string :=
  replace_from pattern replacement 0 s.

(** [s.split('\n')], as the lines that a line feed ends and the text after
    the last line feed (what [pop] takes from the array). *)
Fixpoint lines (s : string) : list string * string :=
  match s with
  | EmptyString => ([], EmptyString)
  | String a r =>
      let '(ls, last) := lines r in
      if (byte a =? 10)%N then (EmptyString :: ls, last)
      else match ls with
           | [] => ([], String a last)
           | l :: ls' => (String a l :: ls', last)
           end
  end.

(** The text after the last occurrence of the character [c] in [s], and
    the whole of [s] when [c] does not occur in it. *)
Fixpoint after_last (c : ascii) (s : string) : string * bool :=
  match s with
  | EmptyString => (EmptyString, false)
  | String a r =>
      let '(t, found) := after_last c r in
      if found then (t, true)
      else if Ascii.eqb a c then (r, true) else (s, false)
  end.

(** [s.length]: the number of UTF-16 code units of the text, one for each
    character of one to three bytes and two for each character of four. *)
Fixpoint length (s : string) : nat :=
  match s with
  | EmptyString => 0
  | String a r =>
      (let n := byte a in
       if ((128 <=? n) && (n <? 192))%N then 0
       else if (240 <=? n)%N then 2
       else 1) + length r
  end.

(** The number of turns of the loop
    [while ((pos = str.indexOf(substr, pos)) !== -1) { count++; pos += substr.length; }]
    for a [substr] that is not empty: the occurrences found from the left,
    which do not overlap; [skip] characters of the last one are still
    ahead. *)
Fixpoint count_from (substr : string) (skip : nat) (s : string) : nat :=
  match skip with
  | S k =>
      match s with
      | String _ r => count_from substr k r
      | EmptyString => 0
      end
  | 0 =>
      if String.prefix substr s
      then S match s with
             | String _ r => count_from substr (String.length substr - 1) r
             | EmptyString => 0
             end
      else match s with
           | String _ r => count_from substr 0 r
           | EmptyString => 0
           end
  end.

(** [s.split(sep)] for a separator that is not empty: the text up to the
    next occurrence of the separator, and the pieces after it. *)
Fixpoint split_from (sep : string) (skip : nat) (s : string) : string * list string :=
  match skip with
  | S k =>
      match s with
      | String _ r => split_from sep k r
      | EmptyString => (EmptyString, [])
      end
  | 0 =>
      if String.prefix sep s
      then let '(piece, pieces) :=
             match s with
             | String _ r => split_from sep (String.length sep - 1) r
             | EmptyString => (EmptyString, [])
             end in
           (EmptyString, piece :: pieces)
      else match s with
           | String a r => let '(piece, pieces) := split_from sep 0 r in (String a piece, pieces)
           | EmptyString => (EmptyString, [])
           end
  end.

Definition split (sep s : string) : list string :=
  let '(piece, pieces) := split_from sep 0 s in piece :: pieces.

(** [l.join(sep)] *)
Definition join_with (sep : string) (l : list string) : string :=
  match l with
  | [] => EmptyString
  | piece :: pieces => piece +:+ foldr (λ p rest, sep +:+ p +:+ rest) EmptyString pieces
  end.

(** The first occurrence of [needle] in [s]: the text before it and the
    text after it. *)
Fixpoint split_first (needle s : string) : option (string * string) :=
  if String.prefix needle s
  then Some (EmptyString, string_drop (String.length needle) s)
  else match s with
       | EmptyString => None
       | String a r =>
           match split_first needle r with
           | Some (before, after) => Some (String a before, after)
           | None => None
           end
       end.

(** [s.includes(needle)] *)
Definition includes (s needle : string) : bool :=
  match split_first needle s with
  | Some _ => true
  | None => false
  end.

(** The replacement text of [replace] with a pattern that is a string, and
    so has no capture: [$$] stands for a dollar, [$&] for the match, [$`] for
    the text before it and [$'] for the text after it; a dollar before any
    other character stands for itself. *)
Fixpoint substitution (matched before after replacement : string) : string :=
  match replacement with
  | EmptyString => EmptyString
  | String a tail =>
      if (byte a =? 36)%N then
        match tail with
        | String c r =>
            if (byte c =? 36)%N then String a (substitution matched before after r)
            else if (byte c =? 38)%N then matched +:+ substitution matched before after r
            else if (byte c =? 96)%N then before +:+ substitution matched before after r
            else if (byte c =? 39)%N then after +:+ substitution matched before after r
            else String a (substitution matched before after tail)
        | EmptyString => String a EmptyString
        end
      else String a (substitution matched before after tail)
  end.

(** A replacement text without a dollar. *)
Fixpoint plain (replacement : string) : bool :=
  match replacement with
  | EmptyString => true
  | String a r => negb (byte a =? 36)%N && plain r
  end.

(** [s.replace(pattern, replacement)] for a pattern that is a string: the
    first occurrence is replaced. *)
Definition replace (s pattern replacement : string) : string :=
  match split_first pattern s with
  | Some (before, after) => before +:+ substitution pattern before after replacement +:+ after
  | None => s
  end.

End JsString.


(** ** JSON values and [JSON.parse] *)

Module Json.

(** A parsed JSON value.  A number is kept exactly, as [m * 10^e]; the
    sign of a zero is not kept. *)
Inductive value :=
| JNull
| JBool (b : bool)
| JNum (m e : Z)
| JStr (s : string)
| JArr (l : list value)
| JObj (kvs : list (string * value)).

(** The empty object literal [{}]. *)
Definition empty_object : value := JObj [].

(** A number is [0] as a double when it is zero or rounds to zero, that is
    when its magnitude is at most [2^-1075]. *)
Definition num_is_zero (m e : Z) : bool :=
  if (m =? 0)%Z then true
  else if (0 <=? e)%Z then false
  else (Z.abs m * 2 ^ 1075 <=? 10 ^ (- e))%Z.

(** Truthiness of a value that may be [undefined] ([None]). *)
Definition truthy (v : option value) : bool :=
  match v with
  | None => false
  | Some JNull => false
  | Some (JBool b) => b
  | Some (JNum m e) => negb (num_is_zero m e)
  | Some (JStr s) => JsString.truthy s
  | Some (JArr _) => true
  | Some (JObj _) => true
  end.

(** The last binding of [k] in the members of an object: [JSON.parse] keeps
    the last of duplicate keys. *)
Fixpoint lookup_member (k : string) (kvs : list (string * value)) : option value :=
  match kvs with
  | [] => None
  | (k', v) :: rest =>
      match lookup_member k rest with
      | Some v' => Some v'
      | None => if String.eqb k k' then Some v else None
      end
  end.

(** Property access [v.k] for a key [k] that no prototype defines (as [tool]
    and [arguments]): [None] is the [TypeError] of reading a property of
    [null], [Some None] is [undefined]. *)
Definition prop (v : value) (k : string) : option (option value) :=
  match v with
  | JNull => None
  | JObj kvs => Some (lookup_member k kvs)
  | _ => Some None
  end.

(** *** The lexer *)

Inductive token :=
| TLBrace | TRBrace | TLBracket | TRBracket | TColon | TComma
| TString (s : string)
| TNumber (m e : Z)
| TTrue | TFalse | TNull.

Definition is_digit (a : ascii) : bool :=
  let n := JsString.byte a in ((48 <=? n) && (n <=? 57))%N.

Definition digit_val (a : ascii) : Z := Z.of_N (JsString.byte a) - 48.

(** The leading decimal digits of [s], read after the digits [acc] (whose
    count is [len]), and what follows them. *)
Fixpoint digits (acc : Z) (len : nat) (s : string) : Z * nat * string :=
  match s with
  | String a r =>
      if is_digit a then digits (10 * acc + digit_val a) (S len) r
      else (acc, len, s)
  | EmptyString => (acc, len, s)
  end.

(** The integer part of a number: a single [0], or digits not starting
    with [0]. *)
Definition int_part (s : string) : option (Z * string) :=
  match s with
  | String a r =>
      if (JsString.byte a =? 48)%N then Some (0%Z, r)
      else if is_digit a then
        let '(n, _, rest) := digits 0 0 s in Some (n, rest)
      else None
  | EmptyString => None
  end.

(** The optional fraction: the mantissa extended by its digits, and their
    count. *)
Definition frac_part (int : Z) (s : string) : option (Z * nat * string) :=
  match s with
  | String "." r =>
      let '(n, len, rest) := digits int 0 r in
      match len with
      | 0 => None
      | _ => Some (n, len, rest)
      end
  | _ => Some (int, 0, s)
  end.

(** The optional exponent. *)
Definition exp_part (s : string) : option (Z * string) :=
  match s with
  | String a r =>
      if (Ascii.eqb a "e" || Ascii.eqb a "E")%bool then
        let '(neg, r') :=
          match r with
          | String "-" r' => (true, r')
          | String "+" r' => (false, r')
          | _ => (false, r)
          end in
        let '(n, len, rest) := digits 0 0 r' in
        match len with
        | 0 => None
        | _ => Some (if neg then (- n)%Z else n, rest)
        end
      else Some (0%Z, s)
  | EmptyString => Some (0%Z, s)
  end.

(** A whole JSON number [-? int frac? exp?]. *)
Definition parse_number (w : string) : option (Z * Z) :=
  let '(neg, w1) :=
    match w with
    | String "-" r => (true, r)
    | _ => (false, w)
    end in
  '(i, w2) ← int_part w1;
  '(m, flen, w3) ← frac_part i w2;
  '(e, w4) ← exp_part w3;
  match w4 with
  | EmptyString => Some (if neg then (- m)%Z else m, (e - Z.of_nat flen)%Z)
  | String _ _ => None
  end.

Definition hex_val (a : ascii) : option N :=
  let n := JsString.byte a in
  if ((48 <=? n) && (n <=? 57))%N then Some (n - 48)%N
  else if ((65 <=? n) && (n <=? 70))%N then Some (n - 55)%N
  else if ((97 <=? n) && (n <=? 102))%N then Some (n - 87)%N
  else None.

Definition hex4 (a b c d : ascii) : option N :=
  x ← hex_val a; y ← hex_val b; z ← hex_val c; w ← hex_val d;
  Some (((x * 16 + y) * 16 + z) * 16 + w)%N.

Definition chr (n : N) : ascii := ascii_of_N n.

(** The double quote. *)
Definition quote : ascii := chr 34.

(** The UTF-8 encoding of a code point (a lone surrogate is encoded as
    any other three-byte code point). *)
Definition utf8 (cp : N) : string :=
  if (cp <? 128)%N then String (chr cp) EmptyString
  else if (cp <? 2048)%N then
    String (chr (192 + cp / 64)) (String (chr (128 + cp mod 64)) EmptyString)
  else if (cp <? 65536)%N then
    String (chr (224 + cp / 4096))
      (String (chr (128 + (cp / 64) mod 64))
         (String (chr (128 + cp mod 64)) EmptyString))
  else
    String (chr (240 + cp / 262144))
      (String (chr (128 + (cp / 4096) mod 64))
         (String (chr (128 + (cp / 64) mod 64))
            (String (chr (128 + cp mod 64)) EmptyString))).

Definition is_high_surrogate (cp : N) : bool := ((55296 <=? cp) && (cp <=? 56319))%N.
Definition is_low_surrogate (cp : N) : bool := ((56320 <=? cp) && (cp <=? 57343))%N.

(** The escape [\c] for a single character [c] other than [u]. *)
Definition simple_escape (c : ascii) : option ascii :=
  if Ascii.eqb c quote then Some c
  else if Ascii.eqb c "\" then Some c
  else if Ascii.eqb c "/" then Some c
  else if Ascii.eqb c "b" then Some (chr 8)
  else if Ascii.eqb c "f" then Some (chr 12)
  else if Ascii.eqb c "n" then Some (chr 10)
  else if Ascii.eqb c "r" then Some (chr 13)
  else if Ascii.eqb c "t" then Some (chr 9)
  else None.

(** The text of a string literal from what stands between its quotes. *)
Fixpoint decode_string (s : string) : option string :=
  match s with
  | EmptyString => Some EmptyString
  | String a r =>
      if Ascii.eqb a "\" then
        match r with
        | String c r1 =>
            if Ascii.eqb c "u" then
              match r1 with
              | String h1 (String h2 (String h3 (String h4 r2))) =>
                  cp ← hex4 h1 h2 h3 h4;
                  let single := (fun _ : unit => String.append (utf8 cp) <$> decode_string r2) in
                  if is_high_surrogate cp then
                    match r2 with
                    | String b (String u (String l1 (String l2 (String l3 (String l4 r3))))) =>
                        if (Ascii.eqb b "\" && Ascii.eqb u "u")%bool then
                          match hex4 l1 l2 l3 l4 with
                          | Some lo =>
                              if is_low_surrogate lo then
                                String.append
                                  (utf8 (65536 + (cp - 55296) * 1024 + (lo - 56320))%N)
                                  <$> decode_string r3
                              else single tt
                          | None => single tt
                          end
                        else single tt
                    | _ => single tt
                    end
                  else single tt
              | _ => None
              end
            else
              c' ← simple_escape c;
              String c' <$> decode_string r1
        | EmptyString => None
        end
      else String a <$> decode_string r
  end.

Inductive lex_state :=
| LDefault
| LString (raw : list ascii)
| LEscape (raw : list ascii)
| LWord (w : list ascii).

Definition is_json_ws (a : ascii) : bool :=
  let n := JsString.byte a in ((n =? 32) || (n =? 9) || (n =? 10) || (n =? 13))%N.

Definition string_of_rev (l : list ascii) : string :=
  string_of_list_ascii (rev l).

(** The token a run of literal characters stands for. *)
Definition word_token (w : string) : option token :=
  if String.eqb w "true" then Some TTrue
  else if String.eqb w "false" then Some TFalse
  else if String.eqb w "null" then Some TNull
  else '(m, e) ← parse_number w; Some (TNumber m e).

(** Reading [a] between tokens: the state it leads to and the token it
    stands for, if any. *)
Definition default_step (a : ascii) : lex_state * list token :=
  if is_json_ws a then (LDefault, [])
  else if Ascii.eqb a "{" then (LDefault, [TLBrace])
  else if Ascii.eqb a "}" then (LDefault, [TRBrace])
  else if Ascii.eqb a "[" then (LDefault, [TLBracket])
  else if Ascii.eqb a "]" then (LDefault, [TRBracket])
  else if Ascii.eqb a ":" then (LDefault, [TColon])
  else if Ascii.eqb a "," then (LDefault, [TComma])
  else if Ascii.eqb a quote then (LString [], [])
  else (LWord [a], []).

Definition ends_word (a : ascii) : bool :=
  match default_step a with
  | (LWord _, _) => false
  | _ => true
  end.

Fixpoint lex (st : lex_state) (s : string) : option (list token) :=
  match s with
  | EmptyString =>
      match st with
      | LDefault => Some []
      | LWord w => t ← word_token (string_of_rev w); Some [t]
      | LString _ | LEscape _ => None
      end
  | String a r =>
      match st with
      | LDefault =>
          let '(st', ts) := default_step a in
          app ts <$> lex st' r
      | LWord w =>
          if ends_word a then
            t ← word_token (string_of_rev w);
            let '(st', ts) := default_step a in
            (λ l, t :: ts ++ l) <$> lex st' r
          else lex (LWord (a :: w)) r
      | LString raw =>
          if Ascii.eqb a quote then
            str ← decode_string (string_of_rev raw);
            cons (TString str) <$> lex LDefault r
          else if Ascii.eqb a "\" then lex (LEscape (a :: raw)) r
          else if (JsString.byte a <? 32)%N then None
          else lex (LString (a :: raw)) r
      | LEscape raw =>
          if (JsString.byte a <? 32)%N then None
          else lex (LString (a :: raw)) r
      end
  end.

(** *** The parser: a pushdown automaton over the tokens *)

(** A container under construction, below the value being read. *)
Inductive frame :=
| FArr (done : list value)
| FObj (done : list (string * value)) (key : string).

Inductive pstate :=
| PValue (close_ok : bool)
| PKey (done : list (string * value)) (close_ok : bool)
| PColon (done : list (string * value)) (key : string)
| PAfter (v : value).

Fixpoint pda (st : pstate) (stack : list frame) (toks : list token) : option value :=
  match toks with
  | [] =>
      match st, stack with
      | PAfter v, [] => Some v
      | _, _ => None
      end
  | t :: ts =>
      match st with
      | PValue close_ok =>
          match t with
          | TLBrace => pda (PKey [] true) stack ts
          | TLBracket => pda (PValue true) (FArr [] :: stack) ts
          | TString s => pda (PAfter (JStr s)) stack ts
          | TNumber m e => pda (PAfter (JNum m e)) stack ts
          | TTrue => pda (PAfter (JBool true)) stack ts
          | TFalse => pda (PAfter (JBool false)) stack ts
          | TNull => pda (PAfter JNull) stack ts
          | TRBracket =>
              match close_ok, stack with
              | true, FArr done :: stack' => pda (PAfter (JArr done)) stack' ts
              | _, _ => None
              end
          | _ => None
          end
      | PKey done close_ok =>
          match t with
          | TString k => pda (PColon done k) stack ts
          | TRBrace => if close_ok then pda (PAfter (JObj done)) stack ts else None
          | _ => None
          end
      | PColon done k =>
          match t with
          | TColon => pda (PValue false) (FObj done k :: stack) ts
          | _ => None
          end
      | PAfter v =>
          match stack, t with
          | FArr done :: stack', TComma => pda (PValue false) (FArr (done ++ [v]) :: stack') ts
          | FArr done :: stack', TRBracket => pda (PAfter (JArr (done ++ [v]))) stack' ts
          | FObj done k :: stack', TComma => pda (PKey (done ++ [(k, v)]) false) stack' ts
          | FObj done k :: stack', TRBrace => pda (PAfter (JObj (done ++ [(k, v)]))) stack' ts
          | _, _ => None
          end
      end
  end.

(** [JSON.parse(text)]; [None] is the [SyntaxError]. *)
Definition parse (text : string) : option value :=
  toks ← lex LDefault text;
  pda (PValue false) [] toks.

End Json.

(** ** The core types ([src/types.ts]) *)

Module ToolCall.
Record t := mk { id : string; name : string; arguments : Json.value }.
End ToolCall.

Inductive Role := user | assistant | system | tool.

#[global] Instance Role_eq_dec : EqDecision Role.
Proof. solve_decision. Defined.

Module Message.
Record t := mk {
  role : Role;
  content : string;
  toolCallId : option string;
  toolCalls : option (list ToolCall.t) }.
End Message.

Module ToolResult.
Record t := mk { success : bool; output : string; error : option string }.
End ToolResult.

Inductive ApprovalMode := SUGGEST | AUTO_EDIT | FULL_AUTO.

#[global] Instance ApprovalMode_eq_dec : EqDecision ApprovalMode.
Proof. solve_decision. Defined.

Inductive ActionType :=
| read | write | execute
| file_read | file_write | file_edit | bash_execute | web_fetch.

Module PermissionAction.
Record t := mk {
  type : ActionType;
  path : option string;
  command : option string;
  url : option string;
  toolName : option string;
  toolArgs : option Json.value }.
End PermissionAction.

Module PermissionResult.
Record t := mk { granted : bool; reason : option string }.
End PermissionResult.

(** The answer of an approval prompt, [{ allow, remember }]. *)
Module PromptDecision.
Record t := mk { allow : bool; remember : bool }.
End PromptDecision.

Inductive ChunkType := text | tool_call | tool_call_delta | done | error.

#[global] Instance ChunkType_eq_dec : EqDecision ChunkType.
Proof. solve_decision. Defined.

(** [StreamChunk]; an [Error] is kept as its message. *)
Module StreamChunk.
Record t := mk {
  type : ChunkType;
  content : option string;
  toolCall : option ToolCall.t;
  delta : option string;
  error : option string }.
End StreamChunk.

(** Truthiness of an optional string: present and not empty. *)
Definition truthy_str (o : option string) : bool :=
  match o with
  | Some s => JsString.truthy s
  | None => false
  end.

(** ** The permission gate ([src/security/permissions.ts]) *)

Module Permissions.

Record DefaultPermissionManager := mk {
  allowedPaths : gset string;
  allowedCommands : gset string;
  allowedUrls : gset string;
  approvalMode : ApprovalMode;
  workingDirectory : string }.

(** What a call does: it returns a result or throws (the [TypeError] of a
    method call on [undefined]), leaves the manager in a new state, and has
    put the listed actions to the approval prompt. *)
Inductive completion :=
| Returned (r : PermissionResult.t)
| Thrown (e : string).

Record outcome := mk_outcome {
  result : completion;
  manager : DefaultPermissionManager;
  prompted : list PermissionAction.t }.

Definition set_allowedPaths (m : DefaultPermissionManager) (s : gset string) :=
  mk s (allowedCommands m) (allowedUrls m) (approvalMode m) (workingDirectory m).
Definition set_allowedCommands (m : DefaultPermissionManager) (s : gset string) :=
  mk (allowedPaths m) s (allowedUrls m) (approvalMode m) (workingDirectory m).
Definition set_allowedUrls (m : DefaultPermissionManager) (s : gset string) :=
  mk (allowedPaths m) (allowedCommands m) s (approvalMode m) (workingDirectory m).

(** The constructor: the working directory is allowed from the start. *)
Definition new (approvalMode : ApprovalMode) (workingDirectory : string)
  : DefaultPermissionManager :=
  mk ({[ workingDirectory ]} ∪ ∅) ∅ ∅ approvalMode workingDirectory.

Definition granted_result : PermissionResult.t := PermissionResult.mk true None.

(** [{ granted: decision.allow,
       reason: decision.allow ? undefined : 'User denied permission' }] *)
Definition decision_result (d : PromptDecision.t) : PermissionResult.t :=
  PermissionResult.mk (PromptDecision.allow d)
    (if PromptDecision.allow d then None else Some "User denied permission").

Definition prompt_action (ty : ActionType) (path command url : option string)
  : PermissionAction.t :=
  PermissionAction.mk ty path command url None None.

Definition safeCommands : gset string :=
  list_to_set
    ["ls"; "pwd"; "echo"; "cat"; "head"; "tail"; "wc";
     "date"; "whoami"; "which"; "type"; "file";
     "git status"; "git diff"; "git log"; "git branch"].

Section Manager.

(** The injected approval prompt, which resolves with a decision, and the
    host name of [new URL(url)] ([None] when the constructor throws). *)
Variable promptFn : PermissionAction.t → PromptDecision.t.
Variable URL_hostname : string → option string.

Definition isPathAllowed (m : DefaultPermissionManager) (filePath : string) : bool :=
  (* Check exact match *)
  if bool_decide (filePath ∈ allowedPaths m) then true
  (* Check if path is within working directory *)
  else if JsString.startsWith filePath (workingDirectory m) then true
  (* Check if path is within any allowed path *)
  else existsb (λ allowedPath, JsString.startsWith filePath (allowedPath +:+ "/"))
         (elements (allowedPaths m)).

Definition checkFileRead (m : DefaultPermissionManager) (filePath : string) : outcome :=
  if isPathAllowed m filePath then mk_outcome (Returned granted_result) m []
  else
    let action := prompt_action file_read (Some filePath) None None in
    let decision := promptFn action in
    let m' :=
      if PromptDecision.allow decision && PromptDecision.remember decision
      then set_allowedPaths m ({[ filePath ]} ∪ allowedPaths m)
      else m in
    mk_outcome (Returned (decision_result decision)) m' [action].

Definition checkFileWrite (m : DefaultPermissionManager) (filePath : string) : outcome :=
  (* Auto-edit mode allows file writes without prompting *)
  if bool_decide (approvalMode m = AUTO_EDIT) && isPathAllowed m filePath
  then mk_outcome (Returned granted_result) m []
  (* Check if path is within allowed paths *)
  else if isPathAllowed m filePath && bool_decide (approvalMode m = AUTO_EDIT)
  then mk_outcome (Returned granted_result) m []
  else
    let action := prompt_action file_write (Some filePath) None None in
    let decision := promptFn action in
    let m' :=
      if PromptDecision.allow decision && PromptDecision.remember decision
      then set_allowedPaths m ({[ filePath ]} ∪ allowedPaths m)
      else m in
    mk_outcome (Returned (decision_result decision)) m' [action].

(** The net effect the specification documents for a write or an edit, in
    place of the two duplicated branches: granted without prompting when the
    mode is full-auto, or when it is auto-edit and the path is already
    allowed; the prompt decides otherwise. *)
Definition write_granted_without_prompt (mode : ApprovalMode) (pathAllowed : bool) : bool :=
  bool_decide (mode = FULL_AUTO) || bool_decide (mode = AUTO_EDIT) && pathAllowed.

Definition checkWrite_spec (m : DefaultPermissionManager) (filePath : string) : outcome :=
  if write_granted_without_prompt (approvalMode m) (isPathAllowed m filePath)
  then mk_outcome (Returned granted_result) m []
  else
    let action := prompt_action file_write (Some filePath) None None in
    let decision := promptFn action in
    let m' :=
      if PromptDecision.allow decision && PromptDecision.remember decision
      then set_allowedPaths m ({[ filePath ]} ∪ allowedPaths m)
      else m in
    mk_outcome (Returned (decision_result decision)) m' [action].

Definition checkBashExecute (m : DefaultPermissionManager) (command : string) : outcome :=
  let prefix := JsString.first_word command in
  if bool_decide (prefix ∈ allowedCommands m)
  then mk_outcome (Returned granted_result) m []
  else if bool_decide (prefix ∈ safeCommands)
          || bool_decide (JsString.trim (JsString.first_line command) ∈ safeCommands)
  then mk_outcome (Returned granted_result) m []
  else
    let action := prompt_action bash_execute None (Some command) None in
    let decision := promptFn action in
    let m' :=
      if PromptDecision.allow decision && PromptDecision.remember decision
      then set_allowedCommands m ({[ prefix ]} ∪ allowedCommands m)
      else m in
    mk_outcome (Returned (decision_result decision)) m' [action].

Definition checkWebFetch (m : DefaultPermissionManager) (url : option string) : outcome :=
  match url ≫= URL_hostname with
  | Some hostname =>
      if bool_decide (hostname ∈ allowedUrls m)
      then mk_outcome (Returned granted_result) m []
      else
        let action := prompt_action web_fetch None None url in
        let decision := promptFn action in
        let m' :=
          if PromptDecision.allow decision && PromptDecision.remember decision
          then set_allowedUrls m ({[ hostname ]} ∪ allowedUrls m)
          else m in
        mk_outcome (Returned (decision_result decision)) m' [action]
  | None => mk_outcome (Returned (PermissionResult.mk false (Some "Invalid URL"))) m []
  end.

(** A path or command that is [undefined] makes the check throw when it
    calls [startsWith] or [split] on it. *)
Definition on_string (m : DefaultPermissionManager) (arg : option string)
    (check : DefaultPermissionManager → string → outcome) : outcome :=
  match arg with
  | Some s => check m s
  | None => mk_outcome (Thrown "TypeError") m []
  end.

Definition checkPermission (m : DefaultPermissionManager) (action : PermissionAction.t)
  : outcome :=
  (* Full auto mode allows everything *)
  if bool_decide (approvalMode m = FULL_AUTO)
  then mk_outcome (Returned granted_result) m []
  else
    match PermissionAction.type action with
    | file_read => on_string m (PermissionAction.path action) checkFileRead
    | file_write | file_edit => on_string m (PermissionAction.path action) checkFileWrite
    | bash_execute => on_string m (PermissionAction.command action) checkBashExecute
    | web_fetch => checkWebFetch m (PermissionAction.url action)
    | read | write | execute =>
        mk_outcome (Returned (PermissionResult.mk false (Some "Unknown action type"))) m []
    end.

Definition addToAllowList (m : DefaultPermissionManager) (action : PermissionAction.t)
  : DefaultPermissionManager :=
  match PermissionAction.type action with
  | file_read | file_write | file_edit =>
      match PermissionAction.path action with
      | Some p => if JsString.truthy p
                  then set_allowedPaths m ({[ p ]} ∪ allowedPaths m) else m
      | None => m
      end
  | bash_execute =>
      match PermissionAction.command action with
      | Some c => if JsString.truthy c
                  then set_allowedCommands m ({[ JsString.first_word c ]} ∪ allowedCommands m)
                  else m
      | None => m
      end
  | web_fetch =>
      match PermissionAction.url action with
      | Some u =>
          if JsString.truthy u then
            match URL_hostname u with
            | Some hostname => set_allowedUrls m ({[ hostname ]} ∪ allowedUrls m)
            | None => m
            end
          else m
      | None => m
      end
  | read | write | execute => m
  end.

End Manager.

(** The prompt that always answers [{ allow: false, remember: false }]. *)
Definition always_deny : PermissionAction.t → PromptDecision.t :=
  λ _, PromptDecision.mk false false.

(** The prompt that always answers [{ allow: true, remember: true }]. *)
Definition always_remember : PermissionAction.t → PromptDecision.t :=
  λ _, PromptDecision.mk true true.

Definition file_action (ty : ActionType) (p : string) : PermissionAction.t :=
  PermissionAction.mk ty (Some p) None None None None.

Definition command_action (c : string) : PermissionAction.t :=
  PermissionAction.mk bash_execute None (Some c) None None None.

Definition url_action (u : string) : PermissionAction.t :=
  PermissionAction.mk web_fetch None None (Some u) None None.

(** The manager after a series of checks, one after the other. *)
Definition after_checks (promptFn : PermissionAction.t → PromptDecision.t)
    (URL_hostname : string → option string)
    (actions : list PermissionAction.t) (m : DefaultPermissionManager)
  : DefaultPermissionManager :=
  fold_left (λ m a, manager (checkPermission promptFn URL_hostname m a)) actions m.

End Permissions.

(** ** Configuration and tools ([src/types.ts]) *)

Module ThiranConfig.
Record t := mk {
  provider : string;
  model : option string;
  approvalMode : ApprovalMode;
  autoCommit : bool;
  maxContextTokens : Z;
  allowedPaths : list string;
  blockedCommands : list string }.
End ThiranConfig.

Module ExecutionContext.
Record t := mk {
  workingDirectory : string;
  permissions : Permissions.DefaultPermissionManager;
  config : ThiranConfig.t }.
End ExecutionContext.

(** How [tool.execute] completes: with a result, or by throwing; of what is
    thrown the handler keeps [error.message], or [String(error)]. *)
Inductive execution :=
| Completed (r : ToolResult.t)
| Failed (message : string).

(** A tool acts on the world outside the agent, of type [E]: the file
    system, the network, the terminal and its user. *)
Module Tool.
Record t (E : Type) := mk {
  name : string;
  description : string;
  execute : Json.value → ExecutionContext.t → E → execution * E }.
Arguments mk {E}.
Arguments name {E}.
Arguments description {E}.
Arguments execute {E}.
End Tool.

(** What the vendor's client hands to an adapter: the events of the
    response stream, and the message of the error that ends it when the
    request or the iteration throws. *)
Module VendorStream.
Record t (A : Type) := mk { events : list A; failure : option string }.
Arguments mk {A}.
Arguments events {A}.
Arguments failure {A}.
End VendorStream.

Definition text_chunk (content : string) : StreamChunk.t :=
  StreamChunk.mk text (Some content) None None None.
Definition tool_call_chunk (tc : ToolCall.t) : StreamChunk.t :=
  StreamChunk.mk tool_call None (Some tc) None None.
Definition tool_call_delta_chunk (d : string) : StreamChunk.t :=
  StreamChunk.mk tool_call_delta None None (Some d) None.
Definition error_chunk (message : string) : StreamChunk.t :=
  StreamChunk.mk error None None None (Some message).
Definition done_chunk : StreamChunk.t :=
  StreamChunk.mk done None None None None.

(** [JSON.parse(input || '{}')] of a buffered argument payload, and the
    chunk it is reported with: the tool call, or the parse failure. *)
Definition completed_tool_call (id name input : string) : StreamChunk.t :=
  match Json.parse (if JsString.truthy input then input else "{}") with
  | Some args => tool_call_chunk (ToolCall.mk id name args)
  | None => error_chunk ("Failed to parse tool arguments: " +:+ input)
  end.

(** The contract of an adapter's stream: its last event is [done] or
    [error], and no event before the last is. *)
Definition is_terminal (c : StreamChunk.t) : bool :=
  match StreamChunk.type c with
  | done | error => true
  | _ => false
  end.

Definition ends_with_one_terminal (l : list StreamChunk.t) : bool :=
  match rev l with
  | last :: before => is_terminal last && forallb (λ c, negb (is_terminal c)) before
  | [] => false
  end.

(** The texts of a stream, in order. *)
Definition texts (l : list StreamChunk.t) : list string :=
  omap (λ c, match StreamChunk.type c with
             | text => StreamChunk.content c
             | _ => None
             end) l.

(** ** The OpenAI adapter ([src/providers/openai.ts]) *)

Module OpenAI.

Module FunctionDelta.
Record t := mk { name : option string; arguments : option string }.
End FunctionDelta.

Module ToolCallDelta.
Record t := mk { index : Z; id : option string; function : option FunctionDelta.t }.
End ToolCallDelta.

Module Delta.
Record t := mk { content : option string; tool_calls : option (list ToolCallDelta.t) }.
End Delta.

Module Choice.
Record t := mk { delta : option Delta.t; finish_reason : option string }.
End Choice.

Module Chunk.
Record t := mk { choices : list Choice.t }.
End Chunk.

(** A tool call under construction. *)
Module Pending.
Record t := mk { id : string; name : string; arguments : string }.
End Pending.

(** The [Map<number, ...>] of tool calls by index, in insertion order. *)
Definition pending_map := list (Z * Pending.t).

Fixpoint has (m : pending_map) (index : Z) : bool :=
  match m with
  | [] => false
  | (i, _) :: rest => (i =? index)%Z || has rest index
  end.

(** The update of the entry at [index] in place. *)
Fixpoint update (m : pending_map) (index : Z) (f : Pending.t → Pending.t) : pending_map :=
  match m with
  | [] => []
  | (i, p) :: rest =>
      if (i =? index)%Z then (i, f p) :: rest else (i, p) :: update rest index f
  end.

Definition or_empty (o : option string) : string :=
  match o with
  | Some s => s
  | None => ""
  end.

Definition function_name (d : ToolCallDelta.t) : option string :=
  ToolCallDelta.function d ≫= FunctionDelta.name.
Definition function_arguments (d : ToolCallDelta.t) : option string :=
  ToolCallDelta.function d ≫= FunctionDelta.arguments.

(** The body of the loop over [delta.tool_calls]: the map and the chunks
    yielded so far, after one more fragment. *)
Definition step_tool_call_delta (st : pending_map * list StreamChunk.t)
    (d : ToolCallDelta.t) : pending_map * list StreamChunk.t :=
  let '(toolCalls, out) := st in
  let index := ToolCallDelta.index d in
  let toolCalls :=
    if has toolCalls index then toolCalls
    else toolCalls ++ [(index, Pending.mk (or_empty (ToolCallDelta.id d))
                                 (or_empty (function_name d)) "")] in
  let toolCalls :=
    if truthy_str (ToolCallDelta.id d)
    then update toolCalls index
           (λ p, Pending.mk (or_empty (ToolCallDelta.id d)) (Pending.name p) (Pending.arguments p))
    else toolCalls in
  let toolCalls :=
    if truthy_str (function_name d)
    then update toolCalls index
           (λ p, Pending.mk (Pending.id p) (or_empty (function_name d)) (Pending.arguments p))
    else toolCalls in
  if truthy_str (function_arguments d)
  then (update toolCalls index
          (λ p, Pending.mk (Pending.id p) (Pending.name p)
                  (Pending.arguments p +:+ or_empty (function_arguments d))),
        out ++ [tool_call_delta_chunk (or_empty (function_arguments d))])
  else (toolCalls, out).

Definition emit (p : Pending.t) : StreamChunk.t :=
  completed_tool_call (Pending.id p) (Pending.name p) (Pending.arguments p).

(** The body of the loop over the chunks of the response. *)
Definition step_chunk (st : pending_map * list StreamChunk.t) (chunk : Chunk.t)
  : pending_map * list StreamChunk.t :=
  match head (Chunk.choices chunk) with
  | None => st
  | Some choice =>
      match Choice.delta choice with
      | None => st
      | Some delta =>
          let '(toolCalls, out) := st in
          (* Handle text content *)
          let out :=
            if truthy_str (Delta.content delta)
            then out ++ [text_chunk (or_empty (Delta.content delta))] else out in
          (* Handle tool calls *)
          let '(toolCalls, out) :=
            match Delta.tool_calls delta with
            | Some deltas => fold_left step_tool_call_delta deltas (toolCalls, out)
            | None => (toolCalls, out)
            end in
          (* Check if stream is done *)
          if truthy_str (Choice.finish_reason choice)
          then (toolCalls, out ++ map (λ ip, emit ip.2) toolCalls ++ [done_chunk])
          else (toolCalls, out)
      end
  end.

(** [chat], as a function of the response stream of the request. *)
Definition chat (response : VendorStream.t Chunk.t) : list StreamChunk.t :=
  let '(_, out) := fold_left step_chunk (VendorStream.events response) ([], []) in
  match VendorStream.failure response with
  | Some message => out ++ [error_chunk message]
  | None => out
  end.

(** What a chunk of the response carries: the fragments of tool calls and
    the text of [chunk.choices[0]?.delta], and, of some fragments, the
    argument texts addressed to an index. *)
Definition delta_of (chunk : Chunk.t) : option Delta.t :=
  match head (Chunk.choices chunk) with
  | Some choice => Choice.delta choice
  | None => None
  end.

Definition tool_call_deltas (chunk : Chunk.t) : list ToolCallDelta.t :=
  match delta_of chunk with
  | Some delta => default [] (Delta.tool_calls delta)
  | None => []
  end.

Definition text_of (chunk : Chunk.t) : option string :=
  match delta_of chunk with
  | Some delta =>
      if truthy_str (Delta.content delta) then Delta.content delta else None
  | None => None
  end.

Definition fragments (index : Z) (deltas : list ToolCallDelta.t) : list string :=
  map (λ d, or_empty (function_arguments d))
    (filter (λ d, ToolCallDelta.index d = index) deltas).

(** The map after some fragments: one entry for each index seen, holding
    the argument texts addressed to the index, joined in order. *)
Definition assembled (m : pending_map) (deltas : list ToolCallDelta.t) : Prop :=
  NoDup m.*1
  ∧ (∀ index, index ∈ m.*1 ↔ index ∈ map ToolCallDelta.index deltas)
  ∧ ∀ index p, (index, p) ∈ m →
      Pending.arguments p = JsString.join (fragments index deltas).

(** The messages of a request, [ChatCompletionMessageParam]. *)
Module ToolCallParam.
Record t := mk { id : string; name : string; arguments : string }.
End ToolCallParam.

Inductive MessageParam :=
| system_param (content : string)
| user_param (content : string)
| assistant_param (content : option string) (tool_calls : option (list ToolCallParam.t))
| tool_param (tool_call_id : option string) (content : string).

Section Convert.

(** [JSON.stringify], of the arguments of a call. *)
Variable JSON_stringify : Json.value → string.

(** The body of the loop of [convertMessages]: what it pushes for a
    message. *)
Definition convert (msg : Message.t) : list MessageParam :=
  match Message.role msg with
  | system => [] (* Already handled *)
  | user => [user_param (Message.content msg)]
  | assistant =>
      match Message.toolCalls msg with
      | Some (_ :: _ as toolCalls) =>
          [assistant_param
             (if JsString.truthy (Message.content msg) then Some (Message.content msg) else None)
             (Some (map (λ tc, ToolCallParam.mk (ToolCall.id tc) (ToolCall.name tc)
                                 (JSON_stringify (ToolCall.arguments tc))) toolCalls))]
      | _ => [assistant_param (Some (Message.content msg)) None]
      end
  | tool => [tool_param (Message.toolCallId msg) (Message.content msg)]
  end.

Definition convertMessages (messages : list Message.t) (systemPrompt : string)
  : list MessageParam :=
  fold_left (λ result msg, result ++ convert msg) messages [system_param systemPrompt].

End Convert.

End OpenAI.

(** ** The Anthropic adapter ([src/providers/anthropic.ts]) *)

Module Anthropic.

Inductive ContentBlock :=
| tool_use (id name : string)
| other_block.

Inductive BlockDelta :=
| text_delta (text : string)
| input_json_delta (partial_json : string)
| other_delta.

Inductive Event :=
| content_block_start (content_block : ContentBlock)
| content_block_delta (delta : BlockDelta)
| content_block_stop
| message_stop
| other_event.

(** [currentToolUse] *)
Module ToolUse.
Record t := mk { id : string; name : string; input : string }.
End ToolUse.

Definition step_event (st : option ToolUse.t * list StreamChunk.t) (event : Event)
  : option ToolUse.t * list StreamChunk.t :=
  let '(currentToolUse, out) := st in
  match event with
  | content_block_start (tool_use id name) => (Some (ToolUse.mk id name ""), out)
  | content_block_start other_block => st
  | content_block_delta (text_delta t) => (currentToolUse, out ++ [text_chunk t])
  | content_block_delta (input_json_delta partial_json) =>
      match currentToolUse with
      | Some u =>
          (Some (ToolUse.mk (ToolUse.id u) (ToolUse.name u) (ToolUse.input u +:+ partial_json)),
           out ++ [tool_call_delta_chunk partial_json])
      | None => st
      end
  | content_block_delta other_delta => st
  | content_block_stop =>
      match currentToolUse with
      | Some u =>
          (None, out ++ [completed_tool_call (ToolUse.id u) (ToolUse.name u) (ToolUse.input u)])
      | None => st
      end
  | message_stop => (currentToolUse, out ++ [done_chunk])
  | other_event => st
  end.

Definition chat (response : VendorStream.t Event) : list StreamChunk.t :=
  let '(_, out) := fold_left step_event (VendorStream.events response) (None, []) in
  match VendorStream.failure response with
  | Some message => out ++ [error_chunk message]
  | None => out
  end.

(** The text that an event of the response carries. *)
Definition text_of (event : Event) : option string :=
  match event with
  | content_block_delta (text_delta t) => Some t
  | _ => None
  end.

(** The messages of a request, [MessageParam]. *)
Inductive ContentBlockParam :=
| text_param (text : string)
| tool_use_param (id name : string) (input : Json.value)
| tool_result_param (tool_use_id : option string) (content : string).

Inductive Content :=
| plain (text : string)
| blocks (content : list ContentBlockParam).

Module MessageParam.
Record t := mk { role : Role; content : Content }.
End MessageParam.

(** The body of the loop of [convertMessages]: what it pushes for a
    message. *)
Definition convert (msg : Message.t) : list MessageParam.t :=
  match Message.role msg with
  | system => [] (* System messages are handled separately *)
  | user => [MessageParam.mk user (plain (Message.content msg))]
  | assistant =>
      match Message.toolCalls msg with
      | Some (_ :: _ as toolCalls) =>
          (* Assistant message with tool calls *)
          let content :=
            if JsString.truthy (Message.content msg)
            then [text_param (Message.content msg)] else [] in
          let content :=
            fold_left (λ content toolCall,
                         content ++ [tool_use_param (ToolCall.id toolCall)
                                       (ToolCall.name toolCall) (ToolCall.arguments toolCall)])
              toolCalls content in
          [MessageParam.mk assistant (blocks content)]
      | _ => [MessageParam.mk assistant (plain (Message.content msg))]
      end
  | tool =>
      (* Tool results *)
      [MessageParam.mk user
         (blocks [tool_result_param (Message.toolCallId msg) (Message.content msg)])]
  end.

Definition convertMessages (messages : list Message.t) : list MessageParam.t :=
  fold_left (λ result msg, result ++ convert msg) messages [].

End Anthropic.

(** ** Free-text extraction of tool calls ([src/providers/ollama.ts]) *)

Module Ollama.

(** The class [\w]. *)
Definition is_word_char (a : ascii) : bool :=
  let n := JsString.byte a in
  ((48 <=? n) && (n <=? 57) || (65 <=? n) && (n <=? 90)
   || (97 <=? n) && (n <=? 122) || (n =? 95))%N.

(** The greedy [\w*] at the head of [s], and what follows it. *)
Fixpoint word_run (s : string) : string * string :=
  match s with
  | String a r =>
      if is_word_char a
      then let '(w, rest) := word_run r in (String a w, rest)
      else (EmptyString, s)
  | EmptyString => (EmptyString, s)
  end.

(** The matches of a global regular expression, by repeated [exec]: [m]
    tells whether the expression matches at the head of a text, with what
    captures and over how many characters; the search goes on after the end
    of each match ([skip] characters of the last match are still ahead). *)
Fixpoint scan {A : Type} (m : string → option (A * nat)) (skip : nat) (s : string) : list A :=
  match skip with
  | S k =>
      match s with
      | String _ r => scan m k r
      | EmptyString => []
      end
  | 0 =>
      match m s with
      | Some (a, len) =>
          a :: match s with
               | String _ r => scan m (len - 1) r
               | EmptyString => []
               end
      | None =>
          match s with
          | String _ r => scan m 0 r
          | EmptyString => []
          end
      end
  end.

Definition fence : string := "```".

(** [/```tool\s*([\s\S]*?)```/] at the head of [s]. *)
Definition match_tool_block (s : string) : option (string * nat) :=
  if String.prefix "```tool" s then
    '(capture, rest) ← JsString.split_first fence
                          (JsString.skip_ws (JsString.string_drop 7 s));
    Some (capture, String.length s - String.length rest)
  else None.

Definition deepseek_begin : string := "<｜tool▁call▁begin｜>function<｜tool▁sep｜>".
Definition deepseek_end : string := "<｜tool▁call▁end｜>".

(** The DeepSeek expression at the head of [s]:
    [<｜tool▁call▁begin｜>function<｜tool▁sep｜>(\w+)\s*[\s\S]*?```(?:json)?\s*([\s\S]*?)```[\s\S]*?<｜tool▁call▁end｜>] *)
Definition match_deepseek (s : string) : option (string * string * nat) :=
  if String.prefix deepseek_begin s then
    let '(name, r1) := word_run (JsString.string_drop (String.length deepseek_begin) s) in
    if JsString.truthy name then
      '(_, r2) ← JsString.split_first fence r1;
      let r3 := if String.prefix "json" r2 then JsString.string_drop 4 r2 else r2 in
      '(args, r4) ← JsString.split_first fence (JsString.skip_ws r3);
      '(_, r5) ← JsString.split_first deepseek_end r4;
      Some (name, args, String.length s - String.length r5)
    else None
  else None.

(** [/<function=(\w+)>([\s\S]*?)<\/function>/] at the head of [s]. *)
Definition match_function (s : string) : option (string * string * nat) :=
  if String.prefix "<function=" s then
    let '(name, r1) := word_run (JsString.string_drop 10 s) in
    if JsString.truthy name then
      match r1 with
      | String ">" r2 =>
          '(args, r3) ← JsString.split_first "</function>" r2;
          Some (name, args, String.length s - String.length r3)
      | _ => None
      end
    else None
  else None.

Section Extract.

(** [Date.now()] when the identifier of the call of index [k] is made. *)
Variable now : nat → N.

Definition new_id (toolCalls : list ToolCall.t) : string :=
  "ollama_" +:+ pretty (now (length toolCalls)) +:+ "_" +:+ pretty (length toolCalls).

(** [toolNames.has(v)] for a value [v] of any type: the names are strings. *)
Definition has_name (toolNames : gset string) (v : option Json.value) : bool :=
  match v with
  | Some (Json.JStr name) => bool_decide (name ∈ toolNames)
  | _ => false
  end.

(** The body of the loop over the [```tool] blocks; a [SyntaxError] of
    [JSON.parse] and a [TypeError] of [toolData.tool] are caught and the
    block is ignored. *)
Definition push_tool_block (toolNames : gset string) (toolCalls : list ToolCall.t)
    (capture : string) : list ToolCall.t :=
  match Json.parse (JsString.trim capture) with
  | Some toolData =>
      match Json.prop toolData "tool", Json.prop toolData "arguments" with
      | Some tool_, Some arguments =>
          if Json.truthy tool_ && has_name toolNames tool_ then
            match tool_ with
            | Some (Json.JStr name) =>
                toolCalls ++
                  [ToolCall.mk (new_id toolCalls) name
                     (match arguments with
                      | Some a => if Json.truthy arguments then a else Json.empty_object
                      | None => Json.empty_object
                      end)]
            | _ => toolCalls
            end
          else toolCalls
      | _, _ => toolCalls
      end
  | None => toolCalls
  end.

(** The body of the loops over the DeepSeek blocks and the [<function=>]
    blocks. *)
Definition push_named (toolNames : gset string) (toolCalls : list ToolCall.t)
    (captures : string * string) : list ToolCall.t :=
  let toolName := JsString.trim captures.1 in
  let argsJson := JsString.trim captures.2 in
  match Json.parse argsJson with
  | Some args =>
      if bool_decide (toolName ∈ toolNames)
      then toolCalls ++ [ToolCall.mk (new_id toolCalls) toolName args]
      else toolCalls
  | None => toolCalls
  end.

Definition extractToolCalls {E : Type} (response : string) (tools : list (Tool.t E))
  : list ToolCall.t :=
  let toolNames : gset string := list_to_set (map Tool.name tools) in
  (* Format 1: Our custom ```tool format *)
  let toolCalls := fold_left (push_tool_block toolNames) (scan match_tool_block 0 response) [] in
  (* Format 2: DeepSeek style *)
  let toolCalls := fold_left (push_named toolNames) (scan match_deepseek 0 response) toolCalls in
  (* Format 3: Simple function call format (some models) *)
  fold_left (push_named toolNames) (scan match_function 0 response) toolCalls.

End Extract.

(** [cleanStreamContent]: the special tokens of a fragment of the answer give
    way to readable text. *)
Definition cleanStreamContent (content : string) : string :=
  let replace pattern replacement s := JsString.replace_all pattern replacement s in
  let lf := JsString.lf in
  let cleaned := content in
  (* DeepSeek tool tokens *)
  let cleaned := replace "<｜tool▁calls▁begin｜>" lf cleaned in
  let cleaned := replace "<｜tool▁calls▁end｜>" lf cleaned in
  let cleaned := replace "<｜tool▁call▁begin｜>" "" cleaned in
  let cleaned := replace "<｜tool▁call▁end｜>" lf cleaned in
  let cleaned := replace "<｜tool▁outputs▁begin｜>" "" cleaned in
  let cleaned := replace "<｜tool▁outputs▁end｜>" lf cleaned in
  let cleaned := replace "<｜tool▁output▁begin｜>" "" cleaned in
  let cleaned := replace "<｜tool▁output▁end｜>" "" cleaned in
  let cleaned := replace "<｜tool▁sep｜>" ": " cleaned in
  (* Thinking tokens - add visual separators *)
  let cleaned := replace "<think>" (lf +:+ "💭 Thinking..." +:+ lf) cleaned in
  let cleaned := replace "</think>" (lf +:+ "───────────────" +:+ lf) cleaned in
  let cleaned := replace "<｜begin▁of▁thought｜>" (lf +:+ "💭 Thinking..." +:+ lf) cleaned in
  let cleaned := replace "<｜end▁of▁thought｜>" (lf +:+ "───────────────" +:+ lf) cleaned in
  cleaned.

(** [data.message?.content]: [None] is the [TypeError] of reading a property
    of [null], [Some None] is [undefined]. *)
Definition message_content (data : Json.value) : option (option Json.value) :=
  match Json.prop data "message" with
  | None => None
  | Some None | Some (Some Json.JNull) => Some None
  | Some (Some message) => Json.prop message "content"
  end.

Section Chat.

Context {E : Type}.

(** [Date.now()], as in [extractToolCalls], and the text that [+=] appends
    to a string for a value that is not a string. *)
Variable now : nat → N.
Variable String_of : Json.value → string.

(** The body of the two [try] blocks of [chat], for one JSON text of the
    response: the answer so far and the chunks yielded so far, after it.  A
    text that does not parse is ignored, and so is the [TypeError] of
    [cleanStreamContent] on a content that is not a string, which comes after
    the content has joined the answer. *)
Definition on_json (text : string) (st : string * list StreamChunk.t)
  : string * list StreamChunk.t :=
  let '(fullResponse, out) := st in
  match Json.parse text with
  | Some data =>
      match message_content data with
      | Some content =>
          if Json.truthy content then
            match content with
            | Some (Json.JStr content) =>
                let fullResponse := fullResponse +:+ content in
                (* Clean the content before displaying *)
                let cleanContent := cleanStreamContent content in
                if JsString.truthy cleanContent
                then (fullResponse, out ++ [text_chunk cleanContent])
                else (fullResponse, out)
            | Some content => (fullResponse +:+ String_of content, out)
            | None => st
            end
          else st
      | None => st
      end
  | None => st (* Ignore malformed JSON *)
  end.

Definition on_line (st : string * list StreamChunk.t) (line : string)
  : string * list StreamChunk.t :=
  if JsString.truthy (JsString.trim line) then on_json line st else st.

(** The body of the loop over the reads of the response body: the buffer,
    the answer and the chunks, after one more read. *)
Definition on_read (st : string * (string * list StreamChunk.t)) (value : string)
  : string * (string * list StreamChunk.t) :=
  let '(buffer, progress) := st in
  let buffer := buffer +:+ value in
  (* Process complete JSON lines *)
  let '(lines, buffer) := JsString.lines buffer in
  (buffer, fold_left on_line lines progress).

(** [chat], as a function of the reads of the response body, which hold
    UTF-8 text, and of the tools of the request. *)
Definition chat (response : VendorStream.t string) (tools : list (Tool.t E))
  : list StreamChunk.t :=
  let '(buffer, progress) :=
    fold_left on_read (VendorStream.events response) ("", ("", [])) in
  match VendorStream.failure response with
  | Some message => progress.2 ++ [error_chunk message]
  | None =>
      (* Process any remaining data in buffer *)
      let '(fullResponse, out) := on_line progress buffer in
      (* Extract tool calls and emit done *)
      out ++ map tool_call_chunk (extractToolCalls now fullResponse tools) ++ [done_chunk]
  end.

End Chat.

(** The messages of a request, [OllamaMessage]. *)
Module OllamaMessage.
Record t := mk { role : Role; content : string }.
End OllamaMessage.

(** The body of the loop of [convertMessages]: what it pushes for a
    message. *)
Definition convert (msg : Message.t) : list OllamaMessage.t :=
  match Message.role msg with
  | system => []
  | user => [OllamaMessage.mk user (Message.content msg)]
  | tool => [OllamaMessage.mk user ("Tool result: " +:+ Message.content msg)]
  | assistant => [OllamaMessage.mk assistant (Message.content msg)]
  end.

Definition convertMessages (messages : list Message.t) (systemPrompt : string)
  : list OllamaMessage.t :=
  fold_left (λ result msg, result ++ convert msg) messages
    [OllamaMessage.mk system systemPrompt].

(** [s.split(':')[0]] *)
Fixpoint before_colon (s : string) : string :=
  match s with
  | EmptyString => EmptyString
  | String a r =>
      if (JsString.byte a =? 58)%N then EmptyString else String a (before_colon r)
  end.

(** [isModelAvailable], of the names that [listLocalModels] returns. *)
Definition isModelAvailable (localModels : list string) (model : string) : bool :=
  (* Check for exact match or match without tag *)
  existsb (λ m, String.eqb m model
                || String.eqb (before_colon m) model
                || String.eqb (before_colon model) (before_colon m))
    localModels.

End Ollama.

(** ** The agent loop ([src/core/agent.ts]) *)

Module Agent.

(** The callbacks of a run, acting on the world [E] they live in; an
    invocation is also recorded in the trace of the run.  A callback returns
    to the loop: one that throws or ends the process is outside the model. *)
Record AgentCallbacks (E : Type) := mk_callbacks {
  onText : string → E → E;
  onToolCallStart : ToolCall.t → E → E;
  onToolCallEnd : ToolCall.t → string → E → E;
  onError : string → E → E;
  onDone : E → E;
  onPermissionRequest : option (ToolCall.t → E → PromptDecision.t * E) }.
Arguments mk_callbacks {E}.
Arguments onText {E}.
Arguments onToolCallStart {E}.
Arguments onToolCallEnd {E}.
Arguments onError {E}.
Arguments onDone {E}.
Arguments onPermissionRequest {E}.

(** The options of a request.  A provider reads the names and the
    descriptions of the tools and never executes one, so the tools are passed
    as their declarations. *)
Record ChatOptions := mk_options {
  model : option string;
  tools : list (string * string);
  systemPrompt : string }.

Definition declaration {E : Type} (t : Tool.t E) : string * string :=
  (Tool.name t, Tool.description t).

(** A provider answers a request with a stream; the stream is consumed one
    chunk at a time, and waiting for the next chunk is a step of the world. *)
Record LLMProvider (E : Type) := mk_provider {
  name : string;
  defaultModel : string;
  chat : list Message.t → ChatOptions → list (E → StreamChunk.t * E) }.
Arguments mk_provider {E}.
Arguments name {E}.
Arguments defaultModel {E}.
Arguments chat {E}.

Inductive Callback :=
| OnText (text : string)
| OnToolCallStart (toolCall : ToolCall.t)
| OnToolCallEnd (toolCall : ToolCall.t) (result : string)
| OnError (message : string)
| OnDone.

(** What a run does, in order: the requests to the provider, the approval
    prompts and the tool executions, each with the world it starts in; the
    callbacks invoked; and the mark of the report of the iteration cap. *)
Inductive Event (E : Type) :=
| Requested (history : list Message.t) (e : E)
| Asked (toolCall : ToolCall.t) (e : E)
| Executed (toolCall : ToolCall.t) (e : E)
| Called (callback : Callback)
| CapExceeded.
Arguments Requested {E}.
Arguments Asked {E}.
Arguments Executed {E}.
Arguments Called {E}.
Arguments CapExceeded {E}.

(** The fields of an agent that a run does not change. *)
Record Agent (E : Type) := mk_agent {
  provider : LLMProvider E;
  agent_tools : list (Tool.t E);
  config : ThiranConfig.t;
  permissions : Permissions.DefaultPermissionManager;
  workingDirectory : string }.
Arguments mk_agent {E}.
Arguments provider {E}.
Arguments agent_tools {E}.
Arguments config {E}.
Arguments permissions {E}.
Arguments workingDirectory {E}.

(** The history, the world, and the trace of the run so far. *)
Record state (E : Type) := mk_state {
  messages : list Message.t;
  env : E;
  trace : list (Event E) }.
Arguments mk_state {E}.
Arguments messages {E}.
Arguments env {E}.
Arguments trace {E}.

Definition maxIterations : nat := 20.

Definition lf : string := String (ascii_of_N 10) EmptyString.

Definition readOnlyTools : list string := ["read_file"; "glob"; "grep"].
Definition dangerousTools : list string := ["write_file"; "edit_file"; "bash"].

Definition toolNeedsApproval (config : ThiranConfig.t) (toolName : string)
    (args : Json.value) : bool :=
  (* Read operations don't need approval in 'suggest' mode *)
  if bool_decide (ThiranConfig.approvalMode config = SUGGEST)
     && bool_decide (toolName ∈ readOnlyTools)
  then false
  (* Write and execute operations always need approval unless in full-auto *)
  else if bool_decide (toolName ∈ dangerousTools) then true
  else false.

Definition buildSystemPrompt (workingDirectory : string) : string :=
  "You are Thiran, an AI-powered coding assistant running in the terminal.
You help users with software engineering tasks including writing code, debugging, refactoring, and explaining code.

Current working directory: " +:+ workingDirectory +:+ "

IMPORTANT: You have access to tools to interact with the file system. When the user asks about files, code, or the project:
1. Use the read_file tool to read files
2. Use the glob tool to find files by pattern
3. Use the grep tool to search for content
4. Use the bash tool to run commands
5. Use the write_file or edit_file tools to modify files

DO NOT ask the user to provide file paths or content - use your tools to explore and read the file system yourself.

Guidelines:
- Be concise and direct in your responses
- Always read a file before attempting to edit it
- Ask for clarification only when requirements are truly ambiguous
- Prefer editing existing files over creating new ones
- Be careful with destructive operations".

(** The local variables of [getCompletion]: the text and the tool calls
    accumulated, and the assistant messages pushed, each with its content and
    whether it holds the array [toolCalls] itself. *)
Record locals := mk_locals {
  textContent : string;
  toolCalls : list ToolCall.t;
  pushed : list (string * bool) }.

(** How [getCompletion] completes. *)
Inductive completion :=
| Response (finished : bool) (toolCalls : list ToolCall.t)
| Thrown (message : string).

Definition tool_message (content : string) (tc : ToolCall.t) : Message.t :=
  Message.mk tool content (Some (ToolCall.id tc)) None.

(** [`Error: ${result.error}\n${result.output}`] *)
Definition error_content (r : ToolResult.t) : string :=
  "Error: " +:+ default "undefined" (ToolResult.error r) +:+ lf +:+ ToolResult.output r.

(** The content of the tool message after [tool.execute]: the output, the
    error of a result without success, or the failure of an execution that
    threw. *)
Definition result_content (res : execution) : string :=
  match res with
  | Completed result =>
      if ToolResult.success result then ToolResult.output result
      else error_content result
  | Failed errorMessage => "Tool execution failed: " +:+ errorMessage
  end.

Section Run.

Context {E : Type}.
Variable agent : Agent E.
Variable callbacks : AgentCallbacks E.

Definition call (cb : Callback) (act : E → E) (st : state E) : state E :=
  mk_state (messages st) (act (env st)) (trace st ++ [Called cb]).

(** The [for await] loop of [getCompletion] over the chunks still to come;
    an error chunk throws, and what is left of the stream is abandoned. *)
Fixpoint consume (steps : list (E → StreamChunk.t * E)) (l : locals) (st : state E)
  : option string * locals * state E :=
  match steps with
  | [] => (None, l, st)
  | step :: rest =>
      let '(chunk, e) := step (env st) in
      let st := mk_state (messages st) e (trace st) in
      match StreamChunk.type chunk with
      | text =>
          match StreamChunk.content chunk with
          | Some content =>
              if JsString.truthy content then
                consume rest
                  (mk_locals (textContent l +:+ content) (toolCalls l) (pushed l))
                  (call (OnText content) (onText callbacks content) st)
              else consume rest l st
          | None => consume rest l st
          end
      | tool_call =>
          match StreamChunk.toolCall chunk with
          | Some tc =>
              consume rest
                (mk_locals (textContent l) (toolCalls l ++ [tc]) (pushed l))
                (call (OnToolCallStart tc) (onToolCallStart callbacks tc) st)
          | None => consume rest l st
          end
      | error =>
          match StreamChunk.error chunk with
          | Some message => (Some message, l, st)
          | None => consume rest l st
          end
      | done =>
          (* Add assistant message to history *)
          if JsString.truthy (textContent l) || (0 <? length (toolCalls l))%nat
          then consume rest
                 (mk_locals (textContent l) (toolCalls l)
                    (pushed l ++ [(textContent l, (0 <? length (toolCalls l))%nat)]))
                 st
          else consume rest l st
      | tool_call_delta => consume rest l st
      end
  end.

(** The assistant messages pushed by one [getCompletion]; those pushed with
    tool calls share the array, and show all the calls it holds in the end. *)
Definition assistant_messages (l : locals) : list Message.t :=
  map (λ p : string * bool,
         Message.mk assistant p.1 None (if p.2 then Some (toolCalls l) else None))
      (pushed l).

Definition getCompletion (st : state E) : completion * state E :=
  let options :=
    mk_options (ThiranConfig.model (config agent)) (map declaration (agent_tools agent))
      (buildSystemPrompt (workingDirectory agent)) in
  let stream := chat (provider agent) (messages st) options in
  let st := mk_state (messages st) (env st) (trace st ++ [Requested (messages st) (env st)]) in
  let '(thrown, l, st) := consume stream (mk_locals "" [] []) st in
  let st := mk_state (messages st ++ assistant_messages l) (env st) (trace st) in
  match thrown with
  | Some message => (Thrown message, st)
  | None => (Response (length (toolCalls l) =? 0)%nat (toolCalls l), st)
  end.

(** The tool message is pushed, then [onToolCallEnd] is invoked. *)
Definition finish (tc : ToolCall.t) (content : string) (st : state E) : state E :=
  call (OnToolCallEnd tc content) (onToolCallEnd callbacks tc content)
    (mk_state (messages st ++ [tool_message content tc]) (env st) (trace st)).

Definition context : ExecutionContext.t :=
  ExecutionContext.mk (workingDirectory agent) (permissions agent) (config agent).

(** The permission check before a tool runs: whether the call is denied. *)
Definition approval (tool : Tool.t E) (tc : ToolCall.t) (st : state E) : bool * state E :=
  match onPermissionRequest callbacks with
  | Some request =>
      if negb (bool_decide (ThiranConfig.approvalMode (config agent) = FULL_AUTO)) then
        (* Determine if this tool needs approval *)
        if toolNeedsApproval (config agent) (Tool.name tool) (ToolCall.arguments tc) then
          let '(decision, e) := request tc (env st) in
          (negb (PromptDecision.allow decision),
           mk_state (messages st) e (trace st ++ [Asked tc (env st)]))
        else (false, st)
      else (false, st)
  | None => (false, st)
  end.

(** The body of the loop of [executeToolCalls]. *)
Definition dispatch (st : state E) (tc : ToolCall.t) : state E :=
  match find (λ t, String.eqb (Tool.name t) (ToolCall.name tc)) (agent_tools agent) with
  | None => finish tc ("Tool not found: " +:+ ToolCall.name tc) st
  | Some tool' =>
      (* Check permissions before executing tool *)
      let '(denied, st) := approval tool' tc st in
      if denied then finish tc "Tool execution denied by user" st
      else
        let '(res, e) := Tool.execute tool' (ToolCall.arguments tc) context (env st) in
        let st := mk_state (messages st) e (trace st ++ [Executed tc (env st)]) in
        finish tc (result_content res) st
  end.

Definition executeToolCalls (toolCalls : list ToolCall.t) (st : state E) : state E :=
  fold_left dispatch toolCalls st.

(** The [while] loop of [run], with the count of iterations so far; [fuel]
    bounds the number of turns of the loop. *)
Fixpoint loop (fuel : nat) (iterations : nat) (st : state E) : nat * state E :=
  match fuel with
  | 0 => (iterations, st)
  | S fuel' =>
      if (iterations <? maxIterations)%nat then
        let iterations := S iterations in
        match getCompletion st with
        | (Response finished toolCalls, st) =>
            if finished then (iterations, call OnDone (onDone callbacks) st)
            else if (0 <? length toolCalls)%nat
            then loop fuel' iterations (executeToolCalls toolCalls st)
            else (iterations, call OnDone (onDone callbacks) st)
        | (Thrown message, st) =>
            (iterations, call (OnError message) (onError callbacks message) st)
        end
      else (iterations, st)
  end.

(** [run]: the final count of iterations and the final state. *)
Definition run (userMessage : string) (st : state E) : nat * state E :=
  (* Add user message to history *)
  let st := mk_state (messages st ++ [Message.mk user userMessage None None])
              (env st) (trace st) in
  let '(iterations, st) := loop maxIterations 0 st in
  if (maxIterations <=? iterations)%nat then
    (iterations,
     call (OnError "Max iterations reached") (onError callbacks "Max iterations reached")
       (mk_state (messages st) (env st) (trace st ++ [CapExceeded])))
  else (iterations, st).

End Run.

(** The tool calls announced with [onToolCallStart] among some events. *)
Definition announced {E : Type} (events : list (Event E)) : list ToolCall.t :=
  omap (λ ev, match ev with
              | Called (OnToolCallStart tc) => Some tc
              | _ => None
              end) events.

(** [st'] continues the trace of [st] with events that are not the mark of
    the iteration cap. *)
Definition continues {E : Type} (st st' : state E) : Prop :=
  ∃ events, trace st' = trace st ++ events ∧ CapExceeded ∉ events.

(** [getMessages] returns a copy of the history. *)
Definition getMessages {E : Type} (st : state E) : list Message.t := messages st.

Definition clearHistory {E : Type} (st : state E) : state E :=
  mk_state [] (env st) (trace st).

Definition setSystemPrompt {E : Type} (prompt : string) (st : state E) : state E :=
  (* Remove existing system message if present *)
  let messages := filter (λ m, Message.role m ≠ system) (messages st) in
  (* Add new system message at the beginning *)
  mk_state (Message.mk system prompt None None :: messages) (env st) (trace st).

(** The texts shown with [onText] among some events, and the requests to
    the provider among them. *)
Definition shown {E : Type} (events : list (Event E)) : list string :=
  omap (λ ev, match ev with
              | Called (OnText t) => Some t
              | _ => None
              end) events.

Definition is_request {E : Type} (ev : Event E) : bool :=
  match ev with
  | Requested _ _ => true
  | _ => false
  end.

Definition requests {E : Type} (events : list (Event E)) : nat :=
  length (List.filter is_request events).

(** The events of one turn of the loop: the request; the callbacks of the
    stream of the answer; then the end of the run, or the events of the
    dispatch of the calls that the stream has announced. *)
Definition stream_callback {E : Type} (ev : Event E) : Prop :=
  match ev with
  | Called (OnText _) | Called (OnToolCallStart _) => True
  | _ => False
  end.

Definition dispatch_event {E : Type} (agent : Agent E) (callbacks : AgentCallbacks E)
    (proposals : list ToolCall.t) (ev : Event E) : Prop :=
  match ev with
  | Asked tc _ =>
      tc ∈ proposals
      ∧ ThiranConfig.approvalMode (config agent) ≠ FULL_AUTO
      ∧ is_Some (onPermissionRequest callbacks)
      ∧ ToolCall.name tc ∈ dangerousTools
  | Executed tc _ =>
      tc ∈ proposals
      ∧ ∃ tool', tool' ∈ agent_tools agent ∧ Tool.name tool' = ToolCall.name tc
  | Called (OnToolCallEnd tc _) => tc ∈ proposals
  | _ => False
  end.

Definition turn {E : Type} (agent : Agent E) (callbacks : AgentCallbacks E)
    (events : list (Event E)) : Prop :=
  ∃ history e stream rest,
    events = Requested history e :: stream ++ rest
    ∧ Forall stream_callback stream
    ∧ (rest = [Called OnDone]
       ∨ (∃ message, rest = [Called (OnError message)])
       ∨ Forall (dispatch_event agent callbacks (announced stream)) rest).

End Agent.

(** ** The callbacks of the terminal interface ([src/ui/App.tsx]) *)

Module App.

Inductive Status := running | completed | failed.

Module ToolCallState.
Record t := mk { toolCall : ToolCall.t; status : Status; result : option string }.
End ToolCallState.

Inductive BlockType := user_block | assistant_block | system_block.

Module MessageBlock.
Record t := mk {
  id : nat;
  type : BlockType;
  content : string;
  toolCalls : option (list ToolCallState.t) }.
End MessageBlock.

(** The state of the component a run touches: the React state, the refs,
    and what was written to the terminal. *)
Record UiState := mk {
  messages : list MessageBlock.t;
  isProcessing : bool;
  isThinking : bool;
  showInput : bool;
  streamingText : string;
  streamingToolCalls : list ToolCallState.t;
  pendingPermission : option PermissionAction.t;
  currentTextRef : string;
  currentToolCallsRef : list ToolCallState.t;
  cancelledRef : bool;
  messageIdRef : nat;
  written : list string }.

Definition initial : UiState :=
  mk [] false false true "" [] None "" [] false 0 [].

Definition addMessage (type : BlockType) (content : string)
    (toolCalls : option (list ToolCallState.t)) (ui : UiState) : UiState :=
  mk (messages ui ++ [MessageBlock.mk (S (messageIdRef ui)) type content toolCalls])
     (isProcessing ui) (isThinking ui) (showInput ui) (streamingText ui)
     (streamingToolCalls ui) (pendingPermission ui) (currentTextRef ui)
     (currentToolCallsRef ui) (cancelledRef ui) (S (messageIdRef ui)) (written ui).

(** [toolCalls.length > 0 ? [...toolCalls] : undefined] *)
Definition nonempty (l : list ToolCallState.t) : option (list ToolCallState.t) :=
  match l with
  | [] => None
  | _ :: _ => Some l
  end.

(** What [handleSubmit] does before it awaits [agent.run(query, callbacks)]
    for a query that is not a command. *)
Definition beginSubmit (query : string) (ui : UiState) : UiState :=
  addMessage user_block query None
    (mk (messages ui) true true false "" [] (pendingPermission ui) "" [] false
        (messageIdRef ui) (written ui)).

Definition onText (text : string) (ui : UiState) : UiState :=
  if cancelledRef ui then ui
  else mk (messages ui) (isProcessing ui) false (showInput ui)
          (streamingText ui +:+ text) (streamingToolCalls ui) (pendingPermission ui)
          (currentTextRef ui +:+ text) (currentToolCallsRef ui) (cancelledRef ui)
          (messageIdRef ui) (written ui).

Definition onToolCallStart (toolCall : ToolCall.t) (ui : UiState) : UiState :=
  if cancelledRef ui then ui
  else
    let newToolCall := ToolCallState.mk toolCall running None in
    mk (messages ui) (isProcessing ui) false (showInput ui) (streamingText ui)
       (streamingToolCalls ui ++ [newToolCall]) (pendingPermission ui)
       (currentTextRef ui) (currentToolCallsRef ui ++ [newToolCall]) (cancelledRef ui)
       (messageIdRef ui) (written ui).

Definition settle (toolCall : ToolCall.t) (result : string) (tc : ToolCallState.t)
  : ToolCallState.t :=
  let isError := JsString.startsWith result "Error"
                 || JsString.startsWith result "Tool execution denied" in
  if String.eqb (ToolCall.id (ToolCallState.toolCall tc)) (ToolCall.id toolCall)
  then ToolCallState.mk (ToolCallState.toolCall tc)
         (if isError then failed else completed) (Some result)
  else tc.

Definition onToolCallEnd (toolCall : ToolCall.t) (result : string) (ui : UiState) : UiState :=
  if cancelledRef ui then ui
  else mk (messages ui) (isProcessing ui) (isThinking ui) (showInput ui) (streamingText ui)
          (map (settle toolCall result) (streamingToolCalls ui)) (pendingPermission ui)
          (currentTextRef ui) (map (settle toolCall result) (currentToolCallsRef ui))
          (cancelledRef ui) (messageIdRef ui) (written ui).

Definition onError (message : string) (ui : UiState) : UiState :=
  if cancelledRef ui then ui
  else mk (messages ui) false false true
          (streamingText ui +:+ Agent.lf +:+ Agent.lf +:+ "Error: " +:+ message)
          (streamingToolCalls ui) (pendingPermission ui) (currentTextRef ui)
          (currentToolCallsRef ui) (cancelledRef ui) (messageIdRef ui) (written ui).

Definition onDone (ui : UiState) : UiState :=
  if cancelledRef ui then ui
  else
    (* Save to message history *)
    let finalText := currentTextRef ui in
    let finalToolCalls := currentToolCallsRef ui in
    let ui :=
      if JsString.truthy finalText || (0 <? length finalToolCalls)%nat
      then addMessage assistant_block finalText (nonempty finalToolCalls) ui
      else ui in
    (* Clear streaming state *)
    mk (messages ui) false false true "" [] (pendingPermission ui) (currentTextRef ui)
       (currentToolCallsRef ui) (cancelledRef ui) (messageIdRef ui) (written ui).

(** [toolCall.arguments.path as string | undefined] *)
Definition string_argument (tc : ToolCall.t) (key : string) : option string :=
  match Json.prop (ToolCall.arguments tc) key with
  | Some (Some (Json.JStr s)) => Some s
  | _ => None
  end.

(** The action the permission prompt is shown for. *)
Definition permissionAction (toolCall : ToolCall.t) : PermissionAction.t :=
  PermissionAction.mk
    (if String.eqb (ToolCall.name toolCall) "bash" then execute else write)
    (string_argument toolCall "path")
    (string_argument toolCall "command")
    None
    (Some (ToolCall.name toolCall))
    (Some (ToolCall.arguments toolCall)).

Definition setPendingPermission (p : option PermissionAction.t) (ui : UiState) : UiState :=
  mk (messages ui) (isProcessing ui) (isThinking ui) (showInput ui) (streamingText ui)
     (streamingToolCalls ui) p (currentTextRef ui) (currentToolCallsRef ui)
     (cancelledRef ui) (messageIdRef ui) (written ui).

(** [cancelOperation], run when Escape or Ctrl+C is pressed. *)
Definition cancelOperation (ui : UiState) : UiState :=
  if isProcessing ui then
    (* Save any partial response *)
    let partialText := currentTextRef ui in
    let partialToolCalls := currentToolCallsRef ui in
    let ui :=
      mk (messages ui) (isProcessing ui) (isThinking ui) (showInput ui) (streamingText ui)
         (streamingToolCalls ui) (pendingPermission ui) (currentTextRef ui)
         (currentToolCallsRef ui) true (messageIdRef ui)
         (written ui ++ [Agent.lf +:+ "(cancelled)" +:+ Agent.lf +:+ Agent.lf]) in
    let ui :=
      if JsString.truthy partialText || (0 <? length partialToolCalls)%nat
      then addMessage assistant_block
             (partialText +:+ Agent.lf +:+ Agent.lf +:+ "(cancelled)")
             (nonempty partialToolCalls) ui
      else ui in
    mk (messages ui) false false true (streamingText ui) (streamingToolCalls ui)
       (pendingPermission ui) (currentTextRef ui) (currentToolCallsRef ui)
       (cancelledRef ui) (messageIdRef ui) (written ui)
  else ui.

(** The callback of [handleSubmit] that a call of the agent reaches. *)
Definition react (cb : Agent.Callback) : UiState → UiState :=
  match cb with
  | Agent.OnText text_ => onText text_
  | Agent.OnToolCallStart toolCall => onToolCallStart toolCall
  | Agent.OnToolCallEnd toolCall result => onToolCallEnd toolCall result
  | Agent.OnError message => onError message
  | Agent.OnDone => onDone
  end.

(** The texts and the tool calls among some calls of the agent. *)
Definition streamed (cbs : list Agent.Callback) : list string :=
  omap (λ cb, match cb with
              | Agent.OnText t => Some t
              | _ => None
              end) cbs.

Definition started (cbs : list Agent.Callback) : list ToolCall.t :=
  omap (λ cb, match cb with
              | Agent.OnToolCallStart tc => Some tc
              | _ => None
              end) cbs.

Section Session.

(** The world outside the interface, and its user: whether Escape is
    pressed while the agent awaits and the world has become [w]; and the
    answer given to a permission prompt. *)
Context {W : Type}.
Variable escape : W → bool.
Variable answer : PermissionAction.t → W → PromptDecision.t * W.

(** An awaited operation of the world, during which the user may cancel. *)
Definition await {X : Type} (op : W → X * W) (e : UiState * W) : X * (UiState * W) :=
  let '(x, w) := op e.2 in
  (x, (if escape w then cancelOperation e.1 else e.1, w)).

Definition onUi (f : UiState → UiState) (e : UiState * W) : UiState * W := (f e.1, e.2).

(** The callbacks [handleSubmit] passes to [agent.run]. *)
Definition callbacks : Agent.AgentCallbacks (UiState * W) :=
  Agent.mk_callbacks
    (λ text_, onUi (onText text_))
    (λ toolCall, onUi (onToolCallStart toolCall))
    (λ toolCall result, onUi (onToolCallEnd toolCall result))
    (λ message, onUi (onError message))
    (onUi onDone)
    (Some (λ toolCall e,
             let action := permissionAction toolCall in
             let '(decision, e) :=
               await (answer action) (setPendingPermission (Some action) e.1, e.2) in
             (decision, (setPendingPermission None e.1, e.2)))).

(** A tool and a provider of the world [W], as the session sees them. *)
Definition session_tool (t : Tool.t W) : Tool.t (UiState * W) :=
  Tool.mk (Tool.name t) (Tool.description t)
    (λ args ctx, await (Tool.execute t args ctx)).

Definition session_provider (p : Agent.LLMProvider W) : Agent.LLMProvider (UiState * W) :=
  Agent.mk_provider (Agent.name p) (Agent.defaultModel p)
    (λ history options, map await (Agent.chat p history options)).

(** The agent of a session over an agent of the world. *)
Definition session_agent (a : Agent.Agent W) : Agent.Agent (UiState * W) :=
  Agent.mk_agent (session_provider (Agent.provider a))
    (map session_tool (Agent.agent_tools a))
    (Agent.config a) (Agent.permissions a) (Agent.workingDirectory a).

End Session.

(** An event of a session as the world sees it, without the interface. *)
Definition world_event {W : Type} (ev : Agent.Event (UiState * W)) : Agent.Event W :=
  match ev with
  | Agent.Requested history e => Agent.Requested history e.2
  | Agent.Asked toolCall e => Agent.Asked toolCall e.2
  | Agent.Executed toolCall e => Agent.Executed toolCall e.2
  | Agent.Called cb => Agent.Called cb
  | Agent.CapExceeded => Agent.CapExceeded
  end.

(** Two states of a session that the agent cannot tell apart: the same
    history, the same world, and the same operations so far. *)
Definition same_for_agent {W : Type} (st1 st2 : Agent.state (UiState * W)) : Prop :=
  Agent.messages st1 = Agent.messages st2
  ∧ (Agent.env st1).2 = (Agent.env st2).2
  ∧ map world_event (Agent.trace st1) = map world_event (Agent.trace st2).

End App.

(** ** The results of a tool ([src/tools/base.ts]) *)

Module BaseTool.

Definition success (output : string) : ToolResult.t := ToolResult.mk true output None.
Definition error (message : string) : ToolResult.t := ToolResult.mk false "" (Some message).

End BaseTool.

(** ** The tools of external servers ([src/unnamed/part_011], the wrapper of
    the MCP tools, and [src/tools/index.ts]) *)

Module MCP.

Module MCPToolDefinition.
Record t := mk { serverName : string; name : string; description : string }.
End MCPToolDefinition.

(** How [mcpManager.callTool] completes: with the content and the error flag
    of a result, or by throwing an error with a message. *)
Inductive called :=
| Resolved (content : string) (isError : bool)
| Rejected (message : string).

Section Wrapper.

Context {E : Type}.
Variable callTool : string → string → Json.value → E → called * E.

(** [new MCPToolWrapper(toolDef, mcpManager)]: the name, the description
    and [execute]. *)
Definition MCPToolWrapper (toolDef : MCPToolDefinition.t) : Tool.t E :=
  Tool.mk
    (* Prefix tool name to avoid collisions: mcp__{serverName}__{toolName} *)
    ("mcp__" +:+ MCPToolDefinition.serverName toolDef +:+ "__"
     +:+ MCPToolDefinition.name toolDef)
    ("[MCP: " +:+ MCPToolDefinition.serverName toolDef +:+ "] "
     +:+ MCPToolDefinition.description toolDef)
    (λ params _ e,
       let '(result, e) :=
         callTool (MCPToolDefinition.serverName toolDef) (MCPToolDefinition.name toolDef)
           params e in
       (Completed match result with
                  | Resolved content isError =>
                      if isError then BaseTool.error content else BaseTool.success content
                  | Rejected message => BaseTool.error message
                  end,
        e)).

(** [createMCPTools], of the tools that [getMCPTools] returns. *)
Definition createMCPTools (toolDefs : list MCPToolDefinition.t) : list (Tool.t E) :=
  map MCPToolWrapper toolDefs.

(** [createToolsWithMCP], of the tools that [createTools] returns. *)
Definition createToolsWithMCP (builtInTools : list (Tool.t E))
    (toolDefs : list MCPToolDefinition.t) : list (Tool.t E) :=
  let mcpTools := createMCPTools toolDefs in
  builtInTools ++ mcpTools.

End Wrapper.

(** The names of the tools of [createTools]. *)
Definition builtIn : list string :=
  ["read_file"; "write_file"; "edit_file"; "bash"; "glob"; "grep"].

End MCP.

(** ** The edit tool ([src/unnamed/part_003], the tool [edit_file]) *)

Module EditFile.

Definition success := BaseTool.success.
Definition error := BaseTool.error.

(** [countOccurrences]; [None] stands for a loop that does not end, which
    is what an empty [substr] gives: [indexOf] then returns [pos], and [pos]
    stays where it is. *)
Definition countOccurrences (str substr : string) : option nat :=
  if JsString.truthy substr then Some (JsString.count_from substr 0 str) else None.

Definition findFuzzyMatch (content searchStr : string) : option string :=
  (* Simple fuzzy matching: try to find a similar string *)
  let searchLines := JsString.split JsString.lf (JsString.trim searchStr) in
  let contentLines := JsString.split JsString.lf content in
  (* Look for lines that match the first line of the search string *)
  let firstLine := JsString.trim (hd EmptyString searchLines) in
  if (JsString.length firstLine <? 10)%nat then None
  else
    match list_find (λ line, JsString.includes line firstLine = true) contentLines with
    | Some (i, _) =>
        (* Found a potential match, extract context *)
        let start := Nat.max 0 i in
        let end_ := Nat.min (length contentLines) (i + length searchLines + 2) in
        Some (JsString.join_with JsString.lf (drop start (take end_ contentLines)))
    | None => None
    end.

(** The summary of the change in the number of lines. *)
Definition lineDiffStr (oldString newString : string) : string :=
  let oldLines := Z.of_nat (length (JsString.split JsString.lf oldString)) in
  let newLines := Z.of_nat (length (JsString.split JsString.lf newString)) in
  let lineDiff := (newLines - oldLines)%Z in
  if (lineDiff =? 0)%Z then ""
  else if (0 <? lineDiff)%Z then " (+" +:+ pretty lineDiff +:+ " lines)"
  else " (" +:+ pretty lineDiff +:+ " lines)".

Section Execute.

(** [path.isAbsolute(filePath) ? filePath : path.resolve(workingDirectory, filePath)],
    of the working directory and the path. *)
Variable absolute : string → string → string.

(** [execute] for parameters that are strings, as the schema of the tool
    asks, on the files of the disk: the text of each file that can be read,
    by its absolute path; a write is taken to succeed.  The result is [None]
    when the call does not return. *)
Definition execute (filePath oldString newString : string) (replaceAll : bool)
    (workingDirectory : string) (files : gmap string string)
  : option (ToolResult.t * gmap string string) :=
  let lf := JsString.lf in
  (* Resolve path relative to working directory *)
  let absolutePath := absolute workingDirectory filePath in
  (* Read current file content *)
  match files !! absolutePath with
  | None => Some (error ("File not found: " +:+ absolutePath), files)
  | Some content =>
      (* Count occurrences *)
      occurrences ← countOccurrences content oldString;
      if (occurrences =? 0)%nat then
        (* Try fuzzy matching to provide helpful feedback *)
        match findFuzzyMatch content oldString with
        | Some fuzzyMatch =>
            if JsString.truthy fuzzyMatch
            then Some (error ("String not found in file. Did you mean:" +:+ lf
                              +:+ fuzzyMatch +:+ lf +:+ lf
                              +:+ "Make sure to read the file first and copy the exact content."),
                       files)
            else Some (error "String not found in file. Make sure to read the file first and use the exact content including whitespace.",
                       files)
        | None =>
            Some (error "String not found in file. Make sure to read the file first and use the exact content including whitespace.",
                  files)
        end
      else if (1 <? occurrences)%nat && negb replaceAll then
        Some (error ("Found " +:+ pretty occurrences
                     +:+ " occurrences of the string. Use replace_all: true to replace all, or provide more context to make the match unique."),
              files)
      else
        (* Perform replacement *)
        let '(newContent, replacements) :=
          if replaceAll
          then (JsString.join_with newString (JsString.split oldString content), occurrences)
          else (JsString.replace content oldString newString, 1) in
        (* Write updated content *)
        let files := <[absolutePath := newContent]> files in
        (* Generate diff summary *)
        Some (success ("Edited " +:+ absolutePath +:+ ": " +:+ pretty replacements
                       +:+ " replacement(s)" +:+ lineDiffStr oldString newString),
              files)
  end.

End Execute.

End EditFile.

(** ** Concrete runs *)

Module Scenarios.
Import Agent.

(** A text written with an apostrophe for each of its double quotes. *)
Fixpoint quoted (s : string) : string :=
  match s with
  | EmptyString => EmptyString
  | String a r =>
      String (if (JsString.byte a =? 39)%N then Json.quote else a) (quoted r)
  end.

Definition config_of (mode : ApprovalMode) : ThiranConfig.t :=
  ThiranConfig.mk "mock" (Some "mock-model") mode false 100000 [] [].

Definition agent_of {E : Type} (p : LLMProvider E) (tools : list (Tool.t E))
    (mode : ApprovalMode) : Agent E :=
  mk_agent p tools (config_of mode) (Permissions.new mode "/work") "/work".

(** A chunk that arrives without a change of the world. *)
Definition arrives {E : Type} (c : StreamChunk.t) : E → StreamChunk.t * E := λ e, (c, e).

(** A tool that returns [output] and leaves the world as it is. *)
Definition constant_tool {E : Type} (name output : string) : Tool.t E :=
  Tool.mk name "" (λ _ _ e, (Completed (ToolResult.mk true output None), e)).

(** A tool whose [execute] throws [new Error(message)]. *)
Definition throwing_tool {E : Type} (name message : string) : Tool.t E :=
  Tool.mk name "" (λ _ _ e, (Failed message, e)).

(** Callbacks that do nothing, with the approval callback [request]. *)
Definition silent {E : Type} (request : option (ToolCall.t → E → PromptDecision.t * E))
  : AgentCallbacks E :=
  mk_callbacks (λ _ e, e) (λ _ e, e) (λ _ _ e, e) (λ _ e, e) (λ e, e) request.

Definition deny {E : Type} : ToolCall.t → E → PromptDecision.t * E :=
  λ _ e, (PromptDecision.mk false false, e).

Definition tool_messages (history : list Message.t) : nat :=
  length (filter (λ m, Message.role m = tool) history).

Definition glob_call (k : nat) : ToolCall.t :=
  ToolCall.mk ("call_" +:+ pretty k) "glob" (Json.JObj [("pattern", Json.JStr "*.ts")]).

(** A model that proposes one [glob] call in each of its first [n] turns and
    answers in plain text in the next. *)
Definition converges_after (n : nat) : LLMProvider unit :=
  mk_provider "mock" "mock-model"
    (λ history _,
       if (tool_messages history <? n)%nat
       then [arrives (tool_call_chunk (glob_call (tool_messages history)));
             arrives done_chunk]
       else [arrives (text_chunk "Here are the files."); arrives done_chunk]).

(** A model that proposes one [glob] call in each of its first [n] turns;
    the request of the next turn fails. *)
Definition fails_after (n : nat) : LLMProvider unit :=
  mk_provider "mock" "mock-model"
    (λ history _,
       if (tool_messages history <? n)%nat
       then [arrives (tool_call_chunk (glob_call (tool_messages history)));
             arrives done_chunk]
       else [arrives (error_chunk "429 rate limit exceeded")]).

Definition start {E : Type} (e : E) : state E := mk_state [] e [].

(** The run of the agent of [converges_after n] on one user message. *)
Definition converging_run (n : nat) : nat * state unit :=
  run (agent_of (converges_after n) [constant_tool "glob" "a.ts"] FULL_AUTO)
    (silent None) "list the files" (start tt).

Definition failing_run (n : nat) : nat * state unit :=
  run (agent_of (fails_after n) [constant_tool "glob" "a.ts"] FULL_AUTO)
    (silent None) "list the files" (start tt).

Definition callbacks_of {E : Type} (tr : list (Event E)) : list Callback :=
  omap (λ ev, match ev with Called cb => Some cb | _ => None end) tr.

(** [web_fetch] and a tool of an external server, proposed in suggest
    mode, with an approval callback. *)
Definition fetch_call : ToolCall.t :=
  ToolCall.mk "call_1" "web_fetch" (Json.JObj [("url", Json.JStr "https://example.com")]).

Definition external_call : ToolCall.t :=
  ToolCall.mk "call_2" "mcp__files__delete_file" (Json.JObj [("path", Json.JStr "/tmp/x")]).

Definition fetch_agent : Agent unit :=
  agent_of (mk_provider "mock" "mock-model" (λ _ _, []))
    [constant_tool "read_file" "text"; constant_tool "web_fetch" "<html>";
     constant_tool "mcp__files__delete_file" "deleted"] SUGGEST.

(** [bash] with [rm -rf /tmp/x] proposed in suggest mode; the approval
    callback answers [{ allow: false }]. *)
Definition rm_call : ToolCall.t :=
  ToolCall.mk "call_1" "bash" (Json.JObj [("command", Json.JStr "rm -rf /tmp/x")]).

Definition ghost_call : ToolCall.t :=
  ToolCall.mk "call_2" "delete_universe" (Json.JObj []).

Definition grep_call : ToolCall.t :=
  ToolCall.mk "call_3" "grep" (Json.JObj [("pattern", Json.JStr "x")]).

Definition proposes (calls : list ToolCall.t) : LLMProvider unit :=
  mk_provider "mock" "mock-model"
    (λ history _,
       if (tool_messages history =? 0)%nat
       then map (λ tc, arrives (tool_call_chunk tc)) calls ++ [arrives done_chunk]
       else [arrives (text_chunk "Understood."); arrives done_chunk]).

Definition failing_agent : Agent unit :=
  agent_of (proposes [rm_call; ghost_call; grep_call])
    [constant_tool "bash" ""; throwing_tool "grep" "EACCES: permission denied"] SUGGEST.

(** An OpenAI response cut at the token limit, whose tool call carries
    arguments that are not JSON, and the same for Anthropic. *)
Definition malformed_openai : VendorStream.t OpenAI.Chunk.t :=
  VendorStream.mk
    [OpenAI.Chunk.mk
       [OpenAI.Choice.mk
          (Some (OpenAI.Delta.mk None
             (Some [OpenAI.ToolCallDelta.mk 0 (Some "call_1")
                      (Some (OpenAI.FunctionDelta.mk (Some "read_file")
                               (Some (quoted "{'file_path': "))))])))
          (Some "length")]]
    None.

Definition malformed_anthropic : VendorStream.t Anthropic.Event :=
  VendorStream.mk
    [Anthropic.content_block_start (Anthropic.tool_use "toolu_1" "read_file");
     Anthropic.content_block_delta (Anthropic.input_json_delta (quoted "{'file_path': "));
     Anthropic.content_block_stop;
     Anthropic.message_stop]
    None.

(** A well-formed call, delivered in two fragments. *)
Definition fragmented_openai : VendorStream.t OpenAI.Chunk.t :=
  VendorStream.mk
    [OpenAI.Chunk.mk
       [OpenAI.Choice.mk
          (Some (OpenAI.Delta.mk None
             (Some [OpenAI.ToolCallDelta.mk 0 (Some "call_1")
                      (Some (OpenAI.FunctionDelta.mk (Some "read_file")
                               (Some (quoted "{'file_path':"))))])))
          None];
     OpenAI.Chunk.mk
       [OpenAI.Choice.mk
          (Some (OpenAI.Delta.mk None
             (Some [OpenAI.ToolCallDelta.mk 0 None
                      (Some (OpenAI.FunctionDelta.mk None (Some (quoted "'a.txt'}"))))])))
          (Some "tool_calls")]]
    None.

(** A reply with two fenced blocks, one for a registered tool and one for a
    tool that does not exist. *)
Definition two_blocks : string :=
  "Let me look at the file." +:+ lf
  +:+ "```tool" +:+ lf
  +:+ quoted "{'tool': 'read_file', 'arguments': {'file_path': 'a.txt'}}" +:+ lf
  +:+ "```" +:+ lf
  +:+ "Then I will clean up." +:+ lf
  +:+ "```tool" +:+ lf
  +:+ quoted "{'tool': 'delete_universe', 'arguments': {}}" +:+ lf
  +:+ "```" +:+ lf.

(** A reply whose first block is not JSON. *)
Definition broken_block_first : string :=
  "```tool" +:+ lf +:+ "{tool: read_file}" +:+ lf +:+ "```" +:+ lf
  +:+ (quoted "<function=glob>{'pattern': '*.ts'}</function>").

Definition registered : list (Tool.t unit) :=
  [constant_tool "read_file" "text"; constant_tool "glob" "a.ts"].

(** Cancellation in the middle of a dispatch: the world counts the
    operations awaited so far, the model proposes two calls, and Escape is
    pressed while the first of them runs. *)
Definition ticking (c : StreamChunk.t) : nat → StreamChunk.t * nat := λ w, (c, S w).

Definition ticking_tool (name output : string) : Tool.t nat :=
  Tool.mk name "" (λ _ _ w, (Completed (ToolResult.mk true output None), S w)).

Definition first_call : ToolCall.t :=
  ToolCall.mk "call_1" "glob" (Json.JObj [("pattern", Json.JStr "*.ts")]).
Definition second_call : ToolCall.t :=
  ToolCall.mk "call_2" "grep" (Json.JObj [("pattern", Json.JStr "TODO")]).

Definition two_calls : LLMProvider nat :=
  mk_provider "mock" "mock-model"
    (λ history _,
       if (tool_messages history =? 0)%nat
       then [ticking (tool_call_chunk first_call); ticking (tool_call_chunk second_call);
             ticking done_chunk]
       else [ticking (text_chunk "Done."); ticking done_chunk]).

Definition world_agent : Agent nat :=
  agent_of two_calls [ticking_tool "glob" "a.ts"; ticking_tool "grep" "a.ts:1:TODO"] SUGGEST.

(** Escape is pressed during the fourth awaited operation, the execution
    of [first_call]. *)
Definition escape_during_first : nat → bool := λ w, (w =? 4)%nat.

Definition never : nat → bool := λ _, false.

Definition user_allows : PermissionAction.t → nat → PromptDecision.t * nat :=
  λ _ w, (PromptDecision.mk true false, S w).

Definition cancelled_run (escape : nat → bool) : nat * state (App.UiState * nat) :=
  run (App.session_agent escape world_agent) (App.callbacks escape user_allows)
    "find the TODOs" (start (App.beginSubmit "find the TODOs" App.initial, 0)).

(** Whether the interface is cancelled when an operation of the agent
    starts. *)
Definition starts_cancelled {W : Type} (ev : Event (App.UiState * W)) : bool :=
  match ev with
  | Requested _ e | Asked _ e | Executed _ e => App.cancelledRef e.1
  | _ => false
  end.

(** The absolute path of the examples, whose relative paths have no dots. *)
Definition absolute (workingDirectory filePath : string) : string :=
  if String.prefix "/" filePath then filePath
  else workingDirectory +:+ "/" +:+ filePath.

(** A disk with one file. *)
Definition disk : gmap string string :=
  {[ "/work/greet.ts" :=
       "const a = hello();" +:+ lf +:+ "const b = hello();" +:+ lf +:+ "export { a, b };" ]}.

(** [new URL(u).hostname] for the URLs of the examples, which are written
    [https://], a host name in lower case, [/] and a path; every other text
    is taken not to parse. *)
Definition hostname (u : string) : option string :=
  if String.prefix "https://" u
  then fst <$> JsString.split_first "/" (JsString.string_drop 8 u)
  else None.

End Scenarios.

(** * Properties *)

(** ** Properties of the permission gate *)

Module PermissionsFacts.
Import Permissions.

Section Facts.
Variable promptFn : PermissionAction.t → PromptDecision.t.
Variable URL_hostname : string → option string.

#[local] Abbreviation checkPermission := (checkPermission promptFn URL_hostname).

(** What [isPathAllowed] decides. *)
Lemma isPathAllowed_spec (m : DefaultPermissionManager) (p : string) :
  isPathAllowed m p = true ↔
    p ∈ allowedPaths m
    ∨ JsString.startsWith p (workingDirectory m) = true
    ∨ ∃ a, a ∈ allowedPaths m ∧ JsString.startsWith p (a +:+ "/") = true.
Proof.
  unfold isPathAllowed. case_bool_decide as Hin.
  { split; auto. }
  destruct (JsString.startsWith p (workingDirectory m)) eqn:Hwd.
  { split; auto. }
  rewrite existsb_exists. split.
  - intros (a & Ha & Hp). right. right. exists a. split; [|done].
    apply elem_of_elements, list_elem_of_In, Ha.
  - intros [H|[H|(a & Ha & Hp)]]; [done|done|].
    exists a. split; [|done]. apply list_elem_of_In, elem_of_elements, Ha.
Qed.

(** An entry of the allow-list matches at a directory boundary only: it
    grants [/work/file.txt] and leaves [/workshop/file.txt] to the prompt. *)
Lemma allow_list_entry_respects_boundary :
  let m := addToAllowList URL_hostname (new SUGGEST "/home/u") (file_action file_read "/work") in
  prompted (checkPermission m (file_action file_read "/work/file.txt")) = []
  ∧ result (checkPermission m (file_action file_read "/work/file.txt"))
    = Returned granted_result
  ∧ prompted (checkPermission m (file_action file_read "/workshop/file.txt"))
    = [prompt_action file_read (Some "/workshop/file.txt") None None].
Proof. vm_compute. auto. Qed.

(** C1, on the code: with working directory [/work] the request for
    [/workshop/file.txt] is granted without a prompt, by the plain
    [startsWith] test on the working directory; the loop over the allow-list,
    which appends the separator, does not match it. *)
Theorem working_directory_prefix_crosses_boundary :
  let m := new SUGGEST "/work" in
  let o := checkPermission m (file_action file_read "/workshop/file.txt") in
  result o = Returned granted_result
  ∧ prompted o = []
  ∧ JsString.startsWith "/workshop/file.txt" (workingDirectory m) = true
  ∧ existsb (λ allowedPath, JsString.startsWith "/workshop/file.txt" (allowedPath +:+ "/"))
      (elements (allowedPaths m)) = false.
Proof. vm_compute. auto. Qed.

(** Outside full-auto mode the two branches of [checkFileWrite] act as the
    single condition. *)
Lemma checkFileWrite_one_branch (m : DefaultPermissionManager) (p : string) :
  approvalMode m ≠ FULL_AUTO →
  checkFileWrite promptFn m p = checkWrite_spec promptFn m p.
Proof.
  intros Hmode. unfold checkFileWrite, checkWrite_spec, write_granted_without_prompt.
  destruct (approvalMode m); [| |done]; simpl; destruct (isPathAllowed m p); reflexivity.
Qed.

(** C9: for a write or an edit, [checkPermission] is the single-condition
    check: it grants without consulting the prompt exactly when the mode is
    full-auto, or auto-edit with the path already allowed, and consults the
    prompt in every other case. *)
Theorem checkPermission_write_refines_spec
    (m : DefaultPermissionManager) (a : PermissionAction.t) (p : string) :
  PermissionAction.type a = file_write ∨ PermissionAction.type a = file_edit →
  PermissionAction.path a = Some p →
  let o := checkPermission m a in
  let ask := prompt_action file_write (Some p) None None in
  o = checkWrite_spec promptFn m p
  ∧ (result o = Returned granted_result ∧ prompted o = []
     ↔ approvalMode m = FULL_AUTO
       ∨ (approvalMode m = AUTO_EDIT ∧ isPathAllowed m p = true))
  ∧ (¬ (approvalMode m = FULL_AUTO
        ∨ (approvalMode m = AUTO_EDIT ∧ isPathAllowed m p = true)) →
     prompted o = [ask] ∧ result o = Returned (decision_result (promptFn ask))).
Proof.
  intros Hty Hpath o ask.
  assert (Ho : o = checkWrite_spec promptFn m p).
  { subst o. unfold checkPermission, checkWrite_spec, write_granted_without_prompt.
    destruct Hty as [-> | ->]; rewrite Hpath; simpl; unfold checkFileWrite;
      destruct (approvalMode m); simpl; destruct (isPathAllowed m p); reflexivity. }
  split; [exact Ho|]. rewrite Ho.
  unfold checkWrite_spec, write_granted_without_prompt.
  destruct (approvalMode m); simpl; destruct (isPathAllowed m p); simpl;
    (split; [split; [intros [_ ?] | intros [?|[? ?]]]; try done; auto | ]);
    try (intros Hn; exfalso; apply Hn; auto; fail); auto.
Qed.


End Facts.

(** An edit under the working directory in auto-edit mode is granted
    without a prompt; the same edit in suggest mode is put to the prompt. *)
Lemma checkPermission_write_refines_spec_witness :
  let a := file_action file_edit "/work/a.txt" in
  let ask := prompt_action file_write (Some "/work/a.txt") None None in
  let granted := checkPermission always_deny (λ _, None) (new AUTO_EDIT "/work") a in
  let asked := checkPermission always_deny (λ _, None) (new SUGGEST "/work") a in
  (result granted = Returned granted_result ∧ prompted granted = [])
  ∧ prompted asked = [ask]
  ∧ result asked = Returned (decision_result (always_deny ask)).
Proof.
  intros a ask granted asked.
  destruct (checkPermission_write_refines_spec always_deny (λ _, None)
              (new AUTO_EDIT "/work") a "/work/a.txt")
    as (_ & Hiff & _); [right; reflexivity | reflexivity |].
  destruct (checkPermission_write_refines_spec always_deny (λ _, None)
              (new SUGGEST "/work") a "/work/a.txt")
    as (_ & _ & Hask); [right; reflexivity | reflexivity |].
  split.
  - apply Hiff. right. split; reflexivity.
  - apply Hask. intros [Hfull | [Hauto _]]; discriminate.
Defined.


End PermissionsFacts.

(** ** Properties of the provider adapters *)

Module ProviderFacts.
Import Scenarios.

(** A payload that does not parse is reported as an error chunk. *)
Lemma unparsable_arguments_are_reported (id name input : string) :
  Json.parse (if JsString.truthy input then input else "{}") = None →
  completed_tool_call id name input
  = error_chunk ("Failed to parse tool arguments: " +:+ input).
Proof. intros H. unfold completed_tool_call. rewrite H. reflexivity. Qed.

(** A failure of the request or of the iteration ends the stream with its
    error. *)
Lemma failure_ends_the_stream (events : list OpenAI.Chunk.t) (message : string) :
  last (OpenAI.chat (VendorStream.mk events (Some message))) = Some (error_chunk message).
Proof.
  unfold OpenAI.chat. simpl. destruct (fold_left _ _ _) as [m out].
  apply last_snoc.
Qed.

(** A call whose arguments arrive in two fragments is emitted once, with
    the arguments of the whole payload, and the stream ends with [done]. *)
Lemma fragments_make_one_tool_call :
  OpenAI.chat fragmented_openai =
    [tool_call_delta_chunk (quoted "{'file_path':");
     tool_call_delta_chunk (quoted "'a.txt'}");
     tool_call_chunk
       (ToolCall.mk "call_1" "read_file" (Json.JObj [("file_path", Json.JStr "a.txt")]));
     done_chunk]
  ∧ ends_with_one_terminal (OpenAI.chat fragmented_openai) = true.
Proof. vm_compute. auto. Qed.

(** C4, on the code: when the arguments of a tool call are not JSON, the
    OpenAI adapter and the Anthropic adapter report the error and go on to
    emit [done]: the stream holds both, and does not end with the error. *)
Theorem parse_failure_is_followed_by_done :
  OpenAI.chat malformed_openai =
    [tool_call_delta_chunk (quoted "{'file_path': ");
     error_chunk (quoted "Failed to parse tool arguments: {'file_path': ");
     done_chunk]
  ∧ ends_with_one_terminal (OpenAI.chat malformed_openai) = false
  ∧ Anthropic.chat malformed_anthropic =
    [tool_call_delta_chunk (quoted "{'file_path': ");
     error_chunk (quoted "Failed to parse tool arguments: {'file_path': ");
     done_chunk]
  ∧ ends_with_one_terminal (Anthropic.chat malformed_anthropic) = false.
Proof. vm_compute. auto. Qed.

End ProviderFacts.

(** ** Properties of the free-text extraction *)

Module OllamaFacts.
Import Ollama Scenarios.

(** *** Searching a text *)

Lemma split_first_unfold (needle s : string) :
  JsString.split_first needle s =
    if String.prefix needle s
    then Some (EmptyString, JsString.string_drop (String.length needle) s)
    else match s with
         | EmptyString => None
         | String a r =>
             match JsString.split_first needle r with
             | Some (before, after) => Some (String a before, after)
             | None => None
             end
         end.
Proof. destruct s; reflexivity. Qed.

Lemma split_first_none_prefix (needle s : string) :
  JsString.split_first needle s = None → String.prefix needle s = false.
Proof.
  rewrite split_first_unfold. destruct (String.prefix needle s); [discriminate|reflexivity].
Qed.

Lemma split_first_none_tail (needle : string) (a : ascii) (r : string) :
  JsString.split_first needle (String a r) = None → JsString.split_first needle r = None.
Proof.
  rewrite split_first_unfold. destruct (String.prefix needle (String a r)); [discriminate|].
  destruct (JsString.split_first needle r) as [[? ?]|]; [discriminate|reflexivity].
Qed.

Lemma split_first_none_drop (needle s : string) (k : nat) :
  JsString.split_first needle s = None →
  JsString.split_first needle (JsString.string_drop k s) = None.
Proof.
  revert s. induction k as [|k IH]; intros s H; [destruct s; exact H|].
  destruct s as [|a r]; [exact H|]. simpl. apply IH. eapply split_first_none_tail, H.
Qed.

Lemma string_drop_drop (j k : nat) (s : string) :
  JsString.string_drop k (JsString.string_drop j s) = JsString.string_drop (j + k) s.
Proof.
  revert s. induction j as [|j IH]; intros s; [destruct s; reflexivity|].
  destruct s as [|a r]; [destruct k; reflexivity|]. simpl. apply IH.
Qed.

(** What follows a run of word characters is an end of the text. *)
Lemma word_run_rest (s : string) : ∃ k, (word_run s).2 = JsString.string_drop k s.
Proof.
  induction s as [|a r [k IH]]; [exists 0; reflexivity|]. simpl.
  destruct (is_word_char a); [|exists 0; reflexivity].
  destruct (word_run r) as [w rest]. simpl in *. exists (S k). exact IH.
Qed.

Lemma prefix_app_l (p q s : string) :
  String.prefix (p +:+ q) s = true → String.prefix p s = true.
Proof.
  revert s. induction p as [|a p IH]; intros s; [destruct s; reflexivity|].
  destruct s as [|b s]; simpl; [discriminate|].
  destruct (ascii_dec a b); [apply IH|discriminate].
Qed.

(** An expression that matches at no position has no match. *)
Lemma scan_no_match {A : Type} (m : string → option (A * nat)) (s : string) :
  (∀ k, m (JsString.string_drop k s) = None) → scan m 0 s = [].
Proof.
  induction s as [|a r IH]; intros H; simpl.
  - pose proof (H 0) as H0. simpl in H0. rewrite H0. reflexivity.
  - pose proof (H 0) as H0. simpl in H0. rewrite H0.
    apply IH. intros k. apply (H (S k)).
Qed.

Lemma match_tool_block_needs_fence (s : string) :
  JsString.split_first fence s = None → match_tool_block s = None.
Proof.
  intros H. unfold match_tool_block.
  destruct (String.prefix "```tool" s) eqn:Hp; [|reflexivity].
  apply (prefix_app_l fence "tool") in Hp.
  apply split_first_none_prefix in H. unfold fence in *. congruence.
Qed.

Lemma match_deepseek_needs_fence (s : string) :
  JsString.split_first fence s = None → match_deepseek s = None.
Proof.
  intros H. unfold match_deepseek.
  destruct (String.prefix deepseek_begin s); [|reflexivity].
  generalize (String.length deepseek_begin). intros n.
  destruct (word_run_rest (JsString.string_drop n s)) as [k Hk].
  destruct (word_run (JsString.string_drop n s)) as [name r1].
  cbn [snd] in Hk. subst r1.
  destruct (JsString.truthy name); [|reflexivity].
  rewrite string_drop_drop, (split_first_none_drop _ _ _ H). reflexivity.
Qed.

Lemma match_function_needs_opening (s : string) :
  JsString.split_first "<function=" s = None → match_function s = None.
Proof.
  intros H. unfold match_function.
  rewrite (split_first_none_prefix _ _ H). reflexivity.
Qed.

Section Facts.
Variable now : nat → N.

(** *** One candidate *)

Lemma push_tool_block_malformed (toolNames : gset string) (calls : list ToolCall.t)
    (capture : string) :
  Json.parse (JsString.trim capture) = None →
  push_tool_block now toolNames calls capture = calls.
Proof. intros H. unfold push_tool_block. rewrite H. reflexivity. Qed.

Lemma push_named_malformed (toolNames : gset string) (calls : list ToolCall.t)
    (captures : string * string) :
  Json.parse (JsString.trim captures.2) = None →
  push_named now toolNames calls captures = calls.
Proof. intros H. unfold push_named. rewrite H. reflexivity. Qed.

Lemma push_tool_block_unregistered (toolNames : gset string) (calls : list ToolCall.t)
    (capture : string) (toolData : Json.value) (name : string) :
  Json.parse (JsString.trim capture) = Some toolData →
  Json.prop toolData "tool" = Some (Some (Json.JStr name)) →
  name ∉ toolNames →
  push_tool_block now toolNames calls capture = calls.
Proof.
  intros Hparse Htool Hname. unfold push_tool_block, has_name.
  rewrite Hparse, Htool, (bool_decide_eq_false_2 _ Hname), andb_false_r.
  destruct (Json.prop toolData "arguments"); reflexivity.
Qed.

Lemma push_named_unregistered (toolNames : gset string) (calls : list ToolCall.t)
    (captures : string * string) :
  JsString.trim captures.1 ∉ toolNames →
  push_named now toolNames calls captures = calls.
Proof.
  intros Hname. unfold push_named. rewrite (bool_decide_eq_false_2 _ Hname).
  destruct (Json.parse _); reflexivity.
Qed.

Lemma push_tool_block_registered (toolNames : gset string) (calls : list ToolCall.t)
    (capture : string) :
  Forall (λ tc, ToolCall.name tc ∈ toolNames) calls →
  Forall (λ tc, ToolCall.name tc ∈ toolNames) (push_tool_block now toolNames calls capture).
Proof.
  intros H. unfold push_tool_block, has_name.
  repeat case_match; simplify_eq/=; try exact H.
  all: apply Forall_app; split; [exact H|]; constructor; [|constructor]; simpl.
  all: match goal with
       | Hc : _ && bool_decide _ = true |- _ =>
           apply andb_prop in Hc as [_ Hc]; apply bool_decide_eq_true in Hc; exact Hc
       end.
Qed.

Lemma push_named_registered (toolNames : gset string) (calls : list ToolCall.t)
    (captures : string * string) :
  Forall (λ tc, ToolCall.name tc ∈ toolNames) calls →
  Forall (λ tc, ToolCall.name tc ∈ toolNames) (push_named now toolNames calls captures).
Proof.
  intros H. unfold push_named.
  repeat case_match; simplify_eq/=; try exact H.
  all: apply Forall_app; split; [exact H|]; constructor; [|constructor]; simpl.
  all: match goal with
       | Hc : bool_decide _ = true |- _ => apply bool_decide_eq_true in Hc; exact Hc
       end.
Qed.

Lemma fold_registered {C : Type} (push : list ToolCall.t → C → list ToolCall.t)
    (toolNames : gset string) (candidates : list C) (calls : list ToolCall.t) :
  (∀ acc c, Forall (λ tc, ToolCall.name tc ∈ toolNames) acc →
            Forall (λ tc, ToolCall.name tc ∈ toolNames) (push acc c)) →
  Forall (λ tc, ToolCall.name tc ∈ toolNames) calls →
  Forall (λ tc, ToolCall.name tc ∈ toolNames) (fold_left push candidates calls).
Proof.
  intros Hpush. revert calls.
  induction candidates as [|c cs IH]; intros calls H; simpl; [exact H|].
  apply IH, Hpush, H.
Qed.

(** Every extracted call names a registered tool. *)
Lemma extracted_calls_are_registered {E : Type} (response : string)
    (tools : list (Tool.t E)) (tc : ToolCall.t) :
  tc ∈ extractToolCalls now response tools → ToolCall.name tc ∈ map Tool.name tools.
Proof.
  intros Hin. unfold extractToolCalls in Hin.
  set (toolNames := list_to_set (map Tool.name tools) : gset string) in *.
  assert (H : Forall (λ tc, ToolCall.name tc ∈ toolNames)
                (fold_left (push_named now toolNames) (scan match_function 0 response)
                   (fold_left (push_named now toolNames) (scan match_deepseek 0 response)
                      (fold_left (push_tool_block now toolNames)
                         (scan match_tool_block 0 response) [])))).
  { repeat apply fold_registered;
      auto using push_named_registered, push_tool_block_registered. }
  rewrite Forall_forall in H. specialize (H tc Hin).
  subst toolNames. rewrite elem_of_list_to_set in H. exact H.
Qed.

(** A candidate that does not parse leaves the extraction of the others as
    it would be without it. *)
Lemma malformed_candidate_is_skipped {C : Type}
    (push : list ToolCall.t → C → list ToolCall.t)
    (before after : list C) (c : C) (calls : list ToolCall.t) :
  (∀ acc, push acc c = acc) →
  fold_left push (before ++ c :: after) calls = fold_left push (before ++ after) calls.
Proof. intros H. rewrite !fold_left_app. simpl. rewrite H. reflexivity. Qed.

(** A text with no fence and no [<function=] holds no candidate. *)
Lemma no_candidate_no_call {E : Type} (response : string) (tools : list (Tool.t E)) :
  JsString.split_first fence response = None →
  JsString.split_first "<function=" response = None →
  extractToolCalls now response tools = [].
Proof.
  intros Hfence Hfun. unfold extractToolCalls.
  rewrite (scan_no_match match_tool_block), (scan_no_match match_deepseek),
    (scan_no_match match_function); [reflexivity|..]; intros k.
  - apply match_function_needs_opening, split_first_none_drop, Hfun.
  - apply match_deepseek_needs_fence, split_first_none_drop, Hfence.
  - apply match_tool_block_needs_fence, split_first_none_drop, Hfence.
Qed.

(** C7: a candidate that names an unregistered tool adds no call, and the
    extraction only ever yields calls of registered tools; a candidate whose
    payload does not parse is skipped and the candidates around it are
    extracted as without it; of a block for [read_file] and a block for the
    unregistered [delete_universe] exactly the [read_file] call is extracted;
    and a text with no candidate gives the empty list. *)
Theorem extraction_keeps_registered_well_formed_candidates :
  (∀ (toolNames : gset string) (calls : list ToolCall.t) (capture : string)
     (toolData : Json.value) (name : string),
     Json.parse (JsString.trim capture) = Some toolData →
     Json.prop toolData "tool" = Some (Some (Json.JStr name)) →
     name ∉ toolNames →
     push_tool_block now toolNames calls capture = calls)
  ∧ (∀ (toolNames : gset string) (calls : list ToolCall.t) (captures : string * string),
       JsString.trim captures.1 ∉ toolNames →
       push_named now toolNames calls captures = calls)
  ∧ (∀ (E : Type) (response : string) (tools : list (Tool.t E)) (tc : ToolCall.t),
       tc ∈ extractToolCalls now response tools → ToolCall.name tc ∈ map Tool.name tools)
  ∧ (∀ (toolNames : gset string) (before after : list string) (capture : string)
       (calls : list ToolCall.t),
       Json.parse (JsString.trim capture) = None →
       fold_left (push_tool_block now toolNames) (before ++ capture :: after) calls
       = fold_left (push_tool_block now toolNames) (before ++ after) calls)
  ∧ (∀ (toolNames : gset string) (before after : list (string * string))
       (captures : string * string) (calls : list ToolCall.t),
       Json.parse (JsString.trim captures.2) = None →
       fold_left (push_named now toolNames) (before ++ captures :: after) calls
       = fold_left (push_named now toolNames) (before ++ after) calls)
  ∧ extractToolCalls now two_blocks registered
    = [ToolCall.mk ("ollama_" +:+ pretty (now 0) +:+ "_0") "read_file"
         (Json.JObj [("file_path", Json.JStr "a.txt")])]
  ∧ extractToolCalls now broken_block_first registered
    = [ToolCall.mk ("ollama_" +:+ pretty (now 0) +:+ "_0") "glob"
         (Json.JObj [("pattern", Json.JStr "*.ts")])]
  ∧ (∀ (E : Type) (response : string) (tools : list (Tool.t E)),
       JsString.split_first fence response = None →
       JsString.split_first "<function=" response = None →
       extractToolCalls now response tools = []).
Proof.
  split; [apply push_tool_block_unregistered|].
  split; [apply push_named_unregistered|].
  split; [intros E; apply extracted_calls_are_registered|].
  split.
  { intros. apply malformed_candidate_is_skipped.
    intros acc. apply push_tool_block_malformed. assumption. }
  split.
  { intros. apply malformed_candidate_is_skipped.
    intros acc. apply push_named_malformed. assumption. }
  split; [reflexivity|]. split; [reflexivity|].
  intros E. apply no_candidate_no_call.
Qed.

End Facts.

(** A block for an unknown tool, a block that is not JSON before a good
    one, and a reply without any block. *)
Lemma extraction_keeps_registered_well_formed_candidates_witness :
  let now : nat → N := λ _, 1700000000000%N in
  push_tool_block now {[ "read_file" ]} [] (quoted "{'tool': 'delete_universe'}") = []
  ∧ push_named now {[ "read_file" ]} [] ("delete_universe", "{}") = []
  ∧ fold_left (push_named now {[ "glob" ]}) ([] ++ ("glob", "oops") :: [("glob", "{}")]) []
    = fold_left (push_named now {[ "glob" ]}) ([] ++ [("glob", "{}")]) []
  ∧ "read_file" ∈ map Tool.name registered
  ∧ fold_left (push_tool_block now {[ "read_file" ]})
    ([] ++ "{tool: read_file}" :: [quoted "{'tool': 'read_file'}"]) []
  = fold_left (push_tool_block now {[ "read_file" ]})
      ([] ++ [quoted "{'tool': 'read_file'}"]) []
  ∧ extractToolCalls now "I can not do that." registered = [].
Proof.
  intros now.
  destruct (extraction_keeps_registered_well_formed_candidates now)
    as (Hunknown & Hunknown' & Hregistered & Hblock & Hnamed & _ & _ & Hnone).
  split; [|split; [|split; [|split; [|split]]]].
  - apply (Hunknown {[ "read_file" ]} [] (quoted "{'tool': 'delete_universe'}")
             (Json.JObj [("tool", Json.JStr "delete_universe")]) "delete_universe");
      [reflexivity | reflexivity | ].
    intros Hin. apply elem_of_singleton in Hin. discriminate.
  - apply Hunknown'. intros Hin. apply elem_of_singleton in Hin. discriminate.
  - apply Hnamed. reflexivity.
  - apply (Hregistered unit two_blocks registered
             (ToolCall.mk ("ollama_" +:+ pretty (now 0) +:+ "_0") "read_file"
                (Json.JObj [("file_path", Json.JStr "a.txt")]))).
    apply list_elem_of_here.
  - apply Hblock. reflexivity.
  - apply Hnone; reflexivity.
Defined.

End OllamaFacts.

(** ** Properties of the agent loop *)

Module AgentFacts.
Import Agent.

Section Facts.
Context {E : Type}.
Variable agent : Agent E.
Variable callbacks : AgentCallbacks E.

#[local] Abbreviation lookup_tool tc :=
  (find (λ t : Tool.t E, String.eqb (Tool.name t) (ToolCall.name tc)) (agent_tools agent)).

(** *** Messages *)

Lemma finish_messages (tc : ToolCall.t) (content : string) (st : state E) :
  messages (finish callbacks tc content st) = messages st ++ [tool_message content tc].
Proof. reflexivity. Qed.

Lemma approval_messages (tool' : Tool.t E) (tc : ToolCall.t) (st : state E) :
  messages (approval agent callbacks tool' tc st).2 = messages st.
Proof.
  unfold approval. repeat case_match; simplify_eq/=; reflexivity.
Qed.

(** A dispatch appends one tool message, for the call dispatched. *)
Lemma dispatch_messages (st : state E) (tc : ToolCall.t) :
  ∃ content, messages (dispatch agent callbacks st tc)
             = messages st ++ [tool_message content tc].
Proof.
  unfold dispatch. destruct (lookup_tool tc) as [tool'|]; [|eauto using finish_messages].
  pose proof (approval_messages tool' tc st) as Ha.
  destruct (approval agent callbacks tool' tc st) as [denied st1]. simpl in Ha.
  destruct denied.
  - eexists. rewrite finish_messages, Ha. reflexivity.
  - destruct (Tool.execute _ _ _ _) as [res e]. eexists.
    rewrite finish_messages. simpl. rewrite Ha. reflexivity.
Qed.

Lemma executeToolCalls_messages (toolCalls : list ToolCall.t) (st : state E) :
  ∃ contents,
    length contents = length toolCalls
    ∧ messages (executeToolCalls agent callbacks toolCalls st)
      = messages st ++ zip_with tool_message contents toolCalls.
Proof.
  revert st. induction toolCalls as [|tc rest IH]; intros st.
  - exists []. simpl. rewrite app_nil_r. done.
  - destruct (dispatch_messages st tc) as [c Hc].
    destruct (IH (dispatch agent callbacks st tc)) as (cs & Hlen & Hcs).
    exists (c :: cs). split; [simpl; congruence|].
    unfold executeToolCalls in *. simpl. rewrite Hcs, Hc, <- app_assoc. reflexivity.
Qed.

(** The messages made of one content for each call are tool messages, as
    many as the calls, with the identifiers of the calls in order. *)
Lemma tool_messages_of_calls (contents : list string) (toolCalls : list ToolCall.t) :
  length contents = length toolCalls →
  length (zip_with tool_message contents toolCalls) = length toolCalls
  ∧ Forall (λ m, Message.role m = tool) (zip_with tool_message contents toolCalls)
  ∧ map Message.toolCallId (zip_with tool_message contents toolCalls)
    = map (λ tc, Some (ToolCall.id tc)) toolCalls.
Proof.
  revert contents.
  induction toolCalls as [|tc rest IH]; intros [|c cs] Hlen; simplify_eq/=.
  - repeat split; constructor.
  - destruct (IH cs) as (Hl & Hr & Hi); [congruence|].
    repeat split; [congruence | constructor; [reflexivity|exact Hr] | congruence].
Qed.

Lemma executeToolCalls_results (toolCalls : list ToolCall.t) (st : state E) :
  ∃ results : list Message.t,
    messages (executeToolCalls agent callbacks toolCalls st) = messages st ++ results
    ∧ length results = length toolCalls
    ∧ Forall (λ m, Message.role m = tool) results
    ∧ map Message.toolCallId results = map (λ tc, Some (ToolCall.id tc)) toolCalls.
Proof.
  destruct (executeToolCalls_messages toolCalls st) as (contents & Hlen & Hm).
  exists (zip_with tool_message contents toolCalls). split; [exact Hm|].
  apply tool_messages_of_calls, Hlen.
Qed.


Lemma consume_messages (steps : list (E → StreamChunk.t * E)) (l : locals) (st : state E) :
  messages (consume callbacks steps l st).2 = messages st.
Proof.
  revert l st. induction steps as [|step rest IH]; intros l st; simpl; [reflexivity|].
  destruct (step (env st)) as [chunk e].
  repeat case_match; subst; try reflexivity; rewrite IH; reflexivity.
Qed.


(** The proposals a completion returns are those it has announced with
    [onToolCallStart], in the order of the stream. *)
Lemma consume_announced (steps : list (E → StreamChunk.t * E)) (l : locals) (st : state E) :
  ∃ events,
    trace (consume callbacks steps l st).2 = trace st ++ events
    ∧ toolCalls (consume callbacks steps l st).1.2 = toolCalls l ++ announced events.
Proof.
  revert l st. induction steps as [|step rest IH]; intros l st; simpl.
  - exists []. rewrite !app_nil_r. done.
  - destruct (step (env st)) as [chunk e].
    set (st0 := mk_state (messages st) e (trace st)).
    assert (Hkeep : ∀ l', toolCalls l' = toolCalls l →
              ∃ events,
                trace (consume callbacks rest l' st0).2 = trace st ++ events
                ∧ toolCalls (consume callbacks rest l' st0).1.2
                  = toolCalls l ++ announced events).
    { intros l' Hl'. destruct (IH l' st0) as (events & Ht & Hc).
      exists events. rewrite Ht, Hc, Hl'. done. }
    repeat case_match; subst; try (apply Hkeep; reflexivity).
    + destruct (IH (mk_locals (textContent l +:+ s) (toolCalls l) (pushed l))
                  (call (OnText s) (onText callbacks s) st0)) as (events & Ht & Hc).
      exists (Called (OnText s) :: events). rewrite Ht, Hc. simpl.
      rewrite <- app_assoc. done.
    + destruct (IH (mk_locals (textContent l) (toolCalls l ++ [t]) (pushed l))
                  (call (OnToolCallStart t) (onToolCallStart callbacks t) st0))
        as (events & Ht & Hc).
      exists (Called (OnToolCallStart t) :: events). rewrite Ht, Hc. simpl.
      rewrite <- !app_assoc. done.
    + exists []. rewrite !app_nil_r. done.
Qed.

Lemma getCompletion_announced (st st1 : state E) (finished : bool)
    (proposals : list ToolCall.t) :
  getCompletion agent callbacks st = (Response finished proposals, st1) →
  finished = (length proposals =? 0)
  ∧ messages st `prefix_of` messages st1
  ∧ ∃ events,
      trace st1 = trace st ++ Requested (messages st) (env st) :: events
      ∧ proposals = announced events.
Proof.
  unfold getCompletion.
  match goal with
  | |- context [consume callbacks ?s ?l ?st0] =>
      pose proof (consume_announced s l st0) as (events & Ht & Hc);
      pose proof (consume_messages s l st0) as Hm;
      destruct (consume callbacks s l st0) as [[thrown l'] st']
  end.
  simpl in Ht, Hc, Hm. destruct thrown; [discriminate|].
  intros [= <- <- <-]. split; [reflexivity|]. split.
  - simpl. rewrite Hm. apply prefix_app_r. reflexivity.
  - exists events. simpl. rewrite Ht, <- app_assoc. done.
Qed.

(** A turn of the loop that ends with proposals answers each of them: the
    calls announced in the turn are dispatched, the next turn follows, and
    the history grows by one tool message for each, in their order. *)
Lemma turn_answers_every_proposal (fuel iterations : nat) (st st1 : state E)
    (proposals : list ToolCall.t) :
  iterations < maxIterations →
  getCompletion agent callbacks st = (Response false proposals, st1) →
  let st2 := executeToolCalls agent callbacks proposals st1 in
  loop agent callbacks (S fuel) iterations st = loop agent callbacks fuel (S iterations) st2
  ∧ ∃ events results,
      trace st1 = trace st ++ Requested (messages st) (env st) :: events
      ∧ announced events = proposals
      ∧ messages st2 = messages st1 ++ results
      ∧ map Message.toolCallId results
        = map (λ tc, Some (ToolCall.id tc)) (announced events).
Proof.
  intros Hlt Hget st2.
  destruct (getCompletion_announced _ _ _ _ Hget) as (Hfin & _ & events & Ht & Hp).
  split.
  - simpl. apply Nat.ltb_lt in Hlt. rewrite Hlt, Hget.
    destruct proposals; [discriminate|reflexivity].
  - destruct (executeToolCalls_results proposals st1)
      as (results & Hm & _ & _ & Hids).
    exists events, results. rewrite <- Hp. auto.
Qed.

(** *** The approval gate of the dispatch *)

(** Whatever the mode, approval is needed for the three tools of
    [dangerousTools] and for no other. *)
Lemma toolNeedsApproval_dangerous (cfg : ThiranConfig.t) (toolName : string)
    (args : Json.value) :
  toolNeedsApproval cfg toolName args = bool_decide (toolName ∈ dangerousTools).
Proof.
  unfold toolNeedsApproval.
  destruct (bool_decide (ThiranConfig.approvalMode cfg = SUGGEST)); simpl;
    repeat case_bool_decide; try reflexivity.
  unfold readOnlyTools, dangerousTools in *.
  repeat match goal with
         | H : _ ∈ _ :: _ |- _ => apply elem_of_cons in H; destruct H as [H|H]
         | H : _ ∈ [] |- _ => apply elem_of_nil in H; destruct H
         end; subst; discriminate.
Qed.

(** The tool found for a call bears the name of the call. *)
Lemma lookup_tool_name (tc : ToolCall.t) (tool' : Tool.t E) :
  lookup_tool tc = Some tool' → Tool.name tool' = ToolCall.name tc.
Proof.
  intros H. apply find_some in H as [_ H]. apply String.eqb_eq in H. exact H.
Qed.

(** The amended C3: outside full-auto mode and with an approval callback, a
    call of [write_file], [edit_file] or [bash] is put to the approval
    callback before anything else, and is executed only when the decision
    allows it; a call of any other registered tool (the read-only ones, and
    also [web_fetch] or a tool of an external server) is executed without an
    approval decision. *)
Theorem approval_precedes_dangerous_tools
    (st : state E) (tc : ToolCall.t) (tool' : Tool.t E)
    (request : ToolCall.t → E → PromptDecision.t * E) :
  lookup_tool tc = Some tool' →
  onPermissionRequest callbacks = Some request →
  ThiranConfig.approvalMode (config agent) ≠ FULL_AUTO →
  let context := context agent in
  let args := ToolCall.arguments tc in
  trace (dispatch agent callbacks st tc) =
    trace st ++
    if bool_decide (ToolCall.name tc ∈ dangerousTools) then
      let '(decision, e) := request tc (env st) in
      Asked tc (env st) ::
      if PromptDecision.allow decision
      then [Executed tc e;
            Called (OnToolCallEnd tc (result_content (Tool.execute tool' args context e).1))]
      else [Called (OnToolCallEnd tc "Tool execution denied by user")]
    else
      [Executed tc (env st);
       Called (OnToolCallEnd tc (result_content (Tool.execute tool' args context (env st)).1))].
Proof.
  intros Hfind Hreq Hmode context0 args. unfold dispatch, approval.
  rewrite Hfind, Hreq, toolNeedsApproval_dangerous, (lookup_tool_name _ _ Hfind).
  rewrite (bool_decide_eq_false_2 _ Hmode). simpl.
  case_bool_decide.
  - destruct (request tc (env st)) as [decision e]. simpl.
    destruct (PromptDecision.allow decision); simpl.
    + fold context0 args. destruct (Tool.execute tool' args context0 e) as [res e']. simpl.
      rewrite <- !app_assoc. reflexivity.
    + rewrite <- !app_assoc. reflexivity.
  - fold context0 args. destruct (Tool.execute tool' args context0 (env st)) as [res e']. simpl.
    rewrite <- !app_assoc. reflexivity.
Qed.

(** *** Failures of a call *)

(** C5: a call that names no registered tool, a call whose approval is
    denied, and a call whose execution throws each leave a tool message in the
    history (the not-found text, the fixed denial text, the failure text with
    the message of the exception); the calls after it are dispatched all the
    same, and the loop goes on to the next turn. *)
Theorem capability_failures_are_not_fatal :
  (∀ (st : state E) (tc : ToolCall.t),
     lookup_tool tc = None →
     messages (dispatch agent callbacks st tc)
     = messages st ++ [tool_message ("Tool not found: " +:+ ToolCall.name tc) tc])
  ∧ (∀ (st : state E) (tc : ToolCall.t) (tool' : Tool.t E) request,
       lookup_tool tc = Some tool' →
       onPermissionRequest callbacks = Some request →
       ThiranConfig.approvalMode (config agent) ≠ FULL_AUTO →
       toolNeedsApproval (config agent) (Tool.name tool') (ToolCall.arguments tc) = true →
       PromptDecision.allow (request tc (env st)).1 = false →
       messages (dispatch agent callbacks st tc)
       = messages st ++ [tool_message "Tool execution denied by user" tc])
  ∧ (∀ (st st1 : state E) (tc : ToolCall.t) (tool' : Tool.t E) (message : string),
       lookup_tool tc = Some tool' →
       approval agent callbacks tool' tc st = (false, st1) →
       (Tool.execute tool' (ToolCall.arguments tc) (context agent) (env st1)).1
       = Failed message →
       messages (dispatch agent callbacks st tc)
       = messages st ++ [tool_message ("Tool execution failed: " +:+ message) tc])
  ∧ (∀ (st : state E) (tc : ToolCall.t) (rest : list ToolCall.t),
       executeToolCalls agent callbacks (tc :: rest) st
       = executeToolCalls agent callbacks rest (dispatch agent callbacks st tc))
  ∧ (∀ (fuel iterations : nat) (st st1 : state E) (toolCalls : list ToolCall.t),
       iterations < maxIterations →
       toolCalls ≠ [] →
       getCompletion agent callbacks st = (Response false toolCalls, st1) →
       loop agent callbacks (S fuel) iterations st
       = loop agent callbacks fuel (S iterations)
           (executeToolCalls agent callbacks toolCalls st1)).
Proof.
  repeat split.
  - intros st tc Hfind. unfold dispatch. rewrite Hfind. apply finish_messages.
  - intros st tc tool' request Hfind Hreq Hmode Hneeds Hdeny.
    unfold dispatch, approval. rewrite Hfind, Hreq, Hneeds.
    rewrite (bool_decide_eq_false_2 _ Hmode). simpl.
    destruct (request tc (env st)) as [decision e]. simpl in *.
    rewrite Hdeny. reflexivity.
  - intros st st1 tc tool' message Hfind Happ Hexec.
    pose proof (approval_messages tool' tc st) as Hm.
    unfold dispatch. rewrite Hfind, Happ. rewrite Happ in Hm. simpl in Hm.
    destruct (Tool.execute _ _ _ _) as [res e]. simpl in Hexec. subst res.
    rewrite finish_messages. simpl. rewrite Hm. reflexivity.
  - intros fuel iterations st st1 toolCalls Hlt Hne Hget. simpl.
    apply Nat.ltb_lt in Hlt. rewrite Hlt, Hget.
    destruct toolCalls; [done|reflexivity].
Qed.


(** *** The iteration cap *)

Lemma continues_refl (st : state E) : continues st st.
Proof. exists []. rewrite app_nil_r. split; [done|apply not_elem_of_nil]. Qed.

Lemma continues_trans (st1 st2 st3 : state E) :
  continues st1 st2 → continues st2 st3 → continues st1 st3.
Proof.
  intros (ev1 & H1 & N1) (ev2 & H2 & N2). exists (ev1 ++ ev2).
  split; [rewrite H2, H1, app_assoc; done|].
  rewrite elem_of_app. tauto.
Qed.

Lemma continues_step (st st' : state E) (ev : Event E) :
  trace st' = trace st ++ [ev] → ev ≠ CapExceeded → continues st st'.
Proof.
  intros H Hne. exists [ev]. split; [done|].
  rewrite list_elem_of_singleton. congruence.
Qed.

Lemma continues_same_trace (st st' : state E) :
  trace st' = trace st → continues st st'.
Proof. intros H. exists []. rewrite app_nil_r. split; [done|apply not_elem_of_nil]. Qed.

Lemma call_continues (cb : Callback) (act : E → E) (st : state E) :
  continues st (call cb act st).
Proof. eapply continues_step; [reflexivity|discriminate]. Qed.

Lemma consume_continues (steps : list (E → StreamChunk.t * E)) (l : locals) (st : state E) :
  continues st (consume callbacks steps l st).2.
Proof.
  revert l st. induction steps as [|step rest IH]; intros l st; simpl.
  - apply continues_refl.
  - destruct (step (env st)) as [chunk e].
    set (st0 := mk_state (messages st) e (trace st)).
    assert (H0 : continues st st0) by (apply continues_same_trace; reflexivity).
    repeat case_match; subst;
      try (eapply continues_trans; [exact H0|]);
      try (eapply continues_trans; [|apply IH]);
      try apply call_continues; try apply continues_refl; try apply IH.
Qed.

Lemma getCompletion_continues (st : state E) :
  continues st (getCompletion agent callbacks st).2.
Proof.
  unfold getCompletion.
  match goal with
  | |- context [consume callbacks ?s ?l ?st0] =>
      pose proof (consume_continues s l st0) as Hc;
      destruct (consume callbacks s l st0) as [[thrown l'] st1]
  end.
  simpl in Hc.
  eapply continues_trans; [|eapply continues_trans; [exact Hc|]].
  - eapply continues_step; [reflexivity|discriminate].
  - destruct thrown; apply continues_same_trace; reflexivity.
Qed.

Lemma finish_continues (tc : ToolCall.t) (content : string) (st : state E) :
  continues st (finish callbacks tc content st).
Proof.
  unfold finish. eapply continues_trans; [|apply call_continues].
  apply continues_same_trace. reflexivity.
Qed.

Lemma approval_continues (tool' : Tool.t E) (tc : ToolCall.t) (st : state E) :
  continues st (approval agent callbacks tool' tc st).2.
Proof.
  unfold approval. repeat case_match; simplify_eq/=; try apply continues_refl.
  eapply continues_step; [reflexivity|discriminate].
Qed.

Lemma dispatch_continues (st : state E) (tc : ToolCall.t) :
  continues st (dispatch agent callbacks st tc).
Proof.
  unfold dispatch. destruct (lookup_tool tc) as [tool'|]; [|apply finish_continues].
  pose proof (approval_continues tool' tc st) as Ha.
  destruct (approval agent callbacks tool' tc st) as [denied st1]. simpl in Ha.
  eapply continues_trans; [exact Ha|].
  destruct denied; [apply finish_continues|].
  destruct (Tool.execute _ _ _ _) as [res e].
  eapply continues_trans; [|apply finish_continues].
  eapply continues_step; [reflexivity|discriminate].
Qed.

Lemma executeToolCalls_continues (toolCalls : list ToolCall.t) (st : state E) :
  continues st (executeToolCalls agent callbacks toolCalls st).
Proof.
  revert st. induction toolCalls as [|tc rest IH]; intros st.
  - apply continues_refl.
  - eapply continues_trans; [apply dispatch_continues|apply IH].
Qed.

Lemma loop_continues (fuel iterations : nat) (st : state E) :
  continues st (loop agent callbacks fuel iterations st).2.
Proof.
  revert iterations st. induction fuel as [|fuel IH]; intros iterations st; simpl.
  - apply continues_refl.
  - destruct (iterations <? maxIterations)%nat; [|apply continues_refl].
    pose proof (getCompletion_continues st) as Hg.
    destruct (getCompletion agent callbacks st) as [[finished toolCalls|message] st1];
      simpl in Hg.
    + destruct finished; [|destruct (0 <? length toolCalls)%nat]; simpl;
        try (eapply continues_trans; [exact Hg|apply call_continues]).
      eapply continues_trans; [exact Hg|].
      eapply continues_trans; [apply executeToolCalls_continues|apply IH].
    + simpl. eapply continues_trans; [exact Hg|apply call_continues].
Qed.

(** The loop stops by itself: more fuel than the iterations left changes
    nothing. *)
Lemma loop_fuel_enough (fuel iterations : nat) (st : state E) :
  maxIterations - iterations ≤ fuel →
  loop agent callbacks fuel iterations st
  = loop agent callbacks (maxIterations - iterations) iterations st.
Proof.
  revert iterations st. induction fuel as [|fuel IH]; intros iterations st Hle.
  - replace (maxIterations - iterations) with 0 by lia. reflexivity.
  - destruct (decide (iterations < maxIterations)) as [Hlt|Hge].
    + replace (maxIterations - iterations) with (S (maxIterations - S iterations)) by lia.
      simpl. destruct (iterations <? maxIterations)%nat; [|reflexivity].
      destruct (getCompletion agent callbacks st) as [[finished toolCalls|message] st1];
        [|reflexivity].
      destruct finished; [reflexivity|].
      destruct (0 <? length toolCalls)%nat; [|reflexivity].
      apply IH. lia.
    + replace (maxIterations - iterations) with 0 by lia. simpl.
      assert (Hf : (iterations <? maxIterations)%nat = false) by (apply Nat.ltb_ge; lia).
      rewrite Hf. reflexivity.
Qed.

Lemma loop_iterations (fuel iterations : nat) (st : state E) :
  iterations ≤ maxIterations →
  iterations ≤ (loop agent callbacks fuel iterations st).1 ≤ maxIterations.
Proof.
  revert iterations st. induction fuel as [|fuel IH]; intros iterations st Hle; simpl.
  - lia.
  - destruct (iterations <? maxIterations)%nat eqn:Hlt; [|simpl; lia].
    apply Nat.ltb_lt in Hlt.
    destruct (getCompletion agent callbacks st) as [[finished toolCalls|message] st1];
      [|simpl; lia].
    destruct finished; [simpl; lia|].
    destruct (0 <? length toolCalls)%nat; [|simpl; lia].
    specialize (IH (S iterations) (executeToolCalls agent callbacks toolCalls st1)). lia.
Qed.

(** The count of iterations of a run never exceeds the cap, and the report
    of the cap ends the trace of the run once when the count is the cap, and
    is not in it otherwise. *)
Lemma run_cap_report (userMessage : string) (st : state E) :
  let r := run agent callbacks userMessage st in
  r.1 ≤ maxIterations
  ∧ ∃ events,
      (CapExceeded ∉ events)
      ∧ trace r.2 = trace st ++ events ++
          (if bool_decide (r.1 = maxIterations)
           then [CapExceeded; Called (OnError "Max iterations reached")]
           else []).
Proof.
  unfold run.
  set (st0 := mk_state _ (env st) (trace st)).
  pose proof (loop_iterations maxIterations 0 st0 ltac:(unfold maxIterations; lia)) as Hi.
  pose proof (loop_continues maxIterations 0 st0) as (events & Ht & Hn).
  destruct (loop agent callbacks maxIterations 0 st0) as [iterations st1].
  simpl in Hi, Ht.
  destruct (maxIterations <=? iterations)%nat eqn:Hcap; simpl.
  - apply Nat.leb_le in Hcap. split; [lia|]. exists events. split; [exact Hn|].
    rewrite bool_decide_eq_true_2 by lia. rewrite Ht. simpl.
    rewrite <- !app_assoc. reflexivity.
  - apply Nat.leb_gt in Hcap. split; [lia|]. exists events. split; [exact Hn|].
    rewrite bool_decide_eq_false_2 by lia. rewrite app_nil_r. exact Ht.
Qed.

End Facts.

Import Scenarios.

(** A run that converges in its nineteenth iteration ends with [onDone]
    and reports no cap. *)
Lemma done_before_the_cap_reports_nothing :
  let r := converging_run 18 in
  r.1 = 19
  ∧ last (callbacks_of (trace r.2)) = Some OnDone
  ∧ CapExceeded ∉ trace r.2.
Proof.
  split; [vm_compute; reflexivity|]. split; [vm_compute; reflexivity|].
  intros Hin. apply list_elem_of_In in Hin.
  apply (in_map (λ ev, match ev with CapExceeded => true | _ => false end)) in Hin.
  revert Hin. vm_compute. intuition discriminate.
Qed.

(** C2, on the code: the model proposes a tool call in each of nineteen
    turns and answers in plain text in the twentieth.  The run ends normally
    within the cap, with [onDone], and the report of the cap follows it.  In
    the same way, when the request of the twentieth turn fails, the error of
    the provider is reported and the report of the cap follows it. *)
Theorem done_on_the_twentieth_iteration_reports_the_cap :
  let r := converging_run 19 in
  let r' := failing_run 19 in
  r.1 = maxIterations
  ∧ last (messages r.2)
    = Some (Message.mk assistant "Here are the files." None None)
  ∧ (∃ before,
       trace r.2 = before ++
         [Called (OnText "Here are the files."); Called OnDone;
          CapExceeded; Called (OnError "Max iterations reached")])
  ∧ r'.1 = maxIterations
  ∧ (∃ before,
       trace r'.2 = before ++
         [Called (OnError "429 rate limit exceeded");
          CapExceeded; Called (OnError "Max iterations reached")]).
Proof.
  split; [vm_compute; reflexivity|]. split; [vm_compute; reflexivity|].
  split; [exists (take 77 (trace (converging_run 19).2)); vm_compute; reflexivity|].
  split; [vm_compute; reflexivity|].
  exists (take 77 (trace (failing_run 19).2)). vm_compute. reflexivity.
Qed.

(** C3 as stated fails for [web_fetch] and for a tool of an external
    server: in suggest mode, with an approval callback that would deny, each
    of the two calls is executed and no approval is asked. *)
Lemma web_fetch_runs_without_approval :
  let st := executeToolCalls fetch_agent (silent (Some deny))
              [fetch_call; external_call] (start tt) in
  ThiranConfig.approvalMode (config fetch_agent) = SUGGEST
  ∧ toolNeedsApproval (config fetch_agent) "web_fetch" (ToolCall.arguments fetch_call)
    = false
  ∧ toolNeedsApproval (config fetch_agent) "mcp__files__delete_file"
      (ToolCall.arguments external_call) = false
  ∧ trace st =
      [Executed fetch_call tt; Called (OnToolCallEnd fetch_call "<html>");
       Executed external_call tt; Called (OnToolCallEnd external_call "deleted")]
  ∧ messages st =
      [tool_message "<html>" fetch_call; tool_message "deleted" external_call].
Proof. vm_compute. auto. Qed.

(** [bash] in suggest mode is put to the approval callback, which denies
    it, and is not executed. *)
Lemma approval_precedes_dangerous_tools_witness :
  trace (dispatch failing_agent (silent (Some deny)) (start tt) rm_call)
  = [Asked rm_call tt; Called (OnToolCallEnd rm_call "Tool execution denied by user")].
Proof.
  apply (approval_precedes_dangerous_tools failing_agent (silent (Some deny))
           (start tt) rm_call (constant_tool "bash" "") deny).
  - reflexivity.
  - reflexivity.
  - discriminate.
Defined.

(** The run of the specification: [bash] with [rm -rf /tmp/x] in suggest
    mode is denied, the tool message is the fixed denial text, and the loop
    goes on to the other calls and to the next turn. *)
Lemma denied_bash_end_to_end :
  let r := run failing_agent (silent (Some deny)) "clean up" (start tt) in
  r.1 = 2
  ∧ messages r.2 =
      [Message.mk user "clean up" None None;
       Message.mk assistant "" None (Some [rm_call; ghost_call; grep_call]);
       tool_message "Tool execution denied by user" rm_call;
       tool_message "Tool not found: delete_universe" ghost_call;
       tool_message "Tool execution failed: EACCES: permission denied" grep_call;
       Message.mk assistant "Understood." None None]
  ∧ last (callbacks_of (trace r.2)) = Some OnDone.
Proof. vm_compute. auto. Qed.

(** The three failures, each on its call of the run above, and the turn
    that follows them. *)
Lemma capability_failures_are_not_fatal_witness :
  let cbs := silent (Some deny) in
  let st := mk_state [Message.mk user "clean up" None None] tt [] in
  messages (dispatch failing_agent cbs (start tt) ghost_call)
  = [tool_message "Tool not found: delete_universe" ghost_call]
  ∧ messages (dispatch failing_agent cbs (start tt) rm_call)
    = [tool_message "Tool execution denied by user" rm_call]
  ∧ messages (dispatch failing_agent cbs (start tt) grep_call)
    = [tool_message "Tool execution failed: EACCES: permission denied" grep_call]
  ∧ loop failing_agent cbs 20 0 st
    = loop failing_agent cbs 19 1
        (executeToolCalls failing_agent cbs [rm_call; ghost_call; grep_call]
           (getCompletion failing_agent cbs st).2).
Proof.
  intros cbs st.
  destruct (capability_failures_are_not_fatal failing_agent cbs)
    as (Hmissing & Hdenied & Hthrown & _ & Hturn).
  split; [exact (Hmissing (start tt) ghost_call eq_refl)|].
  split.
  { apply (Hdenied (start tt) rm_call (constant_tool "bash" "") deny);
      [reflexivity | reflexivity | discriminate | reflexivity | reflexivity]. }
  split.
  { apply (Hthrown (start tt) (start tt) grep_call
             (throwing_tool "grep" "EACCES: permission denied")
             "EACCES: permission denied"); reflexivity. }
  apply (Hturn 19 0 st (getCompletion failing_agent cbs st).2
           [rm_call; ghost_call; grep_call]).
  - unfold maxIterations. lia.
  - discriminate.
  - reflexivity.
Defined.

End AgentFacts.

(** ** Properties of cancellation *)

Module AppFacts.
Import Agent.

(** Once cancelled, the interface ignores every callback of the run. *)
Lemma callbacks_are_suppressed (ui : App.UiState) :
  App.cancelledRef ui = true →
  (∀ t, App.onText t ui = ui)
  ∧ (∀ tc, App.onToolCallStart tc ui = ui)
  ∧ (∀ tc result, App.onToolCallEnd tc result ui = ui)
  ∧ (∀ message, App.onError message ui = ui)
  ∧ App.onDone ui = ui.
Proof.
  intros H. unfold App.onText, App.onToolCallStart, App.onToolCallEnd, App.onError,
    App.onDone. rewrite H. auto.
Qed.

Section Sessions.
Context {W : Type}.
Variables escape1 escape2 : W → bool.
Variable answer : PermissionAction.t → W → PromptDecision.t * W.
Variable agent : Agent W.

#[local] Abbreviation agent1 := (App.session_agent escape1 agent).
#[local] Abbreviation agent2 := (App.session_agent escape2 agent).
#[local] Abbreviation callbacks1 := (App.callbacks escape1 answer).
#[local] Abbreviation callbacks2 := (App.callbacks escape2 answer).

#[local] Ltac same_states :=
  repeat match goal with
         | H : App.same_for_agent _ _ |- _ => destruct H as (? & ? & ?)
         end;
  repeat split; simpl in *;
  rewrite ?map_app; simpl; try congruence.

Lemma call_same (cb : Callback) (f1 f2 : App.UiState → App.UiState)
    (st1 st2 : state (App.UiState * W)) :
  App.same_for_agent st1 st2 →
  App.same_for_agent (call cb (App.onUi f1) st1) (call cb (App.onUi f2) st2).
Proof. intros H. unfold call. same_states. Qed.

Lemma await_same {X : Type} (op : W → X * W) (e1 e2 : App.UiState * W) :
  e1.2 = e2.2 →
  (App.await escape1 op e1).1 = (App.await escape2 op e2).1
  ∧ (App.await escape1 op e1).2.2 = (App.await escape2 op e2).2.2.
Proof.
  intros H. unfold App.await. rewrite H. destruct (op e2.2) as [x w]. auto.
Qed.

Lemma consume_same (steps : list (W → StreamChunk.t * W)) (l : locals)
    (st1 st2 : state (App.UiState * W)) :
  App.same_for_agent st1 st2 →
  let r1 := consume callbacks1 (map (App.await escape1) steps) l st1 in
  let r2 := consume callbacks2 (map (App.await escape2) steps) l st2 in
  r1.1 = r2.1 ∧ App.same_for_agent r1.2 r2.2.
Proof.
  revert l st1 st2. induction steps as [|step rest IH]; intros l st1 st2 Hs; simpl.
  - auto.
  - destruct Hs as (Hm & He & Ht).
    destruct (await_same step (env st1) (env st2) He) as [Hc Hw].
    destruct (App.await escape1 step (env st1)) as [chunk e1].
    destruct (App.await escape2 step (env st2)) as [chunk2 e2].
    simpl in Hc, Hw. subst chunk2.
    assert (Hs : App.same_for_agent
                   (mk_state (messages st1) e1 (trace st1))
                   (mk_state (messages st2) e2 (trace st2))) by (repeat split; done).
    repeat case_match; subst; try (apply IH; exact Hs); try (split; [reflexivity|exact Hs]).
    + apply IH. apply call_same, Hs.
    + apply IH. apply call_same, Hs.
Qed.

Lemma getCompletion_same (st1 st2 : state (App.UiState * W)) :
  App.same_for_agent st1 st2 →
  (getCompletion agent1 callbacks1 st1).1 = (getCompletion agent2 callbacks2 st2).1
  ∧ App.same_for_agent (getCompletion agent1 callbacks1 st1).2
      (getCompletion agent2 callbacks2 st2).2.
Proof.
  intros Hs. unfold getCompletion. simpl.
  assert (Hd : map (declaration (E:=App.UiState * W))
                 (map (App.session_tool escape1) (agent_tools agent))
               = map declaration (map (App.session_tool escape2) (agent_tools agent))).
  { rewrite !map_map. reflexivity. }
  rewrite Hd. destruct Hs as (Hm & He & Ht). rewrite Hm.
  match goal with
  | |- context [consume callbacks1 (map _ ?steps) ?l ?s1] =>
      match goal with
      | |- context [consume callbacks2 _ _ ?s2] =>
          destruct (consume_same steps l s1 s2) as [Hr Hs];
            [repeat split; simpl; rewrite ?map_app; simpl; congruence|];
            destruct (consume callbacks1 (map (App.await escape1) steps) l s1)
              as [[thrown1 l1] s1'];
            destruct (consume callbacks2 (map (App.await escape2) steps) l s2)
              as [[thrown2 l2] s2']
      end
  end.
  simpl in Hr, Hs. simplify_eq. destruct Hs as (Hm' & He' & Ht').
  destruct thrown2; simpl; repeat split; simpl; congruence.
Qed.

Lemma finish_same (tc : ToolCall.t) (content : string)
    (st1 st2 : state (App.UiState * W)) :
  App.same_for_agent st1 st2 →
  App.same_for_agent (finish callbacks1 tc content st1) (finish callbacks2 tc content st2).
Proof.
  intros Hs. unfold finish. apply call_same. same_states.
Qed.

Lemma find_session_tool (escape : W → bool) (tc : ToolCall.t) :
  find (λ t : Tool.t (App.UiState * W), String.eqb (Tool.name t) (ToolCall.name tc))
    (map (App.session_tool escape) (agent_tools agent))
  = App.session_tool escape
      <$> find (λ t : Tool.t W, String.eqb (Tool.name t) (ToolCall.name tc))
            (agent_tools agent).
Proof.
  induction (agent_tools agent) as [|t ts IH]; simpl; [reflexivity|].
  destruct (String.eqb (Tool.name t) (ToolCall.name tc)); [reflexivity|exact IH].
Qed.

Lemma approval_same (t : Tool.t W) (tc : ToolCall.t)
    (st1 st2 : state (App.UiState * W)) :
  App.same_for_agent st1 st2 →
  (approval agent1 callbacks1 (App.session_tool escape1 t) tc st1).1
  = (approval agent2 callbacks2 (App.session_tool escape2 t) tc st2).1
  ∧ App.same_for_agent (approval agent1 callbacks1 (App.session_tool escape1 t) tc st1).2
      (approval agent2 callbacks2 (App.session_tool escape2 t) tc st2).2.
Proof.
  intros Hs. unfold approval. simpl.
  destruct (negb (bool_decide (ThiranConfig.approvalMode (config agent) = FULL_AUTO)));
    [|auto].
  destruct (toolNeedsApproval _ _ _); [|auto].
  destruct Hs as (Hm & He & Ht).
  pose proof (await_same (answer (App.permissionAction tc))
      (App.setPendingPermission (Some (App.permissionAction tc)) (env st1).1, (env st1).2)
      (App.setPendingPermission (Some (App.permissionAction tc)) (env st2).1, (env st2).2)
      He) as [Hd Hw].
  destruct (App.await escape1 _ _) as [d1 e1].
  destruct (App.await escape2 _ _) as [d2 e2].
  simpl in *. subst d2. split; [reflexivity|].
  repeat split; simpl; rewrite ?map_app; simpl; congruence.
Qed.

Lemma dispatch_same (tc : ToolCall.t) (st1 st2 : state (App.UiState * W)) :
  App.same_for_agent st1 st2 →
  App.same_for_agent (dispatch agent1 callbacks1 st1 tc) (dispatch agent2 callbacks2 st2 tc).
Proof.
  intros Hs. unfold dispatch.
  change (agent_tools agent1) with (map (App.session_tool escape1) (agent_tools agent)).
  change (agent_tools agent2) with (map (App.session_tool escape2) (agent_tools agent)).
  rewrite !find_session_tool.
  destruct (find _ (agent_tools agent)) as [t|]; simpl; [|apply finish_same, Hs].
  destruct (approval_same t tc st1 st2 Hs) as [Hd Hs'].
  destruct (approval agent1 callbacks1 _ tc st1) as [denied1 st1'].
  destruct (approval agent2 callbacks2 _ tc st2) as [denied2 st2'].
  simpl in Hd, Hs'. subst denied2.
  destruct denied1; [apply finish_same, Hs'|].
  destruct Hs' as (Hm & He & Ht).
  change (context agent1) with (context agent).
  change (context agent2) with (context agent).
  pose proof (await_same (Tool.execute t (ToolCall.arguments tc) (context agent))
                (env st1') (env st2') He) as [Hr Hw].
  destruct (App.await escape1 _ (env st1')) as [res1 e1].
  destruct (App.await escape2 _ (env st2')) as [res2 e2].
  simpl in Hr, Hw. subst res2.
  apply finish_same. repeat split; simpl; rewrite ?map_app; simpl; congruence.
Qed.

Lemma executeToolCalls_same (toolCalls : list ToolCall.t)
    (st1 st2 : state (App.UiState * W)) :
  App.same_for_agent st1 st2 →
  App.same_for_agent (executeToolCalls agent1 callbacks1 toolCalls st1)
    (executeToolCalls agent2 callbacks2 toolCalls st2).
Proof.
  revert st1 st2. induction toolCalls as [|tc rest IH]; intros st1 st2 Hs; [exact Hs|].
  apply IH, dispatch_same, Hs.
Qed.

Lemma loop_same (fuel iterations : nat) (st1 st2 : state (App.UiState * W)) :
  App.same_for_agent st1 st2 →
  (loop agent1 callbacks1 fuel iterations st1).1
  = (loop agent2 callbacks2 fuel iterations st2).1
  ∧ App.same_for_agent (loop agent1 callbacks1 fuel iterations st1).2
      (loop agent2 callbacks2 fuel iterations st2).2.
Proof.
  revert iterations st1 st2.
  induction fuel as [|fuel IH]; intros iterations st1 st2 Hs; simpl; [auto|].
  destruct (iterations <? maxIterations); [|auto].
  destruct (getCompletion_same st1 st2 Hs) as [Hc Hs'].
  destruct (getCompletion agent1 callbacks1 st1) as [c1 st1'].
  destruct (getCompletion agent2 callbacks2 st2) as [c2 st2'].
  simpl in Hc, Hs'. subst c2.
  destruct c1 as [finished toolCalls|message].
  - destruct finished; [|destruct (0 <? length toolCalls)]; simpl;
      try (split; [reflexivity|apply call_same, Hs']).
    apply IH, executeToolCalls_same, Hs'.
  - simpl. split; [reflexivity|apply call_same, Hs'].
Qed.


End Sessions.

Import Scenarios.



End AppFacts.

(** ** Facts on strings *)

Module StringFacts.

Lemma append_nil_r (s : string) : s +:+ "" = s.
Proof. induction s as [|a s IH]; [reflexivity|]. change (String a (s +:+ "") = String a s). by rewrite IH. Qed.

Lemma append_assoc (s1 s2 s3 : string) : (s1 +:+ s2) +:+ s3 = s1 +:+ s2 +:+ s3.
Proof.
  induction s1 as [|a s1 IH]; [reflexivity|].
  change (String a ((s1 +:+ s2) +:+ s3) = String a (s1 +:+ s2 +:+ s3)). by rewrite IH.
Qed.

Lemma length_append (s1 s2 : string) :
  String.length (s1 +:+ s2) = String.length s1 + String.length s2.
Proof.
  induction s1 as [|a s1 IH]; [reflexivity|].
  change (S (String.length (s1 +:+ s2)) = S (String.length s1 + String.length s2)).
  by rewrite IH.
Qed.

Lemma join_app (l1 l2 : list string) :
  JsString.join (l1 ++ l2) = JsString.join l1 +:+ JsString.join l2.
Proof.
  induction l1 as [|s l1 IH]; [reflexivity|].
  change (s +:+ JsString.join (l1 ++ l2) = (s +:+ JsString.join l1) +:+ JsString.join l2).
  by rewrite IH, append_assoc.
Qed.

Lemma prefix_append (p s : string) : String.prefix p (p +:+ s) = true.
Proof.
  induction p as [|a p IH]; [by destruct s|].
  change (String.prefix (String a p) (String a (p +:+ s)) = true). simpl.
  destruct (ascii_dec a a); [exact IH|done].
Qed.

Lemma prefix_true (p s : string) :
  String.prefix p s = true ↔ ∃ r, s = p +:+ r.
Proof.
  split.
  - revert s. induction p as [|a p IH]; intros s Hp; [by exists s|].
    destruct s as [|b s]; [done|]. simpl in Hp.
    destruct (ascii_dec a b) as [->|]; [|done].
    destruct (IH s Hp) as [r ->]. by exists r.
  - intros [r ->]. apply prefix_append.
Qed.

End StringFacts.

(** ** What the permission gate remembers *)

Module PermissionsLaws.
Import Permissions.

Section Laws.
Variable URL_hostname : string → option string.

Implicit Types promptFn : PermissionAction.t → PromptDecision.t.

Lemma isPathAllowed_member (m : DefaultPermissionManager) (p : string) :
  p ∈ allowedPaths m → isPathAllowed m p = true.
Proof. intros Hin. unfold isPathAllowed. by rewrite bool_decide_eq_true_2. Qed.

Lemma isPathAllowed_mono (m m' : DefaultPermissionManager) (p : string) :
  allowedPaths m ⊆ allowedPaths m' →
  workingDirectory m' = workingDirectory m →
  isPathAllowed m p = true → isPathAllowed m' p = true.
Proof.
  intros Hsub Hwd.
  rewrite !PermissionsFacts.isPathAllowed_spec, Hwd.
  intros [H|[H|(a & Ha & Hp)]]; [left|right; left|right; right]; auto.
  exists a. auto.
Qed.

(** One check leaves the mode and the working directory as they are and
    only adds to the allow-lists. *)
Lemma checkPermission_grows promptFn (m : DefaultPermissionManager)
    (a : PermissionAction.t) :
  let m' := manager (checkPermission promptFn URL_hostname m a) in
  allowedPaths m ⊆ allowedPaths m'
  ∧ allowedCommands m ⊆ allowedCommands m'
  ∧ allowedUrls m ⊆ allowedUrls m'
  ∧ approvalMode m' = approvalMode m
  ∧ workingDirectory m' = workingDirectory m.
Proof.
  unfold checkPermission, on_string, checkFileRead, checkFileWrite,
    checkBashExecute, checkWebFetch.
  repeat (case_bool_decide || case_match || simpl); repeat split; set_solver.
Qed.

(** An answer of the user that allows a read and asks to remember it is
    kept: the same read is granted afterwards without a prompt, whatever the
    prompt would answer. *)
Theorem remembered_read_is_not_asked_again promptFn promptFn'
    (m : DefaultPermissionManager) (p : string) :
  let ask := prompt_action file_read (Some p) None None in
  PromptDecision.allow (promptFn ask) = true →
  PromptDecision.remember (promptFn ask) = true →
  let o := checkPermission promptFn URL_hostname m (file_action file_read p) in
  result o = Returned granted_result
  ∧ checkPermission promptFn' URL_hostname (manager o) (file_action file_read p)
    = mk_outcome (Returned granted_result) (manager o) [].
Proof.
  intros ask Hallow Hremember o. subst o ask.
  unfold checkPermission, file_action, on_string. simpl.
  case_bool_decide as Hmode; simpl.
  { rewrite bool_decide_eq_true_2 by done. split; reflexivity. }
  unfold checkFileRead. destruct (isPathAllowed m p) eqn:Hp; simpl.
  { rewrite bool_decide_eq_false_2 by done. rewrite Hp. split; reflexivity. }
  unfold decision_result. rewrite Hallow, Hremember. simpl.
  rewrite bool_decide_eq_false_2 by done. split; [done|].
  rewrite isPathAllowed_member; [done|]. simpl. set_solver.
Qed.

(** A remembered answer on a write is kept in auto-edit mode only: in
    suggest mode the same write is put to the prompt again, though its path
    has joined the allow-list. *)
Theorem remembered_write_is_asked_again_in_suggest_mode promptFn promptFn'
    (m : DefaultPermissionManager) (p : string) :
  let ask := prompt_action file_write (Some p) None None in
  approvalMode m ≠ FULL_AUTO →
  isPathAllowed m p = false →
  PromptDecision.allow (promptFn ask) = true →
  PromptDecision.remember (promptFn ask) = true →
  let o := checkPermission promptFn URL_hostname m (file_action file_write p) in
  let o' := checkPermission promptFn' URL_hostname (manager o) (file_action file_write p) in
  prompted o = [ask]
  ∧ p ∈ allowedPaths (manager o)
  ∧ prompted o' = (if bool_decide (approvalMode m = SUGGEST) then [ask] else [])
  ∧ (approvalMode m = AUTO_EDIT → result o' = Returned granted_result).
Proof.
  intros ask Hmode Hp Hallow Hremember o o'.
  assert (Ho : o = mk_outcome (Returned granted_result)
                     (set_allowedPaths m ({[ p ]} ∪ allowedPaths m)) [ask]).
  { subst o. unfold checkPermission, file_action, on_string. simpl.
    rewrite bool_decide_eq_false_2 by done.
    unfold checkFileWrite. rewrite Hp, andb_false_r. simpl.
    unfold decision_result. fold ask. by rewrite Hallow, Hremember. }
  subst o'. rewrite Ho. simpl.
  split; [done|]. split; [set_solver|].
  unfold checkPermission, file_action, on_string. simpl.
  rewrite bool_decide_eq_false_2 by done.
  unfold checkFileWrite. rewrite isPathAllowed_member by (simpl; set_solver).
  simpl. destruct (approvalMode m); try done; simpl; split; done.
Qed.

(** A remembered answer on a command is kept under the first word of the
    command: every later command with that first word runs without a
    prompt, whatever follows the word. *)
Theorem remembered_command_covers_its_first_word promptFn promptFn'
    (m : DefaultPermissionManager) (c c' : string) :
  let ask := prompt_action bash_execute None (Some c) None in
  let o := checkPermission promptFn URL_hostname m (command_action c) in
  prompted o = [ask] →
  PromptDecision.allow (promptFn ask) = true →
  PromptDecision.remember (promptFn ask) = true →
  JsString.first_word c' = JsString.first_word c →
  checkPermission promptFn' URL_hostname (manager o) (command_action c')
  = mk_outcome (Returned granted_result) (manager o) [].
Proof.
  intros ask o Hasked Hallow Hremember Hword.
  assert (Ho : approvalMode m ≠ FULL_AUTO
               ∧ manager o = set_allowedCommands m
                               ({[ JsString.first_word c ]} ∪ allowedCommands m)).
  { revert Hasked. subst o. unfold checkPermission, command_action, on_string. simpl.
    case_bool_decide as Hmode; simpl; [done|].
    unfold checkBashExecute. fold ask. rewrite Hallow, Hremember.
    repeat case_match; simpl; done. }
  destruct Ho as [Hmode ->].
  unfold checkPermission, command_action, on_string. simpl.
  rewrite bool_decide_eq_false_2 by done.
  unfold checkBashExecute. simpl. rewrite Hword.
  rewrite bool_decide_eq_true_2 by set_solver. done.
Qed.

(** A remembered answer on a fetch is kept under the host name of the URL:
    every later URL of that host is fetched without a prompt. *)
Theorem remembered_url_covers_its_host promptFn promptFn'
    (m : DefaultPermissionManager) (u u' hostname : string) :
  let ask := prompt_action web_fetch None None (Some u) in
  let o := checkPermission promptFn URL_hostname m (url_action u) in
  URL_hostname u = Some hostname →
  URL_hostname u' = Some hostname →
  PromptDecision.allow (promptFn ask) = true →
  PromptDecision.remember (promptFn ask) = true →
  result o = Returned granted_result
  ∧ checkPermission promptFn' URL_hostname (manager o) (url_action u')
    = mk_outcome (Returned granted_result) (manager o) [].
Proof.
  intros ask o Hu Hu' Hallow Hremember. subst o ask.
  unfold checkPermission, url_action. simpl.
  case_bool_decide as Hmode; simpl.
  { rewrite bool_decide_eq_true_2 by done. split; reflexivity. }
  unfold checkWebFetch. simpl. rewrite Hu. simpl.
  case_bool_decide as Hin; simpl.
  { rewrite bool_decide_eq_false_2 by done. rewrite Hu'.
    rewrite bool_decide_eq_true_2 by done. split; reflexivity. }
  unfold decision_result. rewrite Hallow, Hremember. simpl.
  rewrite bool_decide_eq_false_2 by done. rewrite Hu'. simpl.
  rewrite bool_decide_eq_true_2 by set_solver. split; reflexivity.
Qed.


(** [addToAllowList] and the checks agree on the keys: what is added for a
    read, a command or a fetch is granted afterwards without a prompt (the
    empty string is not added). *)
Theorem added_entries_are_granted promptFn (m : DefaultPermissionManager) :
  (∀ p, p ≠ "" →
     let m' := addToAllowList URL_hostname m (file_action file_read p) in
     checkPermission promptFn URL_hostname m' (file_action file_read p)
     = mk_outcome (Returned granted_result) m' [])
  ∧ (∀ c, c ≠ "" →
       let m' := addToAllowList URL_hostname m (command_action c) in
       checkPermission promptFn URL_hostname m' (command_action c)
       = mk_outcome (Returned granted_result) m' [])
  ∧ (∀ u hostname, u ≠ "" → URL_hostname u = Some hostname →
       let m' := addToAllowList URL_hostname m (url_action u) in
       checkPermission promptFn URL_hostname m' (url_action u)
       = mk_outcome (Returned granted_result) m' []).
Proof.
  split_and!.
  - intros p Hp m'. subst m'. destruct p as [|a p]; [done|].
    unfold checkPermission, addToAllowList, file_action, on_string. simpl.
    case_bool_decide; [done|]. unfold checkFileRead.
    by rewrite isPathAllowed_member by (simpl; set_solver).
  - intros c Hc m'. subst m'. destruct c as [|a c]; [done|].
    unfold checkPermission, addToAllowList, command_action, on_string.
    cbn [PermissionAction.type PermissionAction.command JsString.truthy
         approvalMode set_allowedCommands].
    case_bool_decide; [done|]. unfold checkBashExecute.
    cbn [allowedCommands set_allowedCommands].
    by rewrite bool_decide_eq_true_2 by set_solver.
  - intros u hostname Hu Hhost m'. subst m'. destruct u as [|a u]; [done|].
    unfold checkPermission, addToAllowList, url_action.
    cbn [PermissionAction.type PermissionAction.url JsString.truthy].
    rewrite Hhost. cbn [approvalMode set_allowedUrls].
    case_bool_decide; [done|]. unfold checkWebFetch.
    cbn [mbind option_bind]. rewrite Hhost.
    cbn [allowedUrls set_allowedUrls].
    by rewrite bool_decide_eq_true_2 by set_solver.
Qed.

(** Over any series of checks the allow-lists only grow, and the mode and
    the working directory stay as the constructor set them: no check revokes
    an entry. *)
Theorem allow_lists_only_grow promptFn (actions : list PermissionAction.t)
    (m : DefaultPermissionManager) :
  let m' := after_checks promptFn URL_hostname actions m in
  allowedPaths m ⊆ allowedPaths m'
  ∧ allowedCommands m ⊆ allowedCommands m'
  ∧ allowedUrls m ⊆ allowedUrls m'
  ∧ approvalMode m' = approvalMode m
  ∧ workingDirectory m' = workingDirectory m.
Proof.
  revert m. induction actions as [|a actions IH]; intros m; simpl.
  { repeat split; set_solver. }
  destruct (checkPermission_grows promptFn m a) as (H1 & H2 & H3 & H4 & H5).
  destruct (IH (manager (checkPermission promptFn URL_hostname m a)))
    as (I1 & I2 & I3 & I4 & I5).
  split_and!; [by etrans..|congruence|congruence].
Qed.

(** A path that is read without a prompt stays so: after any series of
    checks, whatever the user answered in them, its read is still granted
    without a prompt. *)
Theorem allowed_paths_stay_allowed promptFn promptFn'
    (actions : list PermissionAction.t) (m : DefaultPermissionManager) (p : string) :
  isPathAllowed m p = true →
  let m' := after_checks promptFn URL_hostname actions m in
  checkPermission promptFn' URL_hostname m' (file_action file_read p)
  = mk_outcome (Returned granted_result) m' [].
Proof.
  intros Hp m'.
  assert (Hp' : isPathAllowed m' p = true).
  { subst m'. revert m Hp. induction actions as [|a actions IH]; intros m Hp; [done|].
    apply IH.
    destruct (checkPermission_grows promptFn m a) as (H1 & _ & _ & _ & H5).
    by apply (isPathAllowed_mono m). }
  unfold checkPermission, file_action, on_string. simpl.
  case_bool_decide; [done|]. unfold checkFileRead. by rewrite Hp'.
Qed.

(** A fetch fails closed: outside full-auto mode a URL that is missing or
    does not parse is denied with the reason [Invalid URL], the user is not
    asked and nothing is remembered. *)
Theorem unparsable_url_is_denied_without_prompt promptFn
    (m : DefaultPermissionManager) (a : PermissionAction.t) :
  approvalMode m ≠ FULL_AUTO →
  PermissionAction.type a = web_fetch →
  PermissionAction.url a ≫= URL_hostname = None →
  checkPermission promptFn URL_hostname m a
  = mk_outcome (Returned (PermissionResult.mk false (Some "Invalid URL"))) m [].
Proof.
  intros Hmode Hty Hurl. unfold checkPermission.
  rewrite bool_decide_eq_false_2 by done. rewrite Hty.
  unfold checkWebFetch. by rewrite Hurl.
Qed.

(** A command that starts with one of the one-word safe commands runs
    without a prompt in every mode, whatever follows the word: its
    arguments, a redirection or a second command. *)
Theorem safe_command_runs_whatever_follows promptFn
    (m : DefaultPermissionManager) (w rest : string) :
  w ∈ safeCommands →
  JsString.first_word w = w →
  checkPermission promptFn URL_hostname m (command_action (w +:+ " " +:+ rest))
  = mk_outcome (Returned granted_result) m [].
Proof.
  intros Hsafe Hword.
  assert (Hfirst : JsString.first_word (w +:+ " " +:+ rest) = w).
  { unfold safeCommands in Hsafe. rewrite elem_of_list_to_set in Hsafe.
    repeat (apply elem_of_cons in Hsafe as [->|Hsafe];
            [vm_compute in Hword; try discriminate Hword; by destruct rest|]).
    by apply elem_of_nil in Hsafe. }
  unfold checkPermission, command_action, on_string. simpl.
  case_bool_decide; [done|]. unfold checkBashExecute. rewrite Hfirst.
  case_bool_decide; [done|].
  by rewrite (bool_decide_eq_true_2 (w ∈ safeCommands)).
Qed.

End Laws.

Lemma remembered_read_is_not_asked_again_witness :
  let m := new SUGGEST "/work" in
  let o := checkPermission always_remember (λ _, None) m (file_action file_read "/etc/hosts") in
  result o = Returned granted_result
  ∧ checkPermission always_deny (λ _, None) (manager o) (file_action file_read "/etc/hosts")
    = mk_outcome (Returned granted_result) (manager o) [].
Proof.
  exact (remembered_read_is_not_asked_again (λ _, None) always_remember always_deny
           (new SUGGEST "/work") "/etc/hosts" eq_refl eq_refl).
Defined.

Lemma remembered_write_is_asked_again_in_suggest_mode_witness :
  let ask := prompt_action file_write (Some "/etc/hosts") None None in
  let m := new SUGGEST "/work" in
  let o := checkPermission always_remember (λ _, None) m (file_action file_write "/etc/hosts") in
  let o' := checkPermission always_deny (λ _, None) (manager o) (file_action file_write "/etc/hosts") in
  prompted o = [ask]
  ∧ "/etc/hosts" ∈ allowedPaths (manager o)
  ∧ prompted o' = (if bool_decide (approvalMode m = SUGGEST) then [ask] else [])
  ∧ (approvalMode m = AUTO_EDIT → result o' = Returned granted_result).
Proof.
  apply (remembered_write_is_asked_again_in_suggest_mode (λ _, None) always_remember always_deny
           (new SUGGEST "/work") "/etc/hosts"); [done|vm_compute; reflexivity|done|done].
Defined.

Lemma remembered_command_covers_its_first_word_witness :
  let m := new SUGGEST "/work" in
  let o := checkPermission always_remember (λ _, None) m (command_action "npm install") in
  checkPermission always_deny (λ _, None) (manager o)
    (command_action "npm publish --access public")
  = mk_outcome (Returned granted_result) (manager o) [].
Proof.
  apply (remembered_command_covers_its_first_word (λ _, None) always_remember always_deny
           (new SUGGEST "/work") "npm install" "npm publish --access public");
    vm_compute; reflexivity.
Defined.

Lemma remembered_url_covers_its_host_witness :
  let m := new SUGGEST "/work" in
  let o := checkPermission always_remember Scenarios.hostname m
             (url_action "https://example.com/docs") in
  result o = Returned granted_result
  ∧ checkPermission always_deny Scenarios.hostname (manager o)
      (url_action "https://example.com/admin/delete")
    = mk_outcome (Returned granted_result) (manager o) [].
Proof.
  apply (remembered_url_covers_its_host Scenarios.hostname always_remember always_deny
           (new SUGGEST "/work") "https://example.com/docs"
           "https://example.com/admin/delete" "example.com"); reflexivity.
Defined.

Lemma added_entries_are_granted_witness :
  let add := addToAllowList Scenarios.hostname (new SUGGEST "/work") in
  checkPermission always_deny Scenarios.hostname (add (file_action file_read "/etc/hosts"))
    (file_action file_read "/etc/hosts")
  = mk_outcome (Returned granted_result) (add (file_action file_read "/etc/hosts")) []
  ∧ checkPermission always_deny Scenarios.hostname (add (command_action "npm test"))
      (command_action "npm test")
    = mk_outcome (Returned granted_result) (add (command_action "npm test")) []
  ∧ checkPermission always_deny Scenarios.hostname
      (add (url_action "https://example.com/docs")) (url_action "https://example.com/docs")
    = mk_outcome (Returned granted_result) (add (url_action "https://example.com/docs")) [].
Proof.
  destruct (added_entries_are_granted Scenarios.hostname always_deny (new SUGGEST "/work"))
    as (Hread & Hcommand & Hurl).
  split_and!.
  - apply (Hread "/etc/hosts"). discriminate.
  - apply (Hcommand "npm test"). discriminate.
  - apply (Hurl "https://example.com/docs" "example.com"); [discriminate|reflexivity].
Defined.

Lemma allowed_paths_stay_allowed_witness :
  let m' := after_checks always_deny (λ _, None)
              [file_action file_write "/etc/hosts"; command_action "rm -rf build"]
              (new SUGGEST "/work") in
  checkPermission always_deny (λ _, None) m' (file_action file_read "/work/src/a.ts")
  = mk_outcome (Returned granted_result) m' [].
Proof.
  apply (allowed_paths_stay_allowed (λ _, None) always_deny always_deny
           [file_action file_write "/etc/hosts"; command_action "rm -rf build"]
           (new SUGGEST "/work") "/work/src/a.ts").
  vm_compute. reflexivity.
Defined.

Lemma unparsable_url_is_denied_without_prompt_witness :
  checkPermission always_remember Scenarios.hostname (new SUGGEST "/work")
    (url_action "example.com/docs")
  = mk_outcome (Returned (PermissionResult.mk false (Some "Invalid URL")))
      (new SUGGEST "/work") [].
Proof.
  apply (unparsable_url_is_denied_without_prompt Scenarios.hostname always_remember
           (new SUGGEST "/work") (url_action "example.com/docs")); [done|reflexivity..].
Defined.

Lemma safe_command_runs_whatever_follows_witness :
  checkPermission always_deny (λ _, None) (new SUGGEST "/work")
    (command_action ("cat" +:+ " " +:+ "/etc/shadow > /tmp/leak"))
  = mk_outcome (Returned granted_result) (new SUGGEST "/work") [].
Proof.
  apply (safe_command_runs_whatever_follows (λ _, None) always_deny
           (new SUGGEST "/work") "cat" "/etc/shadow > /tmp/leak");
    [vm_compute; reflexivity|reflexivity].
Defined.

End PermissionsLaws.

(** ** The shape of a run *)

Module AgentLaws.
Import Agent.

Section Laws.
Context {E : Type}.
Variable agent : Agent E.
Variable callbacks : AgentCallbacks E.

#[local] Abbreviation lookup_tool tc :=
  (find (λ t : Tool.t E, String.eqb (Tool.name t) (ToolCall.name tc)) (agent_tools agent)).

(** *** The stream of an answer *)

(** What [consume] does with a stream: it invokes [onText] and
    [onToolCallStart] only; the calls it collects are those it announces;
    and each assistant message it pushes holds the texts shown before the
    [done] that pushes it. *)
Lemma consume_shape (steps : list (E → StreamChunk.t * E)) (l : locals) (st : state E) :
  ∃ events new,
    trace (consume callbacks steps l st).2 = trace st ++ events
    ∧ Forall stream_callback events
    ∧ toolCalls (consume callbacks steps l st).1.2 = toolCalls l ++ announced events
    ∧ pushed (consume callbacks steps l st).1.2 = pushed l ++ new
    ∧ Forall (λ p : string * bool,
                ∃ texts, texts `prefix_of` shown events
                         ∧ p.1 = textContent l +:+ JsString.join texts) new.
Proof.
  revert l st. induction steps as [|step rest IH]; intros l st; simpl.
  { exists [], []. rewrite !app_nil_r. split_and!; done. }
  destruct (step (env st)) as [chunk e].
  set (st0 := mk_state (messages st) e (trace st)).
  assert (Hkeep : ∀ l', toolCalls l' = toolCalls l → textContent l' = textContent l →
            pushed l' = pushed l →
            ∃ events new,
              trace (consume callbacks rest l' st0).2 = trace st ++ events
              ∧ Forall stream_callback events
              ∧ toolCalls (consume callbacks rest l' st0).1.2
                = toolCalls l ++ announced events
              ∧ pushed (consume callbacks rest l' st0).1.2 = pushed l ++ new
              ∧ Forall (λ p : string * bool,
                          ∃ texts, texts `prefix_of` shown events
                                   ∧ p.1 = textContent l +:+ JsString.join texts) new).
  { intros l' Hc Ht Hp. destruct (IH l' st0) as (events & new & K1 & K2 & K3 & K4 & K5).
    exists events, new. rewrite K1, K3, K4, Hc, Hp. rewrite Ht in K5. done. }
  repeat case_match; subst; try (apply Hkeep; reflexivity).
  - (* text *)
    destruct (IH (mk_locals (textContent l +:+ s) (toolCalls l) (pushed l))
                (call (OnText s) (onText callbacks s) st0))
      as (events & new & K1 & K2 & K3 & K4 & K5).
    exists (Called (OnText s) :: events), new. rewrite K1, K3, K4. simpl.
    rewrite <- app_assoc. split_and!; try done.
    { by constructor. }
    eapply Forall_impl; [exact K5|]. intros p (texts & Hpre & Hp). simpl in Hp.
    exists (s :: texts). split; [by apply prefix_cons|].
    rewrite Hp. apply StringFacts.append_assoc.
  - (* tool_call *)
    destruct (IH (mk_locals (textContent l) (toolCalls l ++ [t]) (pushed l))
                (call (OnToolCallStart t) (onToolCallStart callbacks t) st0))
      as (events & new & K1 & K2 & K3 & K4 & K5).
    exists (Called (OnToolCallStart t) :: events), new. rewrite K1, K3, K4. simpl.
    rewrite <- !app_assoc. split_and!; try done. by constructor.
  - (* done, with a message *)
    destruct (IH (mk_locals (textContent l) (toolCalls l)
                    (pushed l ++ [(textContent l, (0 <? length (toolCalls l)))])) st0)
      as (events & new & K1 & K2 & K3 & K4 & K5).
    exists events, ((textContent l, (0 <? length (toolCalls l))) :: new).
    rewrite K1, K3, K4. simpl. rewrite <- app_assoc. split_and!; try done.
    constructor; [|exact K5].
    exists []. split; [apply prefix_nil|]. simpl. by rewrite StringFacts.append_nil_r.
  - (* error *)
    exists [], []. simpl. rewrite !app_nil_r. split_and!; done.
Qed.

Lemma consume_history (steps : list (E → StreamChunk.t * E)) (l : locals) (st : state E) :
  messages (consume callbacks steps l st).2 = messages st.
Proof.
  revert l st. induction steps as [|step rest IH]; intros l st; simpl; [reflexivity|].
  destruct (step (env st)) as [chunk e].
  repeat case_match; subst; try reflexivity; rewrite IH; reflexivity.
Qed.

(** What one completion does: a request, then the callbacks of the stream;
    it appends assistant messages only, each holding texts it has shown. *)
Lemma getCompletion_shape (st : state E) :
  let r := getCompletion agent callbacks st in
  ∃ events added,
    trace r.2 = trace st ++ Requested (messages st) (env st) :: events
    ∧ Forall stream_callback events
    ∧ messages r.2 = messages st ++ added
    ∧ Forall (λ m, Message.role m = assistant
                   ∧ ∃ texts, texts `prefix_of` shown events
                              ∧ Message.content m = JsString.join texts) added
    ∧ match r.1 with
      | Response finished proposals =>
          proposals = announced events ∧ finished = (length proposals =? 0)
      | Thrown _ => True
      end.
Proof.
  unfold getCompletion.
  match goal with
  | |- context [consume callbacks ?s ?l ?st0] =>
      pose proof (consume_shape s l st0) as (events & new & H1 & H2 & H3 & H4 & H5);
      pose proof (consume_history s l st0) as Hm;
      destruct (consume callbacks s l st0) as [[thrown l'] st']
  end.
  simpl in H1, H3, H4, H5, Hm.
  exists events, (assistant_messages l').
  assert (Hadded : Forall (λ m, Message.role m = assistant
                   ∧ ∃ texts, texts `prefix_of` shown events
                              ∧ Message.content m = JsString.join texts)
                     (assistant_messages l')).
  { unfold assistant_messages. rewrite H4. simpl. apply Forall_map.
    eapply Forall_impl; [exact H5|]. intros p (texts & Hpre & Hp). simpl.
    split; [done|]. exists texts. done. }
  destruct thrown; simpl; rewrite H1, Hm, <- app_assoc; split_and!; done.
Qed.

(** *** The dispatch of a call *)

Lemma find_registered (tc : ToolCall.t) (tool' : Tool.t E) :
  lookup_tool tc = Some tool' →
  tool' ∈ agent_tools agent ∧ Tool.name tool' = ToolCall.name tc.
Proof.
  intros Hfind. split.
  - apply list_elem_of_In. eapply find_some, Hfind.
  - apply find_some in Hfind as [_ Heq]. by apply String.eqb_eq.
Qed.

Lemma dispatch_shape (proposals : list ToolCall.t) (st : state E) (tc : ToolCall.t) :
  tc ∈ proposals →
  ∃ events,
    trace (dispatch agent callbacks st tc) = trace st ++ events
    ∧ Forall (dispatch_event agent callbacks proposals) events.
Proof.
  intros Hin. unfold dispatch.
  destruct (lookup_tool tc) as [tool'|] eqn:Hfind.
  2: { eexists. split; [reflexivity|]. by repeat constructor. }
  apply find_registered in Hfind as [Hreg Hname].
  unfold approval.
  destruct (onPermissionRequest callbacks) as [request|] eqn:Hrequest.
  - case_bool_decide as Hmode; simpl.
    + destruct (Tool.execute _ _ _ _) as [res e]. simpl.
      eexists. rewrite <- app_assoc. split; [reflexivity|].
      repeat (apply Forall_cons; split); try apply Forall_nil; simpl;
        rewrite ?Hrequest; eauto 10.
    + destruct (toolNeedsApproval _ _ _) eqn:Hneeds.
      * destruct (request tc (env st)) as [decision e]. simpl.
        assert (Hdanger : ToolCall.name tc ∈ dangerousTools).
        { rewrite AgentFacts.toolNeedsApproval_dangerous in Hneeds.
          apply bool_decide_eq_true_1 in Hneeds. by rewrite <- Hname. }
        destruct (PromptDecision.allow decision); simpl.
        -- destruct (Tool.execute _ _ _ _) as [res e']. simpl.
           eexists. rewrite <- !app_assoc. split; [reflexivity|].
           repeat (apply Forall_cons; split); try apply Forall_nil; simpl;
        rewrite ?Hrequest; eauto 10.
        -- eexists. rewrite <- !app_assoc. split; [reflexivity|].
           repeat (apply Forall_cons; split); try apply Forall_nil; simpl;
        rewrite ?Hrequest; eauto 10.
      * destruct (Tool.execute _ _ _ _) as [res e]. simpl.
        eexists. rewrite <- app_assoc. split; [reflexivity|].
        repeat (apply Forall_cons; split); try apply Forall_nil; simpl;
        rewrite ?Hrequest; eauto 10.
  - destruct (Tool.execute _ _ _ _) as [res e]. simpl.
    eexists. rewrite <- app_assoc. split; [reflexivity|].
    repeat (apply Forall_cons; split); try apply Forall_nil; simpl;
        rewrite ?Hrequest; eauto 10.
Qed.

Lemma executeToolCalls_shape (proposals toolCalls : list ToolCall.t) (st : state E) :
  toolCalls ⊆ proposals →
  ∃ events,
    trace (executeToolCalls agent callbacks toolCalls st) = trace st ++ events
    ∧ Forall (dispatch_event agent callbacks proposals) events.
Proof.
  revert st. induction toolCalls as [|tc rest IH]; intros st Hsub.
  { exists []. by rewrite app_nil_r. }
  destruct (dispatch_shape proposals st tc) as (ev1 & H1 & F1); [set_solver|].
  destruct (IH (dispatch agent callbacks st tc)) as (ev2 & H2 & F2); [set_solver|].
  exists (ev1 ++ ev2). unfold executeToolCalls in *. simpl.
  rewrite H2, H1, <- app_assoc. split; [done|]. by apply Forall_app.
Qed.

(** *** The loop *)

(** The events of the loop are those of its turns, one for each
    iteration. *)
Lemma loop_turns (fuel iterations : nat) (st : state E) :
  let r := loop agent callbacks fuel iterations st in
  ∃ turns,
    trace r.2 = trace st ++ concat turns
    ∧ iterations + length turns = r.1
    ∧ Forall (turn agent callbacks) turns.
Proof.
  revert iterations st. induction fuel as [|fuel IH]; intros iterations st; simpl.
  { exists []. simpl. rewrite app_nil_r. split_and!; [done|lia|done]. }
  destruct (iterations <? maxIterations) eqn:Hlt.
  2: { exists []. simpl. rewrite app_nil_r. split_and!; [done|lia|done]. }
  pose proof (getCompletion_shape st) as (events & added & H1 & H2 & _ & _ & H5).
  destruct (getCompletion agent callbacks st) as [[finished proposals|message] st1].
  - simpl in H1, H5. destruct H5 as [Hprop Hfin].
    assert (Hdone : ∃ turns,
              trace (call OnDone (onDone callbacks) st1) = trace st ++ concat turns
              ∧ iterations + length turns = S iterations
              ∧ Forall (turn agent callbacks) turns).
    { exists [Requested (messages st) (env st) :: events ++ [Called OnDone]].
      simpl. rewrite H1, app_nil_r, <- app_assoc. split_and!; [done|lia|].
      constructor; [|done]. exists (messages st), (env st), events, [Called OnDone].
      split_and!; [done..|]. by left. }
    destruct finished; [exact Hdone|].
    destruct (0 <? length proposals) eqn:Hlen; [|exact Hdone].
    destruct (executeToolCalls_shape proposals proposals st1) as (ev2 & H6 & F6); [done|].
    destruct (IH (S iterations) (executeToolCalls agent callbacks proposals st1))
      as (turns & H7 & H8 & F8).
    exists ((Requested (messages st) (env st) :: events ++ ev2) :: turns).
    simpl. rewrite H7, H6, H1, <- !app_assoc. simpl. split_and!; [done|lia|].
    constructor; [|done]. exists (messages st), (env st), events, ev2.
    split_and!; [done..|]. right. right. by rewrite <- Hprop.
  - simpl in H1. simpl.
    exists [Requested (messages st) (env st) :: events ++ [Called (OnError message)]].
    simpl. rewrite H1, app_nil_r, <- app_assoc. split_and!; [done|lia|].
    constructor; [|done].
    exists (messages st), (env st), events, [Called (OnError message)].
    split_and!; [done..|]. right. left. by exists message.
Qed.

(** The loop appends assistant and tool messages only. *)
Lemma loop_history (fuel iterations : nat) (st : state E) :
  ∃ added,
    messages (loop agent callbacks fuel iterations st).2 = messages st ++ added
    ∧ Forall (λ m, Message.role m = assistant ∨ Message.role m = tool) added.
Proof.
  revert iterations st. induction fuel as [|fuel IH]; intros iterations st; simpl.
  { exists []. by rewrite app_nil_r. }
  destruct (iterations <? maxIterations).
  2: { exists []. by rewrite app_nil_r. }
  pose proof (getCompletion_shape st) as (events & added & _ & _ & H3 & H4 & _).
  assert (Hadded : Forall (λ m, Message.role m = assistant ∨ Message.role m = tool) added).
  { eapply Forall_impl; [exact H4|]. intros m [? _]. by left. }
  destruct (getCompletion agent callbacks st) as [[finished proposals|message] st1];
    simpl in H3; [|by exists added].
  destruct finished; [by exists added|].
  destruct (0 <? length proposals); [|by exists added].
  destruct (AgentFacts.executeToolCalls_results agent callbacks proposals st1)
    as (results & H5 & _ & H6 & _).
  destruct (IH (S iterations) (executeToolCalls agent callbacks proposals st1))
    as (more & H7 & H8).
  exists (added ++ results ++ more). rewrite H7, H5, H3, <- !app_assoc.
  split; [done|]. rewrite !Forall_app. split_and!; [done| |done].
  eapply Forall_impl; [exact H6|]. intros m ?. by right.
Qed.

(** The loop ends with [onDone] or [onError], or at the cap. *)
Lemma loop_ends (fuel iterations : nat) (st : state E) :
  maxIterations - iterations ≤ fuel →
  let r := loop agent callbacks fuel iterations st in
  maxIterations ≤ r.1
  ∨ ∃ before cb,
      trace r.2 = trace st ++ before ++ [Called cb]
      ∧ (cb = OnDone ∨ ∃ message, cb = OnError message).
Proof.
  revert iterations st. induction fuel as [|fuel IH]; intros iterations st Hfuel; simpl.
  { left. lia. }
  destruct (iterations <? maxIterations) eqn:Hlt.
  2: { left. apply Nat.ltb_ge in Hlt. simpl. lia. }
  pose proof (getCompletion_shape st) as (events & added & H1 & _).
  destruct (getCompletion agent callbacks st) as [[finished proposals|message] st1];
    simpl in H1.
  - assert (Hdone : ∃ before cb,
        trace (call OnDone (onDone callbacks) st1) = trace st ++ before ++ [Called cb]
        ∧ (cb = OnDone ∨ ∃ message, cb = OnError message)).
    { exists (Requested (messages st) (env st) :: events), OnDone. simpl.
      rewrite H1, <- app_assoc. split; [reflexivity|by left]. }
    destruct finished; [by right|].
    destruct (0 <? length proposals); [|by right].
    destruct (AgentFacts.executeToolCalls_continues agent callbacks proposals st1)
      as (ev2 & H2 & _).
    destruct (IH (S iterations) (executeToolCalls agent callbacks proposals st1))
      as [Hcap|(before & cb & H3 & Hcb)]; [lia|by left|].
    right. exists (Requested (messages st) (env st) :: events ++ ev2 ++ before), cb.
    rewrite H3, H2, H1, <- !app_assoc. simpl.
    split; [|done]. rewrite <- !app_assoc. reflexivity.
  - right. exists (Requested (messages st) (env st) :: events), (OnError message).
    simpl. rewrite H1, <- app_assoc.
    split; [reflexivity|]. right. eauto.
Qed.

Lemma loop_at_least_once (fuel iterations : nat) (st : state E) :
  0 < fuel → iterations < maxIterations →
  S iterations ≤ (loop agent callbacks fuel iterations st).1.
Proof.
  intros Hfuel Hlt. destruct fuel as [|fuel]; [lia|]. simpl.
  destruct (iterations <? maxIterations) eqn:Hltb; [|apply Nat.ltb_ge in Hltb; lia].
  destruct (getCompletion agent callbacks st) as [[finished proposals|message] st1];
    [|simpl; lia].
  destruct finished; [simpl; lia|].
  destruct (0 <? length proposals); [|simpl; lia].
  apply (AgentFacts.loop_iterations agent callbacks). lia.
Qed.

(** *** The run *)

Lemma requests_of_turns (turns : list (list (Event E))) :
  Forall (turn agent callbacks) turns → requests (concat turns) = length turns.
Proof.
  assert (Hnone : ∀ (P : Event E → Prop) events,
            (∀ ev, P ev → is_request ev = false) → Forall P events →
            List.filter is_request events = []).
  { intros P events HP. induction 1 as [|ev events Hev _ IH]; simpl; [done|].
    by rewrite (HP ev Hev). }
  induction 1 as [|events turns Hturn _ IH]; [done|].
  unfold requests in *. simpl. rewrite List.filter_app, length_app, IH. f_equal.
  destruct Hturn as (history & e & stream & rest & -> & Hstream & Hrest). simpl.
  rewrite List.filter_app.
  rewrite (Hnone stream_callback stream); [|by intros [] | done].
  destruct Hrest as [->|[[message ->]|Hrest]]; [done..|].
  rewrite (Hnone (dispatch_event agent callbacks (announced stream)) rest);
    [done| |done].
  by intros [].
Qed.

Lemma elem_of_concat {A : Type} (x : A) (ls : list (list A)) :
  x ∈ concat ls ↔ ∃ l, x ∈ l ∧ l ∈ ls.
Proof.
  induction ls as [|l ls IH]; simpl.
  - split; [by intros ?%elem_of_nil|]. by intros (l & _ & ?%elem_of_nil).
  - rewrite elem_of_app, IH. split.
    + intros [Hx|(l' & Hx & Hl')]; [exists l|exists l']; split; try done.
      * apply list_elem_of_here.
      * by apply list_elem_of_further.
    + intros (l' & Hx & [->|Hl']%elem_of_cons); [by left|]. right. by exists l'.
Qed.

Lemma announced_elem (events : list (Event E)) (tc : ToolCall.t) :
  tc ∈ announced events ↔ Called (OnToolCallStart tc) ∈ events.
Proof.
  unfold announced. rewrite list_elem_of_omap. split.
  - intros (ev & Hin & Hev). by repeat case_match; simplify_eq.
  - intros Hin. by exists (Called (OnToolCallStart tc)).
Qed.

(** An event of a turn: an approval is asked for a dangerous tool only, and
    with the gate on; what is executed is registered and was announced. *)
Lemma in_turn (events : list (Event E)) (ev : Event E) :
  turn agent callbacks events → ev ∈ events →
  match ev with
  | Asked tc _ =>
      ToolCall.name tc ∈ dangerousTools
      ∧ ThiranConfig.approvalMode (config agent) ≠ FULL_AUTO
      ∧ is_Some (onPermissionRequest callbacks)
  | Executed tc _ =>
      Called (OnToolCallStart tc) ∈ events
      ∧ ∃ tool', tool' ∈ agent_tools agent ∧ Tool.name tool' = ToolCall.name tc
  | CapExceeded => False
  | _ => True
  end.
Proof.
  intros (history & e & stream & rest & -> & Hstream & Hrest) Hin.
  apply elem_of_cons in Hin as [->|Hin]; [done|].
  apply elem_of_app in Hin as [Hin|Hin].
  { rewrite Forall_forall in Hstream. apply Hstream in Hin. by destruct ev. }
  destruct Hrest as [->|[[message ->]|Hrest]].
  - by apply list_elem_of_singleton in Hin as ->.
  - by apply list_elem_of_singleton in Hin as ->.
  - rewrite Forall_forall in Hrest. apply Hrest in Hin.
    destruct ev as [| | |[]|]; simpl in Hin; try done.
    + by destruct Hin as (_ & ? & ? & ?).
    + destruct Hin as [Hin Hreg]. split; [|done].
      apply elem_of_cons. right. apply elem_of_app. left. by apply announced_elem.
Qed.

(** The events of a run: those of its turns, one for each iteration, and
    the report of the cap. *)
Lemma run_turns (userMessage : string) (st : state E) :
  let r := run agent callbacks userMessage st in
  ∃ turns,
    trace r.2 = trace st ++ concat turns
                  ++ (if maxIterations <=? r.1
                      then [CapExceeded; Called (OnError "Max iterations reached")]
                      else [])
    ∧ length turns = r.1
    ∧ Forall (turn agent callbacks) turns.
Proof.
  unfold run.
  match goal with
  | |- context [loop agent callbacks ?f ?i ?st0] =>
      pose proof (loop_turns f i st0) as (turns & H1 & H2 & H3);
      destruct (loop agent callbacks f i st0) as [iterations st1]
  end.
  simpl in H1, H2. exists turns.
  destruct (maxIterations <=? iterations) eqn:Hcap; cbn [fst snd trace call];
    rewrite Hcap, H1.
  - rewrite <- !app_assoc. done.
  - rewrite app_nil_r. done.
Qed.

(** A run only appends to the history: the message of the user, then
    assistant messages and tool messages; what the history held stays in
    place. *)
Theorem run_only_appends_to_the_history (userMessage : string) (st : state E) :
  ∃ added,
    messages (run agent callbacks userMessage st).2
    = messages st ++ Message.mk user userMessage None None :: added
    ∧ Forall (λ m, Message.role m = assistant ∨ Message.role m = tool) added.
Proof.
  unfold run.
  match goal with
  | |- context [loop agent callbacks ?f ?i ?st0] =>
      pose proof (loop_history f i st0) as (added & H1 & H2);
      destruct (loop agent callbacks f i st0) as [iterations st1]
  end.
  simpl in H1. exists added. split; [|done].
  destruct (maxIterations <=? iterations); simpl; by rewrite H1, <- app_assoc.
Qed.

(** Every run ends by telling its caller: the last thing a run does is to
    invoke [onDone] or [onError]. *)
Theorem run_ends_with_a_notification (userMessage : string) (st : state E) :
  ∃ before cb,
    trace (run agent callbacks userMessage st).2 = trace st ++ before ++ [Called cb]
    ∧ (cb = OnDone ∨ ∃ message, cb = OnError message).
Proof.
  unfold run.
  match goal with
  | |- context [loop agent callbacks ?f ?i ?st0] =>
      pose proof (loop_ends f i st0) as Hends;
      pose proof (AgentFacts.loop_continues agent callbacks f i st0) as (events & H1 & _);
      destruct (loop agent callbacks f i st0) as [iterations st1]
  end.
  simpl in Hends, H1.
  destruct (maxIterations <=? iterations) eqn:Hcap; simpl.
  - exists (events ++ [CapExceeded]), (OnError "Max iterations reached").
    rewrite H1, <- !app_assoc. split; [done|]. right. eauto.
  - apply Nat.leb_gt in Hcap. unfold maxIterations in *.
    destruct Hends as [Hle|Hends]; [lia|lia|done].
Qed.

(** The provider is asked once in each iteration, and a run has between
    one and twenty iterations. *)
Theorem requests_are_the_iterations (userMessage : string) (st : state E) :
  let r := run agent callbacks userMessage st in
  ∃ events,
    trace r.2 = trace st ++ events
    ∧ requests events = r.1
    ∧ 1 ≤ r.1 ≤ maxIterations.
Proof.
  intros r. destruct (run_turns userMessage st) as (turns & H1 & H2 & H3).
  fold r in H1, H2. eexists. split; [exact H1|]. split.
  - unfold requests. rewrite List.filter_app, length_app.
    fold (requests (concat turns)). rewrite (requests_of_turns turns H3), H2.
    destruct (maxIterations <=? r.1); simpl; lia.
  - split; [|apply (AgentFacts.run_cap_report agent callbacks userMessage st)].
    subst r. unfold run.
    match goal with
    | |- context [loop agent callbacks ?f ?i ?st0] =>
        pose proof (loop_at_least_once f i st0) as Hi;
        destruct (loop agent callbacks f i st0) as [iterations st1]
    end.
    simpl in Hi. unfold maxIterations in Hi.
    destruct (maxIterations <=? iterations); simpl; lia.
Qed.

(** Approval is asked for the dangerous tools only, and never in full-auto
    mode or in a run without the approval callback. *)
Theorem approval_is_asked_for_dangerous_tools_only (userMessage : string) (st : state E) :
  ∃ events,
    trace (run agent callbacks userMessage st).2 = trace st ++ events
    ∧ ∀ tc e, Asked tc e ∈ events →
        ToolCall.name tc ∈ dangerousTools
        ∧ ThiranConfig.approvalMode (config agent) ≠ FULL_AUTO
        ∧ is_Some (onPermissionRequest callbacks).
Proof.
  destruct (run_turns userMessage st) as (turns & H1 & _ & H3).
  eexists. split; [exact H1|]. intros tc e Hin.
  apply elem_of_app in Hin as [Hin|Hin].
  - apply elem_of_concat in Hin as (events & Hin & Hturn).
    rewrite Forall_forall in H3. exact (in_turn events _ (H3 _ Hturn) Hin).
  - destruct (maxIterations <=? _); [|by apply elem_of_nil in Hin].
    repeat (apply elem_of_cons in Hin as [Hin|Hin]; [done|]).
    by apply elem_of_nil in Hin.
Qed.

(** The agent executes what the provider has proposed and nothing else:
    every execution is that of a call announced with [onToolCallStart] in
    the run, by a tool registered under the name of the call. *)
Theorem executed_calls_were_proposed (userMessage : string) (st : state E) :
  ∃ events,
    trace (run agent callbacks userMessage st).2 = trace st ++ events
    ∧ ∀ tc e, Executed tc e ∈ events →
        Called (OnToolCallStart tc) ∈ events
        ∧ ∃ tool', tool' ∈ agent_tools agent ∧ Tool.name tool' = ToolCall.name tc.
Proof.
  destruct (run_turns userMessage st) as (turns & H1 & _ & H3).
  eexists. split; [exact H1|]. intros tc e Hin.
  apply elem_of_app in Hin as [Hin|Hin].
  - apply elem_of_concat in Hin as (events & Hin & Hturn).
    rewrite Forall_forall in H3.
    destruct (in_turn events _ (H3 _ Hturn) Hin) as [Hannounced Hreg].
    split; [|done]. apply elem_of_app. left.
    apply elem_of_concat. eauto.
  - destruct (maxIterations <=? _); [|by apply elem_of_nil in Hin].
    repeat (apply elem_of_cons in Hin as [Hin|Hin]; [done|]).
    by apply elem_of_nil in Hin.
Qed.

(** What a completion records is what it has shown: each assistant message
    it appends to the history holds the texts passed to [onText] since the
    request, up to the [done] that records the message, joined in order. *)
Theorem recorded_text_is_the_text_shown (st : state E) :
  let r := getCompletion agent callbacks st in
  ∃ events added,
    trace r.2 = trace st ++ Requested (messages st) (env st) :: events
    ∧ messages r.2 = messages st ++ added
    ∧ Forall (λ m, Message.role m = assistant
                   ∧ ∃ texts, texts `prefix_of` shown events
                              ∧ Message.content m = JsString.join texts) added.
Proof.
  intros r. destruct (getCompletion_shape st) as (events & added & H1 & _ & H3 & H4 & _).
  exists events, added. done.
Qed.

End Laws.

(** The system prompt of the history: [setSystemPrompt] leaves one system
    message, at the head, with the prompt given last, and keeps the other
    messages in their order. *)
Theorem setSystemPrompt_keeps_the_last_prompt {E : Type} (p q : string) (st : state E) :
  let others := filter (λ m, Message.role m ≠ system) (messages st) in
  getMessages (setSystemPrompt q (setSystemPrompt p st))
  = Message.mk system q None None :: others
  ∧ setSystemPrompt q (setSystemPrompt p st) = setSystemPrompt q st
  ∧ getMessages (setSystemPrompt q (clearHistory st)) = [Message.mk system q None None].
Proof.
  assert (Hidem : filter (λ m, Message.role m ≠ system)
                    (filter (λ m, Message.role m ≠ system) (messages st))
                  = filter (λ m, Message.role m ≠ system) (messages st)).
  { induction (messages st) as [|m l IH]; [done|].
    rewrite (filter_cons _ m l). case_decide as Hm; [|exact IH].
    rewrite filter_cons, decide_True by done. by rewrite IH. }
  unfold setSystemPrompt, getMessages, clearHistory. simpl.
  rewrite filter_cons, decide_False by (intros H; by apply H). simpl.
  rewrite Hidem. done.
Qed.

End AgentLaws.

(** ** What the adapters pass on and what they send *)

Module ProviderLaws.
Import Scenarios.

(** *** The map of the tool calls under construction *)

Lemma has_spec (m : OpenAI.pending_map) (index : Z) :
  OpenAI.has m index = true ↔ index ∈ m.*1.
Proof.
  induction m as [|[i p] m IH].
  - simpl. split; [done|by intros ?%elem_of_nil].
  - cbn [OpenAI.has]. rewrite fmap_cons, orb_true_iff, IH, elem_of_cons, Z.eqb_eq.
    simpl. split; (intros [?|?]; [by left|by right]).
Qed.

Lemma update_keys (m : OpenAI.pending_map) (index : Z)
    (f : OpenAI.Pending.t → OpenAI.Pending.t) :
  (OpenAI.update m index f).*1 = m.*1.
Proof.
  induction m as [|[i p] m IH]; [done|]. cbn [OpenAI.update].
  destruct (i =? index)%Z; [done|]. rewrite !fmap_cons. by rewrite IH.
Qed.

Lemma update_elem (m : OpenAI.pending_map) (index : Z)
    (f : OpenAI.Pending.t → OpenAI.Pending.t) (j : Z) (p : OpenAI.Pending.t) :
  NoDup m.*1 →
  (j, p) ∈ OpenAI.update m index f →
  (j ≠ index ∧ (j, p) ∈ m) ∨ (j = index ∧ ∃ p0, (index, p0) ∈ m ∧ p = f p0).
Proof.
  induction m as [|[i q] m IH]; [by intros _ ?%elem_of_nil|].
  cbn [OpenAI.update]. rewrite fmap_cons. intros [Hi Hnodup]%NoDup_cons.
  destruct (i =? index)%Z eqn:Heq.
  - apply Z.eqb_eq in Heq as ->.
    intros [[= -> ->]|Hin]%elem_of_cons.
    + right. split; [done|]. exists q. split; [apply list_elem_of_here|done].
    + left. split; [|by apply list_elem_of_further].
      intros ->. apply Hi. apply list_elem_of_fmap. by exists (index, p).
  - apply Z.eqb_neq in Heq.
    intros [[= -> ->]|Hin]%elem_of_cons.
    + left. split; [done|apply list_elem_of_here].
    + destruct (IH Hnodup Hin) as [[? ?]|[-> (p0 & ? & ->)]].
      * left. split; [done|by apply list_elem_of_further].
      * right. split; [done|]. exists p0. split; [by apply list_elem_of_further|done].
Qed.

Lemma update_arguments (m : OpenAI.pending_map) (index : Z)
    (f : OpenAI.Pending.t → OpenAI.Pending.t) (F : Z → string) (a : string) :
  (∀ p, OpenAI.Pending.arguments (f p) = OpenAI.Pending.arguments p +:+ a) →
  NoDup m.*1 →
  (∀ i p, (i, p) ∈ m → OpenAI.Pending.arguments p = F i) →
  ∀ i p, (i, p) ∈ OpenAI.update m index f →
         OpenAI.Pending.arguments p = F i +:+ (if decide (index = i) then a else "").
Proof.
  intros Hf Hnodup Hargs i p Hin.
  destruct (update_elem m index f i p Hnodup Hin) as [[Hne Hin']|[-> (p0 & Hin' & ->)]].
  - rewrite decide_False by done. rewrite StringFacts.append_nil_r. by apply Hargs.
  - rewrite decide_True by done. rewrite Hf. f_equal. by apply Hargs.
Qed.

Lemma update_keeps_arguments (m : OpenAI.pending_map) (index : Z)
    (f : OpenAI.Pending.t → OpenAI.Pending.t) (F : Z → string) :
  (∀ p, OpenAI.Pending.arguments (f p) = OpenAI.Pending.arguments p) →
  NoDup m.*1 →
  (∀ i p, (i, p) ∈ m → OpenAI.Pending.arguments p = F i) →
  ∀ i p, (i, p) ∈ OpenAI.update m index f → OpenAI.Pending.arguments p = F i.
Proof.
  intros Hf Hnodup Hargs i p Hin.
  rewrite (update_arguments m index f F "" ) with (i := i); try done.
  - case_decide; by rewrite StringFacts.append_nil_r.
  - intros p0. by rewrite Hf, StringFacts.append_nil_r.
Qed.

Lemma fragments_snoc (index : Z) (deltas : list OpenAI.ToolCallDelta.t)
    (d : OpenAI.ToolCallDelta.t) :
  JsString.join (OpenAI.fragments index (deltas ++ [d]))
  = JsString.join (OpenAI.fragments index deltas)
    +:+ (if decide (OpenAI.ToolCallDelta.index d = index)
         then OpenAI.or_empty (OpenAI.function_arguments d) else "").
Proof.
  unfold OpenAI.fragments. rewrite filter_app, map_app, StringFacts.join_app. f_equal.
  rewrite filter_cons, filter_nil. case_decide; simpl; [|done].
  apply StringFacts.append_nil_r.
Qed.

Lemma fragments_unseen (index : Z) (deltas : list OpenAI.ToolCallDelta.t) :
  index ∉ map OpenAI.ToolCallDelta.index deltas → OpenAI.fragments index deltas = [].
Proof.
  intros Hnot. unfold OpenAI.fragments.
  induction deltas as [|d deltas IH]; [done|].
  rewrite filter_cons. rewrite decide_False.
  - apply IH. intros Hin. apply Hnot. simpl. by apply list_elem_of_further.
  - intros Heq. apply Hnot. simpl. rewrite Heq. apply list_elem_of_here.
Qed.

(** One more fragment keeps the map assembled. *)
Lemma step_assembled (m : OpenAI.pending_map) (out : list StreamChunk.t)
    (deltas : list OpenAI.ToolCallDelta.t) (d : OpenAI.ToolCallDelta.t) :
  OpenAI.assembled m deltas →
  OpenAI.assembled (OpenAI.step_tool_call_delta (m, out) d).1 (deltas ++ [d]).
Proof.
  intros (Hnodup & Hkeys & Hargs).
  unfold OpenAI.step_tool_call_delta. cbv beta iota zeta.
  set (index := OpenAI.ToolCallDelta.index d).
  set (F := λ i, JsString.join (OpenAI.fragments i deltas)).
  (* the entry of the index is there *)
  set (m1 := if OpenAI.has m index then m
             else m ++ [(index, OpenAI.Pending.mk (OpenAI.or_empty (OpenAI.ToolCallDelta.id d))
                                  (OpenAI.or_empty (OpenAI.function_name d)) "")]).
  assert (H1 : NoDup m1.*1
               ∧ (∀ i, i ∈ m1.*1 ↔ i ∈ map OpenAI.ToolCallDelta.index (deltas ++ [d]))
               ∧ ∀ i p, (i, p) ∈ m1 → OpenAI.Pending.arguments p = F i).
  { subst m1. destruct (OpenAI.has m index) eqn:Hhas.
    - apply has_spec in Hhas. split_and!; [done| |done].
      intros i. rewrite map_app, elem_of_app, <- Hkeys. simpl.
      rewrite list_elem_of_singleton. split; [by left|]. by intros [?| ->].
    - assert (Hnot : index ∉ m.*1).
      { intros Hin%has_spec. by rewrite Hin in Hhas. }
      rewrite fmap_app. simpl. split_and!.
      + apply NoDup_app. split_and!; [done| |apply NoDup_singleton].
        intros i Hi ->%list_elem_of_singleton. done.
      + intros i. rewrite map_app, !elem_of_app, Hkeys. done.
      + intros i p [Hin|[= -> ->]%list_elem_of_singleton]%elem_of_app; [by apply Hargs|].
        subst F. simpl. rewrite fragments_unseen; [done|]. by rewrite <- Hkeys. }
  clearbody m1. destruct H1 as (Hnodup1 & Hkeys1 & Hargs1).
  (* the identifier and the name *)
  set (m2 := if truthy_str (OpenAI.ToolCallDelta.id d)
             then OpenAI.update m1 index
                    (λ p, OpenAI.Pending.mk (OpenAI.or_empty (OpenAI.ToolCallDelta.id d))
                            (OpenAI.Pending.name p) (OpenAI.Pending.arguments p))
             else m1).
  assert (H2 : m2.*1 = m1.*1 ∧ ∀ i p, (i, p) ∈ m2 → OpenAI.Pending.arguments p = F i).
  { subst m2. destruct (truthy_str _); [|done]. split; [apply update_keys|].
    by apply update_keeps_arguments. }
  clearbody m2. destruct H2 as (Hkeys2 & Hargs2).
  set (m3 := if truthy_str (OpenAI.function_name d)
             then OpenAI.update m2 index
                    (λ p, OpenAI.Pending.mk (OpenAI.Pending.id p)
                            (OpenAI.or_empty (OpenAI.function_name d))
                            (OpenAI.Pending.arguments p))
             else m2).
  assert (H3 : m3.*1 = m1.*1 ∧ ∀ i p, (i, p) ∈ m3 → OpenAI.Pending.arguments p = F i).
  { subst m3. destruct (truthy_str _); [|done]. split; [by rewrite update_keys|].
    apply update_keeps_arguments; [done| |done]. by rewrite Hkeys2. }
  clearbody m3. destruct H3 as (Hkeys3 & Hargs3).
  (* the arguments *)
  destruct (truthy_str (OpenAI.function_arguments d)) eqn:Htruthy; simpl.
  - split_and!.
    + by rewrite update_keys, Hkeys3.
    + intros i. by rewrite update_keys, Hkeys3.
    + intros i p Hin. rewrite fragments_snoc. fold index. fold (F i).
      eapply update_arguments in Hin; [exact Hin|done| |exact Hargs3].
      by rewrite Hkeys3.
  - split_and!.
    + by rewrite Hkeys3.
    + intros i. by rewrite Hkeys3.
    + intros i p Hin. rewrite fragments_snoc. fold index. fold (F i).
      rewrite (Hargs3 i p Hin).
      assert (Hempty : OpenAI.or_empty (OpenAI.function_arguments d) = "").
      { destruct (OpenAI.function_arguments d) as [[|? ?]|]; done. }
      rewrite Hempty. case_decide; by rewrite StringFacts.append_nil_r.
Qed.

Lemma fold_assembled (ds deltas : list OpenAI.ToolCallDelta.t) (m : OpenAI.pending_map)
    (out : list StreamChunk.t) :
  OpenAI.assembled m deltas →
  OpenAI.assembled (fold_left OpenAI.step_tool_call_delta ds (m, out)).1 (deltas ++ ds).
Proof.
  revert deltas m out. induction ds as [|d ds IH]; intros deltas m out Hm; cbn [fold_left].
  { by rewrite app_nil_r. }
  pose proof (step_assembled m out deltas d Hm) as Hstep.
  destruct (OpenAI.step_tool_call_delta (m, out) d) as [m' out'].
  rewrite (cons_middle d deltas ds), app_assoc. by apply IH.
Qed.

Lemma step_chunk_assembled (m : OpenAI.pending_map) (out : list StreamChunk.t)
    (deltas : list OpenAI.ToolCallDelta.t) (chunk : OpenAI.Chunk.t) :
  OpenAI.assembled m deltas →
  OpenAI.assembled (OpenAI.step_chunk (m, out) chunk).1
    (deltas ++ OpenAI.tool_call_deltas chunk).
Proof.
  intros Hm. unfold OpenAI.step_chunk, OpenAI.tool_call_deltas, OpenAI.delta_of.
  destruct (head (OpenAI.Chunk.choices chunk)) as [choice|]; [|by rewrite app_nil_r].
  destruct (OpenAI.Choice.delta choice) as [delta|]; [|by rewrite app_nil_r].
  destruct (OpenAI.Delta.tool_calls delta) as [ds|]; simpl.
  - match goal with
    | |- context [fold_left _ ds (m, ?o)] =>
        pose proof (fold_assembled ds deltas m o Hm) as Hfold;
        destruct (fold_left OpenAI.step_tool_call_delta ds (m, o)) as [m' out']
    end.
    by destruct (truthy_str _).
  - rewrite app_nil_r. by destruct (truthy_str _).
Qed.

(** A tool call that arrives in fragments is put together under its index:
    after any chunks of a response the map holds one entry for each index
    seen, with the argument texts addressed to the index, joined in the order
    of the stream; and the chunk that carries the finish reason ends its
    output with one completed call for each entry, then [done]. *)
Theorem tool_calls_are_assembled_by_index (chunks : list OpenAI.Chunk.t) :
  let st := fold_left OpenAI.step_chunk chunks ([], []) in
  OpenAI.assembled st.1 (concat (map OpenAI.tool_call_deltas chunks))
  ∧ ∀ chunk choice delta,
      head (OpenAI.Chunk.choices chunk) = Some choice →
      OpenAI.Choice.delta choice = Some delta →
      truthy_str (OpenAI.Choice.finish_reason choice) = true →
      let st' := OpenAI.step_chunk st chunk in
      ∃ out, st'.2 = out ++ map (λ ip, OpenAI.emit ip.2) st'.1 ++ [done_chunk].
Proof.
  split.
  - assert (Hgen : ∀ deltas m out, OpenAI.assembled m deltas →
              OpenAI.assembled (fold_left OpenAI.step_chunk chunks (m, out)).1
                (deltas ++ concat (map OpenAI.tool_call_deltas chunks))).
    { induction chunks as [|chunk chunks IH]; intros deltas m out Hm;
        cbn [fold_left map concat].
      { by rewrite app_nil_r. }
      pose proof (step_chunk_assembled m out deltas chunk Hm) as Hstep.
      destruct (OpenAI.step_chunk (m, out) chunk) as [m' out'].
      rewrite app_assoc. by apply IH. }
    apply (Hgen [] [] []). split_and!; [apply NoDup_nil_2|done|].
    by intros i p ?%elem_of_nil.
  - intros chunk choice delta Hhead Hdelta Hfinish. simpl.
    destruct (fold_left OpenAI.step_chunk chunks ([], [])) as [m out].
    unfold OpenAI.step_chunk. rewrite Hhead, Hdelta, Hfinish.
    destruct (OpenAI.Delta.tool_calls delta) as [ds|].
    + destruct (fold_left OpenAI.step_tool_call_delta ds _) as [m' out']. simpl. eauto.
    + simpl. eauto.
Qed.

Lemma tool_calls_are_assembled_by_index_witness :
  let st := fold_left OpenAI.step_chunk (VendorStream.events fragmented_openai) ([], []) in
  ∃ out, st.2 = out ++ map (λ ip, OpenAI.emit ip.2) st.1 ++ [done_chunk].
Proof.
  pose proof (tool_calls_are_assembled_by_index
                (removelast (VendorStream.events fragmented_openai))) as [_ Hfinish].
  eapply (Hfinish (List.last (VendorStream.events fragmented_openai) (OpenAI.Chunk.mk [])));
    reflexivity.
Defined.

(** *** The texts of a response *)

Lemma texts_app (l1 l2 : list StreamChunk.t) : texts (l1 ++ l2) = texts l1 ++ texts l2.
Proof. apply omap_app. Qed.

Lemma texts_completed (id name input : string) :
  texts [completed_tool_call id name input] = [].
Proof. unfold completed_tool_call. by destruct (Json.parse _). Qed.

Lemma texts_emitted (m : OpenAI.pending_map) : texts (map (λ ip, OpenAI.emit ip.2) m) = [].
Proof.
  induction m as [|[i p] m IH]; [done|].
  change (texts ([OpenAI.emit p] ++ map (λ ip, OpenAI.emit ip.2) m) = []).
  rewrite texts_app, IH. unfold OpenAI.emit. by rewrite texts_completed.
Qed.

Lemma texts_step_tool_call_delta (st : OpenAI.pending_map * list StreamChunk.t)
    (d : OpenAI.ToolCallDelta.t) :
  texts (OpenAI.step_tool_call_delta st d).2 = texts st.2.
Proof.
  destruct st as [m out]. unfold OpenAI.step_tool_call_delta.
  destruct (truthy_str (OpenAI.function_arguments d)); [|done].
  simpl. rewrite texts_app. simpl. apply app_nil_r.
Qed.

Lemma texts_step_chunk (st : OpenAI.pending_map * list StreamChunk.t)
    (chunk : OpenAI.Chunk.t) :
  texts (OpenAI.step_chunk st chunk).2
  = texts st.2 ++ option_list (OpenAI.text_of chunk).
Proof.
  destruct st as [m out]. unfold OpenAI.step_chunk, OpenAI.text_of, OpenAI.delta_of.
  destruct (head (OpenAI.Chunk.choices chunk)) as [choice|]; [|by rewrite app_nil_r].
  destruct (OpenAI.Choice.delta choice) as [delta|]; [|by rewrite app_nil_r].
  set (out1 := if truthy_str (OpenAI.Delta.content delta)
               then out ++ [text_chunk (OpenAI.or_empty (OpenAI.Delta.content delta))]
               else out).
  assert (H1 : texts out1
               = texts out ++ option_list (if truthy_str (OpenAI.Delta.content delta)
                                           then OpenAI.Delta.content delta else None)).
  { subst out1. destruct (OpenAI.Delta.content delta) as [[|a c]|]; simpl;
      rewrite ?app_nil_r; [done| |done].
    by rewrite texts_app. }
  clearbody out1. cbn [snd]. rewrite <- H1. clear H1.
  assert (H2 : ∀ ds st, texts (fold_left OpenAI.step_tool_call_delta ds st).2 = texts st.2).
  { induction ds as [|d ds IH]; intros st; [done|]. cbn [fold_left].
    by rewrite IH, texts_step_tool_call_delta. }
  destruct (OpenAI.Delta.tool_calls delta) as [ds|].
  - specialize (H2 ds (m, out1)).
    destruct (fold_left OpenAI.step_tool_call_delta ds (m, out1)) as [m' out2].
    simpl in H2. destruct (truthy_str _); simpl; [|done].
    by rewrite !texts_app, texts_emitted, H2, !app_nil_r.
  - destruct (truthy_str _); simpl; [|done].
    by rewrite !texts_app, texts_emitted, !app_nil_r.
Qed.

Lemma texts_step_event (st : option Anthropic.ToolUse.t * list StreamChunk.t)
    (event : Anthropic.Event) :
  texts (Anthropic.step_event st event).2
  = texts st.2 ++ option_list (Anthropic.text_of event).
Proof.
  destruct st as [u out].
  destruct event as [[|]|[| |]| | |]; simpl; rewrite ?app_nil_r; try done.
  - by rewrite texts_app.
  - destruct u; simpl; [|done]. rewrite texts_app. simpl. apply app_nil_r.
  - destruct u; simpl; [|done]. by rewrite texts_app, texts_completed, app_nil_r.
  - rewrite texts_app. simpl. apply app_nil_r.
Qed.

(** Text passes through the adapters unchanged: the texts of the stream of
    [chat] are the texts of the response, each as it came and in their
    order, also when the response fails in the end. *)
Theorem text_passes_through_in_order :
  (∀ response : VendorStream.t OpenAI.Chunk.t,
     texts (OpenAI.chat response) = omap OpenAI.text_of (VendorStream.events response))
  ∧ (∀ response : VendorStream.t Anthropic.Event,
       texts (Anthropic.chat response)
       = omap Anthropic.text_of (VendorStream.events response)).
Proof.
  assert (Homap : ∀ {A} (f : A → option string) (l : list A) (a : A),
            omap f (l ++ [a]) = omap f l ++ option_list (f a)).
  { intros A f l a. rewrite omap_app. simpl. by destruct (f a). }
  split.
  - intros [events failure]. unfold OpenAI.chat. simpl.
    assert (H : texts (fold_left OpenAI.step_chunk events ([], [])).2
                = omap OpenAI.text_of events).
    { induction events as [|chunk events IH] using rev_ind; [done|].
      by rewrite fold_left_app, Homap, <- IH, <- texts_step_chunk. }
    destruct (fold_left OpenAI.step_chunk events ([], [])) as [m out]. simpl in H.
    destruct failure; [|done]. rewrite texts_app, H. apply app_nil_r.
  - intros [events failure]. unfold Anthropic.chat. simpl.
    assert (H : texts (fold_left Anthropic.step_event events (None, [])).2
                = omap Anthropic.text_of events).
    { induction events as [|event events IH] using rev_ind; [done|].
      by rewrite fold_left_app, Homap, <- IH, <- texts_step_event. }
    destruct (fold_left Anthropic.step_event events (None, [])) as [u out]. simpl in H.
    destruct failure; [|done]. rewrite texts_app, H. apply app_nil_r.
Qed.

(** *** The messages of a request *)

Lemma fold_push {A B : Type} (f : A → list B) (l : list A) (init : list B) :
  fold_left (λ result a, result ++ f a) l init = init ++ concat (map f l).
Proof.
  revert init. induction l as [|a l IH]; intros init; simpl; [by rewrite app_nil_r|].
  by rewrite IH, app_assoc.
Qed.

Lemma concat_map_filter {B : Type} (f : Message.t → list B) (l : list Message.t) :
  (∀ m, Message.role m = system → f m = []) →
  concat (map f (filter (λ m, Message.role m ≠ system) l)) = concat (map f l).
Proof.
  intros Hf. induction l as [|m l IH]; [done|].
  rewrite filter_cons. case_decide as Hm; simpl; [by rewrite IH|].
  rewrite IH, Hf; [done|]. by destruct (decide (Message.role m = system)).
Qed.


End ProviderLaws.

(** ** The stream and the identifiers of the Ollama adapter *)

Module OllamaLaws.
Import Ollama.

(** *** The local models *)

Lemma before_colon_idem (s : string) : before_colon (before_colon s) = before_colon s.
Proof.
  induction s as [|a s IH]; [done|]. simpl.
  destruct (JsString.byte a =? 58)%N eqn:Ha; [done|]. simpl. by rewrite Ha, IH.
Qed.

(** [isModelAvailable] looks at the name before the tag only: a model is
    reported available as soon as a local model has its base name, whatever
    the two tags are. *)
Theorem availability_ignores_the_tag (localModels : list string) (model : string) :
  isModelAvailable localModels model
  = existsb (λ m, String.eqb (before_colon model) (before_colon m)) localModels.
Proof.
  unfold isModelAvailable. induction localModels as [|m l IH]; [done|]. simpl.
  rewrite IH. f_equal.
  destruct (String.eqb_spec (before_colon model) (before_colon m)) as [Heq|Hne].
  { apply orb_true_r. }
  rewrite orb_false_r. apply orb_false_iff. split.
  - apply String.eqb_neq. intros ->. done.
  - apply String.eqb_neq. intros Hm. apply Hne. by rewrite <- Hm, before_colon_idem.
Qed.

(** *** The identifiers of the extracted calls *)

Lemma after_last_found (c : ascii) (a d : string) :
  JsString.after_last c d = (d, false) →
  JsString.after_last c (a +:+ String c d) = (d, true).
Proof.
  intros Hd. induction a as [|x a IH]; simpl.
  - by rewrite Hd, Ascii.eqb_refl.
  - change (String.append a (String c d)) with (a +:+ String c d). by rewrite IH.
Qed.

Lemma after_last_pretty_N_go (x : N) (s : string) :
  JsString.after_last "_" s = (s, false) →
  JsString.after_last "_" (pretty_N_go x s) = (pretty_N_go x s, false).
Proof.
  revert s. induction (N.lt_wf_0 x) as [x _ IH]; intros s Hs.
  assert (x = 0 ∨ 0 < x)%N as [->|?] by lia.
  - by rewrite pretty_N_go_0.
  - rewrite pretty_N_go_step by done. apply IH.
    { by apply N.div_lt. }
    simpl. rewrite Hs. unfold pretty_N_char. by repeat case_match.
Qed.

Lemma after_last_pretty (k : nat) :
  JsString.after_last "_" (pretty k) = (pretty k, false).
Proof.
  unfold pretty, pretty_nat, pretty, pretty_N. case_decide; [done|].
  by apply after_last_pretty_N_go.
Qed.

Section Ids.
Variable now : nat → N.

(** The identifier of the call of index [k]. *)
#[local] Abbreviation id_at k :=
  ("ollama_" +:+ pretty (now k%nat) +:+ "_" +:+ pretty k%nat) (only parsing).

Lemma id_at_inj (j k : nat) : id_at j = id_at k → j = k.
Proof.
  intros Heq.
  assert (Hlast : ∀ i, (JsString.after_last "_" (id_at i)).1 = pretty i).
  { intros i.
    rewrite <- (StringFacts.append_assoc "ollama_" (pretty (now i))).
    change ("_" +:+ pretty i) with (String "_" (pretty i)).
    by rewrite after_last_found by apply after_last_pretty. }
  apply (inj pretty). etrans; [symmetry; apply (Hlast j)|]. rewrite Heq. apply Hlast.
Qed.

(** Every call holds the identifier of its index. *)
#[local] Abbreviation numbered calls :=
  (∀ k tc, calls !! k = Some tc → ToolCall.id tc = id_at k) (only parsing).

Lemma push_numbered (calls : list ToolCall.t) (name : string) (args : Json.value) :
  numbered calls → numbered (calls ++ [ToolCall.mk (new_id now calls) name args]).
Proof.
  intros Hcalls k tc Hk. apply lookup_snoc_Some in Hk as [[_ Hk]|[-> <-]].
  - by apply Hcalls.
  - reflexivity.
Qed.

Lemma push_tool_block_numbered (toolNames : gset string) (calls : list ToolCall.t)
    (capture : string) :
  numbered calls → numbered (push_tool_block now toolNames calls capture).
Proof.
  intros Hcalls. unfold push_tool_block.
  repeat case_match; try done; by apply push_numbered.
Qed.

Lemma push_named_numbered (toolNames : gset string) (calls : list ToolCall.t)
    (captures : string * string) :
  numbered calls → numbered (push_named now toolNames calls captures).
Proof.
  intros Hcalls. unfold push_named.
  repeat case_match; try done; by apply push_numbered.
Qed.

Lemma fold_numbered {C : Type} (push : list ToolCall.t → C → list ToolCall.t)
    (candidates : list C) (calls : list ToolCall.t) :
  (∀ acc c, numbered acc → numbered (push acc c)) →
  numbered calls → numbered (fold_left push candidates calls).
Proof.
  intros Hpush. revert calls.
  induction candidates as [|c candidates IH]; intros calls Hcalls; [done|].
  simpl. apply IH. by apply Hpush.
Qed.

(** The calls extracted from one answer have identifiers that differ from
    one another, whatever the clock returns: the identifier of a call ends
    with its index among the calls. *)
Theorem extracted_calls_have_distinct_identifiers {E : Type} (response : string)
    (tools : list (Tool.t E)) :
  NoDup (map ToolCall.id (extractToolCalls now response tools)).
Proof.
  assert (Hnum : numbered (extractToolCalls now response tools)).
  { unfold extractToolCalls.
    apply fold_numbered; [intros acc c Hacc; by apply push_named_numbered|].
    apply fold_numbered; [intros acc c Hacc; by apply push_named_numbered|].
    apply fold_numbered; [intros acc c Hacc; by apply push_tool_block_numbered|].
    intros k tc Hk. by rewrite lookup_nil in Hk. }
  apply NoDup_alt. intros j k id Hj Hk.
  rewrite list_lookup_fmap in Hj, Hk.
  destruct (extractToolCalls now response tools !! j) as [tcj|] eqn:Ej; [|done].
  destruct (extractToolCalls now response tools !! k) as [tck|] eqn:Ek; [|done].
  simpl in Hj, Hk. apply id_at_inj.
  rewrite <- (Hnum j tcj Ej), <- (Hnum k tck Ek). congruence.
Qed.

End Ids.

(** *** The stream of [chat] *)

Lemma lines_app (a b : string) :
  JsString.lines (a +:+ b)
  = let '(l1, r1) := JsString.lines a in
    let '(l2, r2) := JsString.lines (r1 +:+ b) in
    (l1 ++ l2, r2).
Proof.
  induction a as [|c a IH].
  { change (JsString.lines b = let '(l2, r2) := JsString.lines b in (l2, r2)).
    by destruct (JsString.lines b). }
  change (String c a +:+ b) with (String c (a +:+ b)). cbn [JsString.lines].
  rewrite IH. destruct (JsString.lines a) as [l1 r1].
  destruct (JsString.byte c =? 10)%N eqn:Hc.
  - by destruct (JsString.lines (r1 +:+ b)).
  - destruct l1 as [|l l1].
    + change (String c r1 +:+ b) with (String c (r1 +:+ b)). cbn [JsString.lines].
      destruct (JsString.lines (r1 +:+ b)) as [l2 r2]. rewrite Hc. by destruct l2.
    + by destruct (JsString.lines (r1 +:+ b)).
Qed.

Section Stream.
Context {E : Type}.
Variable now : nat → N.
Variable String_of : Json.value → string.

#[local] Abbreviation on_read := (on_read String_of).
#[local] Abbreviation on_line := (on_line String_of).

Lemma on_read_app (st : string * (string * list StreamChunk.t)) (a b : string) :
  on_read (on_read st a) b = on_read st (a +:+ b).
Proof.
  destruct st as [buffer progress]. unfold Ollama.on_read.
  rewrite <- StringFacts.append_assoc, (lines_app (buffer +:+ a) b).
  destruct (JsString.lines (buffer +:+ a)) as [l1 r1].
  destruct (JsString.lines (r1 +:+ b)) as [l2 r2].
  by rewrite fold_left_app.
Qed.

Lemma reads_joined (chunks : list string) (progress : string * list StreamChunk.t) :
  fold_left on_read chunks ("", progress) = on_read ("", progress) (JsString.join chunks).
Proof.
  induction chunks as [|c chunks IH] using rev_ind; [done|].
  rewrite fold_left_app, IH. cbn [fold_left]. rewrite on_read_app.
  rewrite StringFacts.join_app. cbn [JsString.join foldr].
  by rewrite StringFacts.append_nil_r.
Qed.

Lemma on_line_texts (st : string * list StreamChunk.t) (line : string) :
  Forall (λ c, StreamChunk.type c = text) st.2 →
  Forall (λ c, StreamChunk.type c = text) (on_line st line).2.
Proof.
  destruct st as [full out]. intros Hout. unfold Ollama.on_line, on_json.
  repeat case_match; simplify_eq/=; try done.
  apply Forall_app. split; [done|]. by repeat constructor.
Qed.

Lemma on_read_texts (st : string * (string * list StreamChunk.t)) (value : string) :
  Forall (λ c, StreamChunk.type c = text) st.2.2 →
  Forall (λ c, StreamChunk.type c = text) (on_read st value).2.2.
Proof.
  destruct st as [buffer progress]. unfold Ollama.on_read.
  destruct (JsString.lines (buffer +:+ value)) as [ls last]. simpl.
  revert progress. induction ls as [|l ls IH]; intros progress Hp; [done|].
  simpl. apply IH. by apply on_line_texts.
Qed.

Lemma reads_texts (chunks : list string) (st : string * (string * list StreamChunk.t)) :
  Forall (λ c, StreamChunk.type c = text) st.2.2 →
  Forall (λ c, StreamChunk.type c = text) (fold_left on_read chunks st).2.2.
Proof.
  revert st. induction chunks as [|c chunks IH]; intros st Hst; [done|].
  simpl. apply IH. by apply on_read_texts.
Qed.

Lemma one_terminal (l : list StreamChunk.t) (c : StreamChunk.t) :
  is_terminal c = true →
  Forall (λ c, is_terminal c = false) l →
  ends_with_one_terminal (l ++ [c]) = true.
Proof.
  intros Hc Hl. unfold ends_with_one_terminal. rewrite rev_app_distr. simpl.
  rewrite Hc. simpl. apply forallb_forall. intros x Hx%in_rev%list_elem_of_In.
  rewrite Forall_forall in Hl. by rewrite Hl.
Qed.

(** The stream of the Ollama adapter keeps the contract of a stream on every
    response: it ends with [done] or with [error], and holds no other
    terminal event; a response that fails yields the texts of its complete
    lines and the error, and no tool call. *)
Theorem ollama_stream_ends_with_one_terminal (response : VendorStream.t string)
    (tools : list (Tool.t E)) :
  ends_with_one_terminal (chat now String_of response tools) = true
  ∧ (is_Some (VendorStream.failure response) →
     ∀ c, c ∈ chat now String_of response tools →
          StreamChunk.type c = text ∨ StreamChunk.type c = error).
Proof.
  unfold chat.
  pose proof (reads_texts (VendorStream.events response) ("", ("", []))
                (Forall_nil_2 _)) as Htexts.
  destruct (fold_left on_read (VendorStream.events response) ("", ("", [])))
    as [buffer progress].
  simpl in Htexts. destruct (VendorStream.failure response) as [message|].
  - split.
    + apply one_terminal; [done|].
      eapply Forall_impl; [exact Htexts|]. intros c Hc. unfold is_terminal. by rewrite Hc.
    + intros _ c [Hc| ->%list_elem_of_singleton]%elem_of_app; [left|by right].
      rewrite Forall_forall in Htexts. by apply Htexts.
  - split; [|by intros [? ?]].
    pose proof (on_line_texts progress buffer Htexts) as Hlast.
    destruct (on_line progress buffer) as [fullResponse out]. simpl in Hlast.
    rewrite app_assoc. apply one_terminal; [done|].
    apply Forall_app. split.
    + eapply Forall_impl; [exact Hlast|]. intros c Hc. unfold is_terminal. by rewrite Hc.
    + apply Forall_map. by apply Forall_true.
Qed.

(** The stream does not depend on how the network cuts the body of the
    response into reads: it is the stream of the whole body read at once. *)
Theorem ollama_stream_ignores_the_reads (chunks : list string) (failure : option string)
    (tools : list (Tool.t E)) :
  chat now String_of (VendorStream.mk chunks failure) tools
  = chat now String_of (VendorStream.mk [JsString.join chunks] failure) tools.
Proof.
  unfold chat. simpl. by rewrite reads_joined.
Qed.

End Stream.

Lemma ollama_stream_ends_with_one_terminal_witness :
  let stream := chat (λ _, 0%N) (λ _, "") (VendorStream.mk ["{"] (Some "fetch failed"))
                  ([] : list (Tool.t unit)) in
  stream = [error_chunk "fetch failed"]
  ∧ (StreamChunk.type (error_chunk "fetch failed") = text
     ∨ StreamChunk.type (error_chunk "fetch failed") = error).
Proof.
  split; [vm_compute; reflexivity|].
  apply (ollama_stream_ends_with_one_terminal (λ _, 0%N) (λ _, "")
           (VendorStream.mk ["{"] (Some "fetch failed")) ([] : list (Tool.t unit)));
    [by eexists|vm_compute; apply list_elem_of_here].
Defined.

End OllamaLaws.

(** ** The edit tool *)

Module EditFileFacts.
Import EditFile.

(** *** Occurrences of a text *)

Lemma prefix_drop (p s : string) :
  String.prefix p s = true → s = p +:+ JsString.string_drop (String.length p) s.
Proof.
  revert s. induction p as [|a p IH]; intros s Hp; [by destruct s|].
  destruct s as [|b s]; [done|]. simpl in Hp.
  destruct (ascii_dec a b) as [->|]; [|done].
  change (String b s = String b (p +:+ JsString.string_drop (String.length p) s)).
  f_equal. by apply IH.
Qed.

Lemma prefix_nonempty (sep : string) : sep ≠ "" → String.prefix sep "" = false.
Proof. by destruct sep. Qed.

(** The first occurrence cuts the text in three. *)
Lemma split_first_correct (needle s before after : string) :
  JsString.split_first needle s = Some (before, after) →
  s = before +:+ needle +:+ after.
Proof.
  revert before. induction s as [|a s IH]; intros before;
    rewrite OllamaFacts.split_first_unfold.
  - destruct (String.prefix needle "") eqn:Hp; [|done].
    intros [= <- <-]. by apply prefix_drop.
  - destruct (String.prefix needle (String a s)) eqn:Hp.
    + intros [= <- <-]. by apply prefix_drop.
    + destruct (JsString.split_first needle s) as [[b a']|]; [|done].
      intros [= <- <-].
      change (String a s = String a (b +:+ needle +:+ a')). f_equal. by apply IH.
Qed.

Lemma split_from_drop (sep : string) (k : nat) (s : string) :
  sep ≠ "" →
  JsString.split_from sep k s = JsString.split_from sep 0 (JsString.string_drop k s).
Proof.
  intros Hsep. destruct sep as [|c sep]; [done|].
  revert s. induction k as [|k IH]; intros s; [by destruct s|].
  destruct s as [|a s]; [done|]. apply IH.
Qed.

Lemma count_from_drop (sep : string) (k : nat) (s : string) :
  sep ≠ "" →
  JsString.count_from sep k s = JsString.count_from sep 0 (JsString.string_drop k s).
Proof.
  intros Hsep. destruct sep as [|c sep]; [done|].
  revert s. induction k as [|k IH]; intros s; [by destruct s|].
  destruct s as [|a s]; [done|]. apply IH.
Qed.

Lemma drop_after_prefix (sep : string) (a : ascii) (s : string) :
  String.prefix sep (String a s) = true → sep ≠ "" →
  JsString.string_drop (String.length sep - 1) s
  = JsString.string_drop (String.length sep) (String a s).
Proof.
  intros _ Hsep. destruct sep as [|c sep]; [done|]. simpl. by rewrite Nat.sub_0_r.
Qed.

(** [split] and the count of the occurrences, by the first occurrence. *)
Lemma split_unfold (sep s : string) :
  sep ≠ "" →
  JsString.split sep s
  = match JsString.split_first sep s with
    | Some (before, after) => before :: JsString.split sep after
    | None => [s]
    end.
Proof.
  intros Hsep. unfold JsString.split.
  induction s as [|a s IH]; rewrite OllamaFacts.split_first_unfold.
  - by destruct sep.
  - cbn [JsString.split_from].
    destruct (String.prefix sep (String a s)) eqn:Hp.
    + rewrite split_from_drop, (drop_after_prefix sep a s) by done.
      by destruct (JsString.split_from sep 0
                     (JsString.string_drop (String.length sep) (String a s))).
    + destruct (JsString.split_from sep 0 s) as [piece pieces].
      destruct (JsString.split_first sep s) as [[b a']|]; by simplify_eq.
Qed.

Lemma count_unfold (sep s : string) :
  sep ≠ "" →
  JsString.count_from sep 0 s
  = match JsString.split_first sep s with
    | Some (before, after) => S (JsString.count_from sep 0 after)
    | None => 0
    end.
Proof.
  intros Hsep.
  induction s as [|a s IH]; rewrite OllamaFacts.split_first_unfold.
  - by destruct sep.
  - cbn [JsString.count_from].
    destruct (String.prefix sep (String a s)) eqn:Hp.
    + by rewrite count_from_drop, (drop_after_prefix sep a s).
    + rewrite IH. by destruct (JsString.split_first sep s) as [[b a']|].
Qed.

Lemma split_nonempty (sep s : string) : JsString.split sep s ≠ [].
Proof. unfold JsString.split. by destruct (JsString.split_from sep 0 s). Qed.

Lemma join_with_cons (sep piece : string) (pieces : list string) :
  pieces ≠ [] →
  JsString.join_with sep (piece :: pieces)
  = piece +:+ sep +:+ JsString.join_with sep pieces.
Proof. by destruct pieces. Qed.

(** What is after the first occurrence is shorter than the text. *)
Lemma split_first_shorter (sep s before after : string) :
  sep ≠ "" → JsString.split_first sep s = Some (before, after) →
  String.length s
  = String.length before + String.length sep + String.length after
  ∧ String.length after < String.length s.
Proof.
  intros Hsep Hs. apply split_first_correct in Hs as ->.
  rewrite !StringFacts.length_append. destruct sep; [done|]. simpl. lia.
Qed.

(** The text after the replacement of all the occurrences: each of the
    counted occurrences gives way to the new text. *)
Lemma replace_all_length (old new s : string) :
  old ≠ "" →
  String.length (JsString.join_with new (JsString.split old s))
  + JsString.count_from old 0 s * String.length old
  = String.length s + JsString.count_from old 0 s * String.length new.
Proof.
  intros Hold. remember (String.length s) as n eqn:Hn. revert s Hn.
  induction (lt_wf n) as [n _ IH]. intros s ->.
  rewrite split_unfold, count_unfold by done.
  destruct (JsString.split_first old s) as [[before after]|] eqn:Hs.
  - destruct (split_first_shorter old s before after Hold Hs) as [Hlen Hlt].
    rewrite join_with_cons by apply split_nonempty.
    rewrite !StringFacts.length_append, Hlen.
    specialize (IH (String.length after) ltac:(lia) after eq_refl). simpl. lia.
  - simpl. rewrite StringFacts.append_nil_r. lia.
Qed.

Lemma substitution_plain (matched before after replacement : string) :
  JsString.plain replacement = true →
  JsString.substitution matched before after replacement = replacement.
Proof.
  induction replacement as [|a r IH]; [done|]. simpl.
  intros [Ha Hr]%andb_prop. apply negb_true_iff in Ha. rewrite Ha. by rewrite IH.
Qed.

Lemma countOccurrences_Some (content old : string) (n : nat) :
  countOccurrences content old = Some n →
  old ≠ "" ∧ n = JsString.count_from old 0 content.
Proof.
  unfold countOccurrences. destruct old; [done|]. by intros [= <-].
Qed.

(** *** The edit *)

Section Execute.
Variable absolute : string → string → string.


(** A text that occurs once is replaced where it stands: the file holds
    what was before the occurrence, the new text, and what was after it.
    The new text is taken as it is when it holds no dollar or when
    [replace_all] is set; without [replace_all], [replace] expands the
    patterns that start with a dollar in it. *)
Theorem unique_occurrence_is_replaced_in_place (filePath oldString newString : string)
    (replaceAll : bool) (workingDirectory : string) (files : gmap string string)
    (content : string) :
  files !! absolute workingDirectory filePath = Some content →
  countOccurrences content oldString = Some 1 →
  JsString.plain newString = true ∨ replaceAll = true →
  ∃ before after message,
    JsString.split_first oldString content = Some (before, after)
    ∧ content = before +:+ oldString +:+ after
    ∧ execute absolute filePath oldString newString replaceAll workingDirectory files
      = Some (success message,
              <[absolute workingDirectory filePath := before +:+ newString +:+ after]> files).
Proof.
  intros Hfile Hcount Hnew.
  destruct (countOccurrences_Some _ _ _ Hcount) as [Hold Hone].
  rewrite count_unfold in Hone by done.
  destruct (JsString.split_first oldString content) as [[before after]|] eqn:Hfirst;
    [|done].
  injection Hone as Hrest. symmetry in Hrest.
  exists before, after,
    ("Edited " +:+ absolute workingDirectory filePath +:+ ": " +:+ pretty 1
     +:+ " replacement(s)" +:+ lineDiffStr oldString newString).
  split; [done|].
  split; [by apply split_first_correct|].
  unfold execute. rewrite Hfile, Hcount. simpl.
  destruct replaceAll.
  - rewrite split_unfold, Hfirst by done.
    rewrite join_with_cons by apply split_nonempty.
    rewrite split_unfold by done. rewrite count_unfold in Hrest by done.
    destruct (JsString.split_first oldString after) as [[b a]|]; [done|]. simpl.
    by rewrite StringFacts.append_nil_r.
  - destruct Hnew as [Hplain|]; [|done].
    unfold JsString.replace. rewrite Hfirst.
    by rewrite substitution_plain.
Qed.

(** With [replace_all], each of the occurrences that the message counts
    gives way to the new text: the length of the file changes by the count
    times the difference of the two lengths. *)
Theorem replace_all_replaces_the_counted_occurrences
    (filePath oldString newString workingDirectory : string)
    (files : gmap string string) (content : string) (n : nat) :
  files !! absolute workingDirectory filePath = Some content →
  countOccurrences content oldString = Some n →
  0 < n →
  ∃ newContent,
    execute absolute filePath oldString newString true workingDirectory files
    = Some (success ("Edited " +:+ absolute workingDirectory filePath +:+ ": "
                     +:+ pretty n +:+ " replacement(s)" +:+ lineDiffStr oldString newString),
            <[absolute workingDirectory filePath := newContent]> files)
    ∧ String.length newContent + n * String.length oldString
      = String.length content + n * String.length newString.
Proof.
  intros Hfile Hcount Hn.
  destruct (countOccurrences_Some _ _ _ Hcount) as [Hold ->].
  eexists. unfold execute. rewrite Hfile, Hcount. simpl.
  destruct (JsString.count_from oldString 0 content =? 0) eqn:Hzero.
  { apply Nat.eqb_eq in Hzero. lia. }
  rewrite andb_false_r. split; [reflexivity|].
  by apply replace_all_length.
Qed.

End Execute.


Lemma unique_occurrence_is_replaced_in_place_witness :
  ∃ before after message,
    JsString.split_first "export" ("const a = hello();" +:+ Agent.lf +:+ "const b = hello();"
                                   +:+ Agent.lf +:+ "export { a, b };")
    = Some (before, after)
    ∧ "const a = hello();" +:+ Agent.lf +:+ "const b = hello();" +:+ Agent.lf
      +:+ "export { a, b };" = before +:+ "export" +:+ after
    ∧ execute Scenarios.absolute "greet.ts" "export" "module.exports =" false "/work"
        Scenarios.disk
      = Some (success message,
              <[Scenarios.absolute "/work" "greet.ts" := before +:+ "module.exports =" +:+ after]>
                Scenarios.disk).
Proof.
  apply (unique_occurrence_is_replaced_in_place Scenarios.absolute
           "greet.ts" "export" "module.exports =" false "/work" Scenarios.disk);
    [vm_compute; reflexivity|vm_compute; reflexivity|left; vm_compute; reflexivity].
Defined.

Lemma replace_all_replaces_the_counted_occurrences_witness :
  ∃ newContent,
    execute Scenarios.absolute "greet.ts" "hello()" "goodbye()" true "/work" Scenarios.disk
    = Some (success ("Edited " +:+ Scenarios.absolute "/work" "greet.ts" +:+ ": "
                     +:+ pretty 2 +:+ " replacement(s)" +:+ lineDiffStr "hello()" "goodbye()"),
            <[Scenarios.absolute "/work" "greet.ts" := newContent]> Scenarios.disk)
    ∧ String.length newContent + 2 * String.length "hello()"
      = String.length ("const a = hello();" +:+ Agent.lf +:+ "const b = hello();" +:+ Agent.lf
                       +:+ "export { a, b };")
        + 2 * String.length "goodbye()".
Proof.
  apply (replace_all_replaces_the_counted_occurrences Scenarios.absolute
           "greet.ts" "hello()" "goodbye()" "/work" Scenarios.disk);
    [vm_compute; reflexivity|vm_compute; reflexivity|lia].
Defined.

End EditFileFacts.

(** ** What the interface shows *)

Module AppLaws.
Import Agent.

(** The status shown for a tool call once [onToolCallEnd] has the content
    of its tool message: a denied call and a result without success are
    shown as failed; an execution that threw and a tool that was not found
    are shown as completed, as their messages start with neither [Error] nor
    [Tool execution denied]. *)
Theorem shown_status_of_a_tool_call (tc : ToolCall.t) :
  let shown content := App.settle tc content (App.ToolCallState.mk tc App.running None) in
  (∀ content, App.ToolCallState.result (shown content) = Some content)
  ∧ App.ToolCallState.status (shown "Tool execution denied by user") = App.failed
  ∧ App.ToolCallState.status (shown ("Tool not found: " +:+ ToolCall.name tc))
    = App.completed
  ∧ (∀ message, App.ToolCallState.status (shown (result_content (Failed message)))
                = App.completed)
  ∧ (∀ r, ToolResult.success r = false →
          App.ToolCallState.status (shown (result_content (Completed r))) = App.failed)
  ∧ (∀ r, ToolResult.success r = true →
          App.ToolCallState.status (shown (result_content (Completed r)))
          = if JsString.startsWith (ToolResult.output r) "Error"
               || JsString.startsWith (ToolResult.output r) "Tool execution denied"
            then App.failed else App.completed).
Proof.
  intros shown. subst shown. unfold App.settle. simpl. rewrite String.eqb_refl.
  split_and!; try done.
  - intros r Hr. by rewrite Hr.
  - intros r Hr. rewrite Hr. by destruct (_ || _).
Qed.

(** The callbacks of the stream on an interface that is not cancelled. *)
Lemma react_streams (cbs : list Callback) (ui : App.UiState) :
  Forall (λ cb, match cb with OnDone | OnError _ => False | _ => True end) cbs →
  App.cancelledRef ui = false →
  let ui' := fold_left (λ ui cb, App.react cb ui) cbs ui in
  App.cancelledRef ui' = false
  ∧ App.messages ui' = App.messages ui
  ∧ App.messageIdRef ui' = App.messageIdRef ui
  ∧ App.currentTextRef ui' = App.currentTextRef ui +:+ JsString.join (App.streamed cbs)
  ∧ App.streamingText ui' = App.streamingText ui +:+ JsString.join (App.streamed cbs)
  ∧ map App.ToolCallState.toolCall (App.currentToolCallsRef ui')
    = map App.ToolCallState.toolCall (App.currentToolCallsRef ui) ++ App.started cbs.
Proof.
  intros Hcbs. revert ui. induction Hcbs as [|cb cbs Hcb _ IH]; intros ui Hui.
  { simpl. rewrite !StringFacts.append_nil_r, app_nil_r. done. }
  cbn [fold_left].
  assert (Hstep : App.cancelledRef (App.react cb ui) = false
    ∧ App.messages (App.react cb ui) = App.messages ui
    ∧ App.messageIdRef (App.react cb ui) = App.messageIdRef ui
    ∧ App.currentTextRef (App.react cb ui)
      = App.currentTextRef ui +:+ JsString.join (App.streamed [cb])
    ∧ App.streamingText (App.react cb ui)
      = App.streamingText ui +:+ JsString.join (App.streamed [cb])
    ∧ map App.ToolCallState.toolCall (App.currentToolCallsRef (App.react cb ui))
      = map App.ToolCallState.toolCall (App.currentToolCallsRef ui) ++ App.started [cb]).
  { destruct cb as [t|tc|tc result| |]; try done; simpl;
      unfold App.onText, App.onToolCallStart, App.onToolCallEnd; rewrite Hui; simpl;
      rewrite ?StringFacts.append_nil_r, ?app_nil_r; split_and!; try done.
    - by rewrite map_app.
    - rewrite map_map. apply map_ext. intros s. unfold App.settle. by destruct (_ =? _)%string. }
  destruct Hstep as (H1 & H2 & H3 & H4 & H5 & H6).
  destruct (IH (App.react cb ui) H1) as (I1 & I2 & I3 & I4 & I5 & I6).
  change (cb :: cbs) with ([cb] ++ cbs).
  unfold App.streamed, App.started in *. rewrite !omap_app, StringFacts.join_app.
  rewrite I2, I3, I4, I5, I6, H2, H3, H4, H5, H6.
  rewrite !StringFacts.append_assoc, <- !app_assoc. done.
Qed.



End AppLaws.

(** ** The tools of external servers *)

Module MCPFacts.
Import Agent.

Lemma find_app_l {A : Type} (f : A → bool) (l1 l2 : list A) (x : A) :
  find f l1 = Some x → find f (l1 ++ l2) = Some x.
Proof.
  induction l1 as [|a l1 IH]; [done|]. simpl. destruct (f a); [done|exact IH].
Qed.

Lemma find_named {E : Type} (tools : list (Tool.t E)) (name : string) :
  name ∈ map Tool.name tools →
  ∃ tool', find (λ t, String.eqb (Tool.name t) name) tools = Some tool'.
Proof.
  induction tools as [|t tools IH]; [by intros ?%elem_of_nil|].
  simpl. intros [->|Hin]%elem_of_cons.
  - rewrite String.eqb_refl. eauto.
  - destruct (Tool.name t =? name)%string; eauto.
Qed.

Section Wrapper.
Context {E : Type}.
Variable callTool : string → string → Json.value → E → MCP.called * E.

(** A tool of an external server runs without approval, and stands behind
    the built-in tools: whatever its name on its server, [bash] too, its
    name in the agent starts with [mcp__], so the approval gate of the agent
    lets its calls through in every mode and no callback is asked; its
    [execute] does not throw; and a call by the name of a tool of
    [createTools] reaches that tool. *)
Theorem external_tools_run_without_approval (agent : Agent E)
    (callbacks : AgentCallbacks E) (toolDef : MCP.MCPToolDefinition.t) :
  let wrapper := MCP.MCPToolWrapper callTool toolDef in
  (∀ tc st, approval agent callbacks wrapper tc st = (false, st))
  ∧ (Tool.name wrapper ∉ MCP.builtIn)
  ∧ (∀ params context e, ∃ r e', Tool.execute wrapper params context e = (Completed r, e'))
  ∧ (∀ builtInTools toolDefs tc,
       ToolCall.name tc ∈ map Tool.name builtInTools →
       find (λ t, String.eqb (Tool.name t) (ToolCall.name tc))
         (MCP.createToolsWithMCP callTool builtInTools toolDefs)
       = find (λ t, String.eqb (Tool.name t) (ToolCall.name tc)) builtInTools).
Proof.
  intros wrapper. split_and!.
  - intros tc st. unfold approval.
    rewrite AgentFacts.toolNeedsApproval_dangerous.
    rewrite (bool_decide_eq_false_2 (Tool.name wrapper ∈ dangerousTools)).
    + by repeat case_match.
    + unfold dangerousTools. simpl. rewrite !elem_of_cons, elem_of_nil.
      intros [?|[?|[?|[]]]]; discriminate.
  - unfold MCP.builtIn. simpl. rewrite !elem_of_cons, elem_of_nil.
    intros [?|[?|[?|[?|[?|[?|[]]]]]]]; discriminate.
  - intros params context e. simpl.
    destruct (callTool _ _ params e) as [result e']. eauto.
  - intros builtInTools toolDefs tc Hin. unfold MCP.createToolsWithMCP.
    destruct (find_named builtInTools (ToolCall.name tc) Hin) as [tool' Hfind].
    rewrite Hfind. by apply find_app_l.
Qed.

End Wrapper.

Lemma external_tools_run_without_approval_witness :
  let bash := @Scenarios.constant_tool unit "bash" "ok" in
  let remote := MCP.MCPToolDefinition.mk "files" "bash" "Run a command" in
  let call := ToolCall.mk "call_1" "bash" Json.empty_object in
  find (λ t, String.eqb (Tool.name t) (ToolCall.name call))
    (MCP.createToolsWithMCP (λ _ _ _ e, (MCP.Resolved "" false, e)) [bash] [remote])
  = find (λ t, String.eqb (Tool.name t) (ToolCall.name call)) [bash].
Proof.
  apply (external_tools_run_without_approval (λ _ _ _ e, (MCP.Resolved "" false, e))
           (Scenarios.agent_of (Scenarios.converges_after 0) [] SUGGEST)
           (Scenarios.silent None)
           (MCP.MCPToolDefinition.mk "files" "bash" "Run a command")).
  vm_compute. apply list_elem_of_here.
Defined.

End MCPFacts.
